(** * data-orbit: the storage and query engine of [src/index.js]

    A shallow embedding of the [DataOrbit] class (the second, current class of
    [src/index.js]; the first class of the file is the legacy version whose
    XOR codec the current decoder still reads) and the properties of its
    specification.

    Modelling conventions.
    - A JavaScript value is a [value]: the JSON values.  The database is
      loaded from and persisted as JSON text, so these are the values a
      document holds.  [undefined] is the absence of a value: a property
      read is an [option value] and [None] is [undefined].
    - Numbers are the doubles that are integers, as [Z]; [to_double] is the
      rounding that the sum of a double and 1 goes through.  The operations
      of the code that leave these numbers (the sum of two doubles, the
      division of the average, [Math.min], [Math.max], [Infinity]) are
      parameters of the aggregation section.
    - An object is its list of properties in creation order (a [doc]); a
      [for ... in] loop walks that list.  Objects and arrays are compared by
      reference in JavaScript: two object values met by [===] or by
      [Set.has] are distinct references, so they compare different.
    - The objects of the store that are used as dictionaries ([data],
      [indexes], [uniqueKeyMap], [primaryKeyMap], [config.tables]) are
      [gmap]s keyed by strings: the own properties.  A plain object also
      answers the names of the members of [Object.prototype] ([inherited]).
      Where the key is the text of a value of a document (the keys of an
      index) this is modelled: [assign] and [member] are the write and the
      read.  The names of tables and of fields are taken to be none of
      these names; the theorems whose subject is a lookup by such a name
      say so. *)

From stdpp Require Import gmap strings list fin_maps pretty.
From Stdlib Require Import ZArith NArith Lia Ascii Sorted.
From Stdlib Require Strings.Byte.

Set Warnings "-register-all".

Local Open Scope string_scope.
Local Open Scope Z_scope.

(** ** JavaScript values and the built-in operations the code uses *)

Module JS.

Inductive value : Type :=
| VNull
| VBool (b : bool)
| VNum (z : Z)
| VStr (s : string)
| VArr (items : list value)
| VObj (props : list (string * value)).

(** An object: its own enumerable properties, in order. *)
Abbreviation doc := (list (string * value)).

(** [o[k]], on the own properties of [o].  Under the name of a member of
    [Object.prototype] an object that has no such property of its own
    answers that member, which is no JSON value; the theorems on the read
    of a field of any name take the name to be none of these ([inherited],
    below). *)
Fixpoint get (o : doc) (k : string) : option value :=
  match o with
  | [] => None
  | (k', v) :: rest => if String.eqb k' k then Some v else get rest k
  end.

(** [o[k] = v] *)
Fixpoint set (o : doc) (k : string) (v : value) : doc :=
  match o with
  | [] => [(k, v)]
  | (k', v') :: rest =>
      if String.eqb k' k then (k, v) :: rest else (k', v') :: set rest k v
  end.

(** [delete o[k]] *)
Fixpoint remove (o : doc) (k : string) : doc :=
  match o with
  | [] => []
  | (k', v') :: rest =>
      if String.eqb k' k then remove rest k else (k', v') :: remove rest k
  end.

(** [{ ...a, ...b }] *)
Definition spread (a b : doc) : doc :=
  fold_left (fun acc kv => set acc (fst kv) (snd kv)) b a.

(** [typeof v === 'object' && v !== null] *)
Definition is_object (v : value) : bool :=
  match v with
  | VArr _ | VObj _ => true
  | _ => false
  end.

(** [String(v)], which is also the property key [v] is turned into. *)
Fixpoint to_string (v : value) : string :=
  match v with
  | VNull => "null"
  | VBool true => "true"
  | VBool false => "false"
  | VNum z => pretty z
  | VStr s => s
  | VArr items =>
      (fix join (l : list value) : string :=
         match l with
         | [] => ""
         | x :: r =>
             let e := match x with VNull => "" | _ => to_string x end in
             match r with
             | [] => e
             | _ :: _ => e +:+ "," +:+ join r
             end
         end) items
  | VObj _ => "[object Object]"
  end.

(** The property key of a possibly undefined value. *)
Definition to_key (v : option value) : string :=
  match v with
  | None => "undefined"
  | Some x => to_string x
  end.

(** Truthiness. *)
Definition truthy (v : option value) : bool :=
  match v with
  | None | Some VNull | Some (VBool false) => false
  | Some (VNum z) => negb (z =? 0)
  | Some (VStr s) => negb (String.eqb s "")
  | Some _ => true
  end.

(** The members of [Object.prototype]: the names a plain object answers
    without having them. *)
Definition prototype_members : list string :=
  ["constructor"; "__defineGetter__"; "__defineSetter__"; "hasOwnProperty";
   "__lookupGetter__"; "__lookupSetter__"; "isPrototypeOf";
   "propertyIsEnumerable"; "toString"; "valueOf"; "__proto__"; "toLocaleString"].

Definition inherited (k : string) : bool := existsb (String.eqb k) prototype_members.

(** [o[k] = v] on a plain object used as a dictionary, [v] being a number:
    the name [__proto__] is a setter that ignores a number, every other name
    becomes an own property. *)
Definition assign {A} (o : gmap string A) (k : string) (v : A) : gmap string A :=
  if String.eqb k "__proto__" then o else <[k := v]> o.

(** [o[k]] on such an object: the own property, else the inherited member
    ([Some None]: a function, or the prototype itself), else [undefined]. *)
Definition member {A} (o : gmap string A) (k : string) : option (option A) :=
  match o !! k with
  | Some v => Some (Some v)
  | None => if inherited k then Some None else None
  end.

(** The double nearest to an integer, ties to even: what a sum of integers
    is rounded to.  Up to 2^53 every integer is a double. *)
Definition to_double (z : Z) : Z :=
  let a := Z.abs z in
  if a <=? 2 ^ 53 then z
  else
    let e := Z.log2 a - 52 in
    let q := a / 2 ^ e in
    let r := a mod 2 ^ e in
    let half := 2 ^ (e - 1) in
    let q' :=
      if r <? half then q
      else if half <? r then q + 1
      else if Z.even q then q else q + 1 in
    Z.sgn z * (q' * 2 ^ e).

(** [a === b] *)
Definition strict_eq (a b : option value) : bool :=
  match a, b with
  | None, None => true
  | Some VNull, Some VNull => true
  | Some (VBool x), Some (VBool y) => Bool.eqb x y
  | Some (VNum x), Some (VNum y) => x =? y
  | Some (VStr x), Some (VStr y) => String.eqb x y
  | _, _ => false
  end.

(** SameValueZero, the equality of [Set.has] and [Array.includes]; it only
    differs from [===] on NaN, which is no [value]. *)
Definition same_value_zero (a b : option value) : bool := strict_eq a b.

(** [arr.includes(v)] *)
Definition includes (arr : list value) (v : option value) : bool :=
  existsb (fun x => same_value_zero (Some x) v) arr.

(** The own enumerable properties a [for ... in] loop visits. *)
Definition entries (v : value) : doc :=
  match v with
  | VObj props => props
  | VArr items => imap (fun i x => (pretty (Z.of_nat i), x)) items
  | _ => []
  end.

(** *** Relational comparison *)

Definition is_space (a : ascii) : bool :=
  let n := nat_of_ascii a in
  ((n =? 32) || (n =? 9) || (n =? 10) || (n =? 11) || (n =? 12) || (n =? 13))%nat.

Fixpoint trim_left (s : string) : string :=
  match s with
  | String a r => if is_space a then trim_left r else s
  | EmptyString => s
  end.

Definition trim (s : string) : string :=
  String.rev (trim_left (String.rev (trim_left s))).

Definition digit_of (a : ascii) : option Z :=
  let n := nat_of_ascii a in
  if ((48 <=? n) && (n <=? 57))%nat then Some (Z.of_nat (n - 48)) else None.

Fixpoint digits_value (s : string) (acc : Z) : option Z :=
  match s with
  | EmptyString => Some acc
  | String a r =>
      match digit_of a with
      | Some d => digits_value r (10 * acc + d)
      | None => None
      end
  end.

(** [Number(s)] for a string: blank is 0, a signed decimal integer literal is
    its value; every other text reads as NaN ([None]) in the integer model. *)
Definition string_to_number (s : string) : option Z :=
  match trim s with
  | EmptyString => Some 0
  | String "-"%char (String a r) => Z.opp <$> digits_value (String a r) 0
  | String "+"%char (String a r) => digits_value (String a r) 0
  | t => digits_value t 0
  end.

(** [ToPrimitive]: an array or object becomes its string. *)
Definition to_primitive (v : value) : value :=
  if is_object v then VStr (to_string v) else v.

(** [Number(v)], [None] being NaN. *)
Definition to_number (v : option value) : option Z :=
  match v with
  | None => None
  | Some x =>
      match to_primitive x with
      | VNull => Some 0
      | VBool b => Some (if b then 1 else 0)
      | VNum z => Some z
      | VStr s => string_to_number s
      | _ => None
      end
  end.

(** The comparison behind [<], [>], [<=], [>=]: two strings are compared as
    strings, anything else as numbers; [None] is "undefined" (a NaN is
    involved) and makes all four operators false. *)
Definition js_compare (a b : option value) : option comparison :=
  match to_primitive <$> a, to_primitive <$> b with
  | Some (VStr s), Some (VStr t) => Some (String.compare s t)
  | _, _ =>
      match to_number a, to_number b with
      | Some x, Some y => Some (x ?= y)
      | _, _ => None
      end
  end.

Definition js_lt (a b : option value) : bool :=
  match js_compare a b with Some Lt => true | _ => false end.
Definition js_gt (a b : option value) : bool :=
  match js_compare a b with Some Gt => true | _ => false end.
Definition js_le (a b : option value) : bool :=
  match js_compare a b with Some Lt | Some Eq => true | _ => false end.
Definition js_ge (a b : option value) : bool :=
  match js_compare a b with Some Gt | Some Eq => true | _ => false end.

End JS.

Import JS.

(** ** Query engine: [_matchesQuery] and [_matchesOperators] *)

Module Query.

(** [_matchesOperators(value, operators)]: the loop over the operator
    object, one [switch] case per supported operator; a key with no case
    falls out of the [switch] and the loop goes on. *)
Fixpoint _matchesOperators (value : option value) (operators : doc) : bool :=
  match operators with
  | [] => true
  | (op, opValue) :: rest =>
      if String.eqb op "$gt" then
        if negb (js_gt value (Some opValue)) then false
        else _matchesOperators value rest
      else if String.eqb op "$gte" then
        if negb (js_ge value (Some opValue)) then false
        else _matchesOperators value rest
      else if String.eqb op "$lt" then
        if negb (js_lt value (Some opValue)) then false
        else _matchesOperators value rest
      else if String.eqb op "$lte" then
        if negb (js_le value (Some opValue)) then false
        else _matchesOperators value rest
      else if String.eqb op "$ne" then
        if strict_eq value (Some opValue) then false
        else _matchesOperators value rest
      else if String.eqb op "$in" then
        match opValue with
        | VArr arr =>
            if negb (includes arr value) then false
            else _matchesOperators value rest
        | _ => false
        end
      else if String.eqb op "$nin" then
        match opValue with
        | VArr arr =>
            if includes arr value then false
            else _matchesOperators value rest
        | _ => false
        end
      else _matchesOperators value rest
  end.

(** [_matchesQuery(doc, query)] *)
Fixpoint _matchesQuery (d : doc) (query : doc) : bool :=
  match query with
  | [] => true
  | (field, queryValue) :: rest =>
      if is_object queryValue then
        if negb (_matchesOperators (get d field) (entries queryValue)) then false
        else _matchesQuery d rest
      else if negb (strict_eq (get d field) (Some queryValue)) then false
      else _matchesQuery d rest
  end.

End Query.


(** ** The store: tables, indexes, uniqueness registry, key allocator *)

Module Store.

(** [DataType] *)
Definition TEXT := "Text".
Definition NUMBER := "Number".
Definition BOOLEAN := "Boolean".
Definition DATE := "Date".
Definition OBJECT := "Object".
Definition ARRAY := "Array".
Definition PATH := "Path".

(** One entry of a table's [schema]: [{ type, required }]; [required] is
    whether the entry says [required: true]. *)
Record FieldSchema := { ftype : string; required : bool }.

(** One entry of [config.tables]. *)
Record TableConfig := {
  primaryKey : option string;
  unique : option (list string);
  schema : option (list (string * FieldSchema))
}.

(** The state of a [DataOrbit] instance, with the file it writes.  A [Set]
    of the registry is the list of its members in insertion order.  The
    file holds the encrypted text of a database; [file] is that database
    (module [Codec] below is the codec), [None] while there is no file, and
    [writes] counts the calls of [fs.writeFileSync] on it. *)
Record Store := {
  tables : gmap string TableConfig;
  data : gmap string (list doc);
  primaryKeyMap : gmap string Z;
  uniqueKeyMap : gmap string (gmap string (list value));
  indexes : gmap string (gmap string (gmap string nat));
  file : option (gmap string (list doc));
  writes : nat
}.

Definition with_tables (s : Store) x : Store :=
  {| tables := x; data := data s; primaryKeyMap := primaryKeyMap s;
     uniqueKeyMap := uniqueKeyMap s; indexes := indexes s;
     file := file s; writes := writes s |}.
Definition with_data (s : Store) x : Store :=
  {| tables := tables s; data := x; primaryKeyMap := primaryKeyMap s;
     uniqueKeyMap := uniqueKeyMap s; indexes := indexes s;
     file := file s; writes := writes s |}.
Definition with_primaryKeyMap (s : Store) x : Store :=
  {| tables := tables s; data := data s; primaryKeyMap := x;
     uniqueKeyMap := uniqueKeyMap s; indexes := indexes s;
     file := file s; writes := writes s |}.
Definition with_uniqueKeyMap (s : Store) x : Store :=
  {| tables := tables s; data := data s; primaryKeyMap := primaryKeyMap s;
     uniqueKeyMap := x; indexes := indexes s;
     file := file s; writes := writes s |}.
Definition with_indexes (s : Store) x : Store :=
  {| tables := tables s; data := data s; primaryKeyMap := primaryKeyMap s;
     uniqueKeyMap := uniqueKeyMap s; indexes := x;
     file := file s; writes := writes s |}.

(** The failures the operations raise. *)
Inductive error :=
| RequiredField (field table : string)
| WrongType (field type : string)
| UniqueViolation
| PrimaryKeyChange
| TableExists (table : string)
| TypeError
| UserError (msg : string).

Inductive outcome (A : Type) :=
| Return (a : A)
| Throw (e : error).
Arguments Return {A} a.
Arguments Throw {A} e.

(** A method: it runs on the instance and leaves it as it is when the
    method returns or throws. *)
Definition M (A : Type) : Type := Store -> outcome A * Store.

Definition ret {A} (a : A) : M A := fun s => (Return a, s).
Definition throw {A} (e : error) : M A := fun s => (Throw e, s).
Definition bind {A B} (m : M A) (k : A -> M B) : M B :=
  fun s => match m s with
           | (Return a, s') => k a s'
           | (Throw e, s') => (Throw e, s')
           end.
Definition modify (f : Store -> Store) : M unit := fun s => (Return tt, f s).
Definition gets {A} (f : Store -> A) : M A := fun s => (Return (f s), s).

Notation "'do' x <- m ; k" := (bind m (fun x => k))
  (at level 10, x name, m at level 100, k at level 200).

(** [cfg.primaryKey || 'id'] *)
Definition pk_or_id (p : option string) : string :=
  match p with
  | Some k => if String.eqb k "" then "id" else k
  | None => "id"
  end.

(** [this.config.tables[t] || { primaryKey: 'id' }], then
    [tableConfig.primaryKey || 'id'] *)
Definition primaryKey_of (s : Store) (tableName : string) : string :=
  match tables s !! tableName with
  | Some cfg => pk_or_id (primaryKey cfg)
  | None => "id"
  end.

(** [tableConfig.unique || []] *)
Definition unique_of (cfg : TableConfig) : list string :=
  default [] (unique cfg).

(** *** Persistence *)

(** [saveDatabase()]: the file is rewritten with the whole database. *)
Definition saveDatabase (s : Store) : Store :=
  {| tables := tables s; data := data s; primaryKeyMap := primaryKeyMap s;
     uniqueKeyMap := uniqueKeyMap s; indexes := indexes s;
     file := Some (data s); writes := S (writes s) |}.

(** *** Indexes *)

(** The [forEach] of [_createIndex]: every row that has the field puts its
    position under the key of its value. *)
Definition index_rows (field : string) (rows : list doc) : gmap string nat :=
  fold_left
    (fun idx ir =>
       match get (snd ir) field with
       | Some v => assign idx (to_string v) (fst ir)
       | None => idx
       end)
    (imap (fun i row => (i, row)) rows) ∅.

(** [_createIndex(tableName, field)] *)
Definition _createIndex (tableName field : string) (s : Store) : Store :=
  let tidx := default ∅ (indexes s !! tableName) in
  let idx :=
    match data s !! tableName with
    | Some rows => index_rows field rows
    | None => ∅
    end in
  with_indexes s (<[tableName := <[field := idx]> tidx]> (indexes s)).

(** The maximum of [_calculateNextPrimaryKey]. *)
Definition max_key (pk : string) (rows : list doc) : Z :=
  fold_left
    (fun maxValue row =>
       match get row pk with
       | Some (VNum n) => if maxValue <? n then n else maxValue
       | _ => maxValue
       end)
    rows 0.

(** [_calculateNextPrimaryKey(tableName, primaryKey)] *)
Definition _calculateNextPrimaryKey (tableName pk : string) (s : Store) : Store :=
  match data s !! tableName with
  | None | Some [] => with_primaryKeyMap s (<[tableName := 1]> (primaryKeyMap s))
  | Some rows =>
      with_primaryKeyMap s
        (<[tableName := to_double (max_key pk rows + 1)]> (primaryKeyMap s))
  end.

(** The names of the tables of [this.data], as a [for ... in] visits them. *)
Definition table_names (s : Store) : list string := (map_to_list (data s)).*1.

(** [_initializeIndexes()] *)
Definition _initializeIndexes (s : Store) : Store :=
  fold_left
    (fun s tableName =>
       let s :=
         match indexes s !! tableName with
         | Some _ => s
         | None => with_indexes s (<[tableName := ∅]> (indexes s))
         end in
       match tables s !! tableName with
       | None => s
       | Some tableConfig =>
           let pk := pk_or_id (primaryKey tableConfig) in
           let s := _createIndex tableName pk s in
           let s := fold_left (fun s field => _createIndex tableName field s)
                              (unique_of tableConfig) s in
           _calculateNextPrimaryKey tableName pk s
       end)
    (table_names s) s.

(** [_updateIndexes(tableName, doc, docIndex)] *)
Definition _updateIndexes (tableName : string) (d : doc) (docIndex : nat)
    (s : Store) : Store :=
  let tidx := default ∅ (indexes s !! tableName) in
  let tidx' :=
    map_imap
      (fun field idx =>
         Some match get d field with
              | Some v => assign idx (to_string v) docIndex
              | None => idx
              end)
      tidx in
  with_indexes s (<[tableName := tidx']> (indexes s)).

(** [_removeFromIndexes(tableName, doc)] *)
Definition _removeFromIndexes (tableName : string) (d : doc) (s : Store) : Store :=
  match indexes s !! tableName with
  | None => s
  | Some tidx =>
      let tidx' :=
        map_imap
          (fun field idx =>
             Some match get d field with
                  | Some v => delete (to_string v) idx
                  | None => idx
                  end)
          tidx in
      with_indexes s (<[tableName := tidx']> (indexes s))
  end.

(** *** Uniqueness registry *)

(** [set.has(v)], [set.add(v)], [set.delete(v)] *)
Definition set_has (members : list value) (v : value) : bool :=
  existsb (fun x => same_value_zero (Some x) (Some v)) members.
Definition set_add (members : list value) (v : value) : list value :=
  if set_has members v then members else members ++ [v].
Definition set_delete (members : list value) (v : value) : list value :=
  List.filter (fun x => negb (same_value_zero (Some x) (Some v))) members.

(** [v !== undefined && v !== null] *)
Definition has_value (v : option value) : bool :=
  match v with
  | None | Some VNull => false
  | Some _ => true
  end.

(** [v !== undefined] *)
Definition has_defined (v : option value) : bool :=
  match v with
  | None => false
  | Some _ => true
  end.

(** [_initializeUniqueKeyMaps()] *)
Definition _initializeUniqueKeyMaps (s : Store) : Store :=
  fold_left
    (fun s tableName =>
       let s :=
         match uniqueKeyMap s !! tableName with
         | Some _ => s
         | None => with_uniqueKeyMap s (<[tableName := ∅]> (uniqueKeyMap s))
         end in
       match tables s !! tableName with
       | None => s
       | Some tableConfig =>
           let uniqueConstraints := unique_of tableConfig in
           let sets :=
             fold_left (fun m uniqueKey => <[uniqueKey := []]> m)
                       uniqueConstraints
                       (default ∅ (uniqueKeyMap s !! tableName)) in
           let sets :=
             fold_left
               (fun m row =>
                  fold_left
                    (fun m uniqueKey =>
                       match get row uniqueKey with
                       | Some v =>
                           <[uniqueKey := set_add (default [] (m !! uniqueKey)) v]> m
                       | None => m
                       end)
                    uniqueConstraints m)
               (default [] (data s !! tableName)) sets in
           with_uniqueKeyMap s (<[tableName := sets]> (uniqueKeyMap s))
       end)
    (table_names s) (with_uniqueKeyMap s ∅).

(** [_checkUniqueConstraints(tableName, data)] *)
Definition _checkUniqueConstraints (tableName : string) (d : doc) (s : Store) : bool :=
  match tables s !! tableName with
  | None => true
  | Some tableConfig =>
      (fix loop (uniqueConstraints : list string) : bool :=
         match uniqueConstraints with
         | [] => true
         | uniqueKey :: rest =>
             match get d uniqueKey with
             | None | Some VNull => loop rest
             | Some v =>
                 match uniqueKeyMap s !! tableName with
                 | Some sets =>
                     match sets !! uniqueKey with
                     | Some members => if set_has members v then false else loop rest
                     | None => loop rest
                     end
                 | None => loop rest
                 end
             end
         end) (unique_of tableConfig)
  end.

(** [_updateUniqueKeyMap(tableName, data)] *)
Definition _updateUniqueKeyMap (tableName : string) (d : doc) (s : Store) : Store :=
  match tables s !! tableName with
  | None => s
  | Some tableConfig =>
      let sets :=
        fold_left
          (fun m uniqueKey =>
             let members := default [] (m !! uniqueKey) in
             <[uniqueKey :=
                 match get d uniqueKey with
                 | None | Some VNull => members
                 | Some v => set_add members v
                 end]> m)
          (unique_of tableConfig)
          (default ∅ (uniqueKeyMap s !! tableName)) in
      with_uniqueKeyMap s (<[tableName := sets]> (uniqueKeyMap s))
  end.

(** [_removeFromUniqueKeyMap(tableName, doc)] *)
Definition _removeFromUniqueKeyMap (tableName : string) (d : doc) (s : Store) : Store :=
  match tables s !! tableName with
  | None => s
  | Some tableConfig =>
      match uniqueKeyMap s !! tableName with
      | None => s
      | Some sets =>
          let sets' :=
            fold_left
              (fun m uniqueKey =>
                 match m !! uniqueKey, get d uniqueKey with
                 | Some members, Some v => <[uniqueKey := set_delete members v]> m
                 | _, _ => m
                 end)
              (unique_of tableConfig) sets in
          with_uniqueKeyMap s (<[tableName := sets']> (uniqueKeyMap s))
      end
  end.

(** *** Schema validation *)

(** What the validation asks the outside world: whether [Date.parse] reads
    a value as a date, and whether a path exists on the file system. *)
Record Env := {
  date_parses : value -> bool;
  path_exists : string -> bool
}.

Section Engine.

Variable env : Env.

(** [_validateFieldType(value, type)] *)
Definition _validateFieldType (v : value) (type : string) : bool :=
  if String.eqb type TEXT then
    match v with VStr _ => true | _ => false end
  else if String.eqb type NUMBER then
    match v with VNum _ => true | _ => false end
  else if String.eqb type BOOLEAN then
    match v with VBool _ => true | _ => false end
  else if String.eqb type DATE then
    date_parses env v
  else if String.eqb type OBJECT then
    match v with VObj _ => true | _ => false end
  else if String.eqb type ARRAY then
    match v with VArr _ => true | _ => false end
  else if String.eqb type PATH then
    match v with VStr p => path_exists env p | _ => false end
  else true.

(** [_validateDataAgainstSchema(tableName, data)]: [None] when it returns
    [true], the failure it throws otherwise. *)
Definition _validateDataAgainstSchema (tableName : string) (d : doc) (s : Store)
    : option error :=
  match tables s !! tableName with
  | None => None
  | Some tableConfig =>
      match schema tableConfig with
      | None => None
      | Some fields =>
          (fix loop (fields : list (string * FieldSchema)) : option error :=
             match fields with
             | [] => None
             | (field, fs) :: rest =>
                 if required fs && negb (has_value (get d field)) then
                   Some (RequiredField field tableName)
                 else
                   match get d field with
                   | None | Some VNull => loop rest
                   | Some v =>
                       if negb (_validateFieldType v (ftype fs)) then
                         Some (WrongType field (ftype fs))
                       else loop rest
                   end
             end) fields
      end
  end.

(** *** Primary-key allocator *)

(** [getNextPrimaryKey(tableName)] *)
Definition getNextPrimaryKey (tableName : string) : M Z :=
  fun s =>
    let s :=
      match primaryKeyMap s !! tableName with
      | None | Some 0 =>
          _calculateNextPrimaryKey tableName (primaryKey_of s tableName) s
      | Some _ => s
      end in
    let nextKey := default 0 (primaryKeyMap s !! tableName) in
    (Return nextKey,
     with_primaryKeyMap s (<[tableName := to_double (nextKey + 1)]> (primaryKeyMap s))).

(** *** Mutations *)

(** [insert(tableName, data)]; [now] is the reading of the clock,
    [new Date().toISOString()]. *)
Definition insert (now : string) (tableName : string) (d : doc) : M doc :=
  do _ <- modify (fun s =>
            match data s !! tableName with
            | Some _ => s
            | None =>
                with_indexes (with_data s (<[tableName := []]> (data s)))
                             (<[tableName := ∅]> (indexes s))
            end);
  do primaryKey <- gets (fun s => primaryKey_of s tableName);
  do invalid <- gets (_validateDataAgainstSchema tableName d);
  match invalid with
  | Some e => throw e
  | None =>
      do newDoc <-
        match get d primaryKey with
        | None =>
            do k <- getNextPrimaryKey tableName;
            ret (set d primaryKey (VNum k))
        | Some _ => ret d
        end;
      do ok <- gets (_checkUniqueConstraints tableName newDoc);
      if negb ok then throw UniqueViolation
      else
        let newDoc := set (set newDoc "_createdAt" (VStr now)) "_updatedAt" (VStr now) in
        do _ <- modify (fun s =>
                  with_data s (<[tableName := (default [] (data s !! tableName) ++ [newDoc])%list]>
                                 (data s)));
        do docIndex <- gets (fun s =>
                  (length (default [] (data s !! tableName)) - 1)%nat);
        do _ <- modify (_updateIndexes tableName newDoc docIndex);
        do _ <- modify (_updateUniqueKeyMap tableName newDoc);
        do _ <- modify saveDatabase;
        ret newDoc
  end.

(** [arr.findIndex(item => item[primaryKey] === id)], [None] being -1. *)
Fixpoint findIndex (primaryKey : string) (id : value) (rows : list doc) : option nat :=
  match rows with
  | [] => None
  | item :: rest =>
      if strict_eq (get item primaryKey) (Some id) then Some 0%nat
      else S <$> findIndex primaryKey id rest
  end.

(** [arr.splice(index, 1)] *)
Definition splice1 {A} (index : nat) (l : list A) : list A :=
  take index l ++ drop (S index) l.

(** [delete(tableName, id)] *)
Definition delete (tableName : string) (id : value) : M bool :=
  fun s =>
    match data s !! tableName with
    | None => (Return false, s)
    | Some rows =>
        let primaryKey := primaryKey_of s tableName in
        match findIndex primaryKey id rows with
        | None => (Return false, s)
        | Some index =>
            let deletedDoc := default [] (rows !! index) in
            let s := _removeFromIndexes tableName deletedDoc s in
            let s := _removeFromUniqueKeyMap tableName deletedDoc s in
            let s := with_data s (<[tableName := splice1 index rows]> (data s)) in
            let s := saveDatabase s in
            (Return true, s)
        end
    end.

(** [_checkUniqueConstraintsForUpdate(tableName, newData, originalData)] *)
Definition _checkUniqueConstraintsForUpdate (tableName : string)
    (newData originalData : doc) (s : Store) : bool :=
  match tables s !! tableName with
  | None => true
  | Some tableConfig =>
      (fix loop (uniqueConstraints : list string) : bool :=
         match uniqueConstraints with
         | [] => true
         | uniqueKey :: rest =>
             if strict_eq (get newData uniqueKey) (get originalData uniqueKey)
             then loop rest
             else
               match get newData uniqueKey with
               | None | Some VNull => loop rest
               | Some v =>
                   match uniqueKeyMap s !! tableName with
                   | Some sets =>
                       match sets !! uniqueKey with
                       | Some members =>
                           if set_has members v then false else loop rest
                       | None => loop rest
                       end
                   | None => loop rest
                   end
               end
         end) (unique_of tableConfig)
  end.

(** [if (v !== undefined && v !== null) this.uniqueKeyMap[tableName][uniqueKey].f(v)],
    [f] being [delete] or [add].  The set is read without a guard: a
    [TypeError] when that set is missing. *)
Definition registry_apply (tableName uniqueKey : string) (v : option value)
    (f : list value -> value -> list value) : M unit :=
  fun s =>
    match v with
    | None | Some VNull => (Return tt, s)
    | Some x =>
        match uniqueKeyMap s !! tableName with
        | Some sets =>
            match sets !! uniqueKey with
            | Some members =>
                (Return tt,
                 with_uniqueKeyMap s
                   (<[tableName := <[uniqueKey := f members x]> sets]>
                      (uniqueKeyMap s)))
            | None => (Throw TypeError, s)
            end
        | None => (Throw TypeError, s)
        end
    end.

(** [_updateUniqueKeyMapForUpdate(tableName, newData, originalData)] *)
Definition _updateUniqueKeyMapForUpdate (tableName : string)
    (newData originalData : doc) : M unit :=
  fun s =>
    match tables s !! tableName with
    | None => (Return tt, s)
    | Some tableConfig =>
        (fix loop (uniqueConstraints : list string) : M unit :=
           match uniqueConstraints with
           | [] => ret tt
           | uniqueKey :: rest =>
               if strict_eq (get newData uniqueKey) (get originalData uniqueKey)
               then loop rest
               else
                 do _ <- registry_apply tableName uniqueKey
                           (get originalData uniqueKey) set_delete;
                 do _ <- registry_apply tableName uniqueKey
                           (get newData uniqueKey) set_add;
                 loop rest
           end) (unique_of tableConfig) s
    end.

(** [update(tableName, id, newData)]; [None] is the [null] it returns when
    the table or the document is missing. *)
Definition update (now : string) (tableName : string) (id : value) (newData : doc)
    : M (option doc) :=
  fun s =>
    match data s !! tableName with
    | None => (Return None, s)
    | Some rows =>
        let primaryKey := primaryKey_of s tableName in
        match findIndex primaryKey id rows with
        | None => (Return None, s)
        | Some index =>
            let originalDoc := default [] (rows !! index) in
            match _validateDataAgainstSchema tableName (spread originalDoc newData) s with
            | Some e => (Throw e, s)
            | None =>
                if has_defined (get newData primaryKey)
                   && negb (strict_eq (get newData primaryKey) (get originalDoc primaryKey))
                then (Throw PrimaryKeyChange, s)
                else
                  let updatedDoc :=
                    spread (spread originalDoc newData) [("_updatedAt", VStr now)] in
                  if negb (_checkUniqueConstraintsForUpdate tableName updatedDoc originalDoc s)
                  then (Throw UniqueViolation, s)
                  else
                    let s := _removeFromIndexes tableName originalDoc s in
                    let s := with_data s (<[tableName := <[index := updatedDoc]> rows]> (data s)) in
                    let s := _updateIndexes tableName updatedDoc index s in
                    match _updateUniqueKeyMapForUpdate tableName updatedDoc originalDoc s with
                    | (Throw e, s) => (Throw e, s)
                    | (Return _, s) => (Return (Some updatedDoc), saveDatabase s)
                    end
            end
        end
    end.

End Engine.

(** [createTable(tableName, schema)]; the index it creates is on
    [this.config.tables[tableName].primaryKey], the key ["undefined"] when a
    configuration given at construction names no primary key. *)
Definition createTable (tableName : string)
    (sch : option (list (string * FieldSchema))) : M bool :=
  fun s =>
    match data s !! tableName with
    | Some _ => (Throw (TableExists tableName), s)
    | None =>
        let s := with_data s (<[tableName := []]> (data s)) in
        let s :=
          match tables s !! tableName with
          | Some _ => s
          | None =>
              with_tables s
                (<[tableName := {| primaryKey := Some "id"; unique := None;
                                   schema := Some (default [] sch) |}]> (tables s))
          end in
        let s := with_indexes s (<[tableName := ∅]> (indexes s)) in
        let field :=
          match tables s !! tableName with
          | Some cfg => default "undefined" (primaryKey cfg)
          | None => "undefined"
          end in
        let s := _createIndex tableName field s in
        let s := with_uniqueKeyMap s (<[tableName := ∅]> (uniqueKeyMap s)) in
        (Return true, saveDatabase s)
    end.

(** [dropTable(tableName)] *)
Definition dropTable (tableName : string) : M bool :=
  fun s =>
    match data s !! tableName with
    | None => (Return false, s)
    | Some _ =>
        let s := with_data s (base.delete tableName (data s)) in
        let s := with_indexes s (base.delete tableName (indexes s)) in
        let s := with_uniqueKeyMap s (base.delete tableName (uniqueKeyMap s)) in
        let s := with_primaryKeyMap s (base.delete tableName (primaryKeyMap s)) in
        (Return true, saveDatabase s)
    end.

(** [createIndex(tableName, field)] *)
Definition createIndex (tableName field : string) : M bool :=
  fun s =>
    match data s !! tableName with
    | None => (Return false, s)
    | Some _ => (Return true, _createIndex tableName field s)
    end.

(** [dropIndex(tableName, field)]; for a field that has no index but
    names a member of [Object.prototype] the test finds the member, the
    [delete] removes nothing and the answer is [true]. *)
Definition dropIndex (tableName field : string) : M bool :=
  fun s =>
    match indexes s !! tableName with
    | None => (Return false, s)
    | Some tidx =>
        match tidx !! field with
        | None => if inherited field then (Return true, s) else (Return false, s)
        | Some _ =>
            (Return true,
             with_indexes s (<[tableName := base.delete field tidx]> (indexes s)))
        end
    end.

(** *** Reads *)

(** [findAll(tableName)] *)
Definition findAll (tableName : string) (s : Store) : list doc :=
  default [] (data s !! tableName).

(** [find(tableName, query)].  The query is [None] when it is [null] or
    missing.  An element of the result is [None] when the position found in
    the index is past the end of the table, or is no position but an
    inherited member of the index object: the array the code returns holds
    [undefined] there.  The field of a single-field query is taken not to
    name a member of [Object.prototype] unless it has an index. *)
Definition find (tableName : string) (query : option doc) (s : Store)
    : list (option doc) :=
  match data s !! tableName with
  | None => []
  | Some rows =>
      match query with
      | None | Some [] => Some <$> findAll tableName s
      | Some (((queryField, queryValue) :: others) as q) =>
          let singleFieldQuery := match others with [] => true | _ => false end in
          match singleFieldQuery, (indexes s !! tableName) ≫= (.!! queryField) with
          | true, Some idx =>
              match member idx (to_string queryValue) with
              | Some (Some index) => [rows !! index]
              | Some None => [None]
              | None => []
              end
          | _, _ => Some <$> List.filter (fun d => Query._matchesQuery d q) rows
          end
      end
  end.

(** [findById(tableName, id)]; with an index it returns a copy
    [{ ...this.data[tableName][index] }], the empty object when the position
    is past the end or is an inherited member of the index object. *)
Definition findById (tableName : string) (id : value) (s : Store) : option doc :=
  match data s !! tableName with
  | None => None
  | Some rows =>
      let primaryKey := primaryKey_of s tableName in
      match (indexes s !! tableName) ≫= (.!! primaryKey) with
      | Some idx =>
          match member idx (to_string id) with
          | Some (Some index) => Some (default [] (rows !! index))
          | Some None => Some []
          | None => None
          end
      | None =>
          List.find (fun d => strict_eq (get d primaryKey) (Some id)) rows
      end
  end.

(** [findOne(tableName, query)] *)
Definition findOne (tableName : string) (query : option doc) (s : Store)
    : option (option doc) :=
  head (find tableName query s).

(** *** Transactions *)

(** [transaction(transactionFn)]: [currentState] is the text
    [JSON.stringify(this.data)], and [JSON.parse] gives back the database it
    was made from. *)
Definition transaction {A} (transactionFn : M A) : M A :=
  fun s =>
    let currentState := data s in
    match transactionFn s with
    | (Return result, s) => (Return result, saveDatabase s)
    | (Throw e, s) => (Throw e, with_data s currentState)
    end.

(** *** Opening a database *)

(** [new DataOrbit(config)] on a file that holds [disk] ([None]: no file
    yet, and [loadDatabase] writes an empty database). *)
Definition open (config_tables : gmap string TableConfig)
    (disk : option (gmap string (list doc))) (written : nat) : Store :=
  let s := {| tables := config_tables; data := ∅; primaryKeyMap := ∅;
              uniqueKeyMap := ∅; indexes := ∅; file := disk; writes := written |} in
  let s :=
    match disk with
    | None =>
        {| tables := config_tables; data := ∅; primaryKeyMap := ∅;
           uniqueKeyMap := ∅; indexes := ∅; file := Some ∅; writes := S written |}
    | Some db => _initializeUniqueKeyMaps (with_data s db)
    end in
  _initializeIndexes s.

(** Closing the program and opening the same file again with the
    configuration of the instance. *)
Definition reload (s : Store) : Store := open (tables s) (file s) (writes s).

End Store.

(** ** The query grammar of the specification *)

Module QuerySpec.
Import Query.

(** The operators the query grammar names. *)
Inductive operator := Gt | Gte | Lt | Lte | Ne | In_set | Not_in_set.

Definition op_key (o : operator) : string :=
  match o with
  | Gt => "$gt"
  | Gte => "$gte"
  | Lt => "$lt"
  | Lte => "$lte"
  | Ne => "$ne"
  | In_set => "$in"
  | Not_in_set => "$nin"
  end.

Definition supported_keys : list string := op_key <$> [Gt; Gte; Lt; Lte; Ne; In_set; Not_in_set].

(** A literal of a query: a value that is no object. *)
Inductive literal := LNull | LBool (b : bool) | LNum (z : Z) | LStr (s : string).

Definition lit_value (l : literal) : value :=
  match l with
  | LNull => VNull
  | LBool b => VBool b
  | LNum z => VNum z
  | LStr s => VStr s
  end.

(** A field constraint: a literal, or an operator object. *)
Inductive constraint :=
| Equals (l : literal)
| Operators (ops : list (operator * value)).

(** The JavaScript object a constraint and a query are written as. *)
Definition constraint_value (c : constraint) : value :=
  match c with
  | Equals l => lit_value l
  | Operators ops => VObj ((fun ov => (op_key (fst ov), snd ov)) <$> ops)
  end.

Definition query_object (q : list (string * constraint)) : doc :=
  (fun fc => (fst fc, constraint_value (snd fc))) <$> q.

(** What one operator asks of the value of the field. *)
Definition operator_holds (o : operator) (v : option value) (operand : value) : Prop :=
  match o with
  | Gt => js_gt v (Some operand) = true
  | Gte => js_ge v (Some operand) = true
  | Lt => js_lt v (Some operand) = true
  | Lte => js_le v (Some operand) = true
  | Ne => strict_eq v (Some operand) = false
  | In_set => exists arr, operand = VArr arr /\ includes arr v = true
  | Not_in_set => exists arr, operand = VArr arr /\ includes arr v = false
  end.

(** A constraint holds: equality with the literal, or every operator of
    the operator object. *)
Definition constraint_holds (d : doc) (field : string) (c : constraint) : Prop :=
  match c with
  | Equals l => strict_eq (get d field) (Some (lit_value l)) = true
  | Operators ops =>
      Forall (fun ov => operator_holds (fst ov) (get d field) (snd ov)) ops
  end.

(** A document matches: every field constraint holds. *)
Definition matches (d : doc) (q : list (string * constraint)) : Prop :=
  Forall (fun fc => constraint_holds d (fst fc) (snd fc)) q.

End QuerySpec.

(** ** Index consistency, and the concrete runs used below *)

Module Scenarios.
Import Store.

(** The state a method leaves, and what it returns or throws. *)
Definition state_after {A} (m : M A) (s : Store) : Store := snd (m s).
Definition result_of {A} (m : M A) (s : Store) : outcome A := fst (m s).

(** Every index entry of a live document points to its position: in every
    table, for every indexed field, the document at position [i] that has
    a value on the field finds [i] under the key of that value. *)
Definition index_consistent (s : Store) : Prop :=
  forall tableName rows tidx field idx i d v,
    data s !! tableName = Some rows ->
    indexes s !! tableName = Some tidx ->
    tidx !! field = Some idx ->
    rows !! i = Some d ->
    get d field = Some v ->
    idx !! to_string v = Some i.

(** The answer of the plain filter: the documents of the table that
    satisfy the query predicate. *)
Definition full_scan (tableName : string) (query : doc) (s : Store) : list (option doc) :=
  Some <$> List.filter (fun d => Query._matchesQuery d query) (findAll tableName s).

(** An outside world with no dates and no paths. *)
Definition env0 : Env := {| date_parses := fun _ => false; path_exists := fun _ => false |}.

(** A database opened on no file, with no table configured. *)
Definition fresh : Store := open ∅ None 0.

(** [createTable('t')], then two inserts: the keys 1 and 2 at the
    positions 0 and 1, indexed by [id]. *)
Definition two_rows : Store :=
  let s := state_after (createTable "t" None) fresh in
  let s := state_after (insert env0 "day1" "t" [("n", VStr "a")]) s in
  state_after (insert env0 "day2" "t" [("n", VStr "b")]) s.

(** ... then [delete('t', 1)]. *)
Definition first_deleted : Store := state_after (delete "t" (VNum 1)) two_rows.

(** A table [u] configured with [unique: ['email']], opened on no file;
    then one user. *)
Definition users_config : gmap string TableConfig :=
  {[ "u" := {| primaryKey := None; unique := Some ["email"]; schema := None |} ]}.

Definition users_empty : Store := open users_config None 0.

Definition ana : doc := [("email", VStr "ana@example.org")].

Definition users_one : Store := state_after (insert env0 "day1" "u" ana) users_empty.

(** The document the first insert stores. *)
Definition ana_stored : doc :=
  [("email", VStr "ana@example.org"); ("id", VNum 1);
   ("_createdAt", VStr "day1"); ("_updatedAt", VStr "day1")].

End Scenarios.

(** ** The steps of [insert] *)

Module InsertSteps.
Import Store.

(** The table [insert] creates when it is missing. *)
Definition ensured (tableName : string) (s : Store) : Store :=
  match data s !! tableName with
  | Some _ => s
  | None =>
      with_indexes (with_data s (<[tableName := []]> (data s)))
                   (<[tableName := ∅]> (indexes s))
  end.

(** The document [insert] checks for uniqueness, and the state at that
    point: the key is drawn from the allocator when the document has none. *)
Definition keyed (tableName : string) (d : doc) (s : Store) : doc * Store :=
  let pk := primaryKey_of s tableName in
  match get d pk with
  | None =>
      match getNextPrimaryKey tableName s with
      | (Return k, s') => (set d pk (VNum k), s')
      | (Throw _, s') => (d, s')
      end
  | Some _ => (d, s)
  end.

(** The document an accepted insert stores, and the state it leaves. *)
Definition stored (now : string) (tableName : string) (newDoc : doc) (s : Store)
    : doc * Store :=
  let newDoc := set (set newDoc "_createdAt" (VStr now)) "_updatedAt" (VStr now) in
  let s := with_data s (<[tableName := (default [] (data s !! tableName) ++ [newDoc])%list]>
                          (data s)) in
  let docIndex := (length (default [] (data s !! tableName)) - 1)%nat in
  let s := _updateIndexes tableName newDoc docIndex s in
  let s := _updateUniqueKeyMap tableName newDoc s in
  (newDoc, saveDatabase s).

(** A value that is neither [null] nor an object: text, number, boolean. *)
Definition is_scalar (v : value) : bool :=
  match v with
  | VBool _ | VNum _ | VStr _ => true
  | _ => false
  end.

End InsertSteps.

(** ** Persistence codec: [encryptData], [decryptData], [_legacyDecrypt]

    Here a text is a JavaScript string as the codec sees it, the list of its
    UTF-16 code units.  The block cipher and the hash are those of the
    [crypto] module of the platform; they are a parameter, with the
    contract that decrypting gives back what was encrypted. *)

Module Codec.

Local Open Scope N_scope.

Abbreviation text := (list N).

(** The text of a Rocq string, one code unit per character. *)
Definition units (s : string) : text := N_of_ascii <$> String.list_ascii_of_string s.

(** Every element is a code unit. *)
Definition code_units (t : text) : Prop := Forall (fun c => c < 65536) t.

(** No unpaired surrogate: the texts UTF-8 can carry. *)
Fixpoint well_formed (t : text) : bool :=
  match t with
  | [] => true
  | c :: r =>
      if (c <? 55296) || ((57344 <=? c) && (c <? 65536)) then well_formed r
      else if (55296 <=? c) && (c <? 56320) then
        match r with
        | d :: r' => (56320 <=? d) && (d <? 57344) && well_formed r'
        | [] => false
        end
      else false
  end.

(** *** The legacy scheme *)

(** [key.charCodeAt(i % key.length)]; with an empty key the index is NaN,
    the character code is NaN, and [^] reads it as 0. *)
Definition key_unit (key : text) (i : nat) : N :=
  match key with
  | [] => 0
  | _ => nth (i mod length key)%nat key 0
  end.

(** [String.fromCharCode(a ^ b)] *)
Definition xor_unit (a b : N) : N := N.lxor a b mod 65536.

(** The loop of the legacy [encryptData] and of [_legacyDecrypt], from
    position [i] on. *)
Fixpoint xor_from (i : nat) (data key : text) : text :=
  match data with
  | [] => []
  | c :: rest => xor_unit c (key_unit key i) :: xor_from (S i) rest key
  end.

(** [encryptData(data, encryptionKey)] of the legacy class. *)
Definition legacy_encryptData (data encryptionKey : text) : text :=
  xor_from 0 data encryptionKey.

(** [_legacyDecrypt(data, encryptionKey)] *)
Definition _legacyDecrypt (data encryptionKey : text) : text :=
  xor_from 0 data encryptionKey.

(** *** Hexadecimal text *)

Definition hex_digit (n : N) : N := if n <? 10 then 48 + n else 87 + n.

Definition hex_value (c : N) : option N :=
  if (48 <=? c) && (c <=? 57) then Some (c - 48)
  else if (97 <=? c) && (c <=? 102) then Some (c - 87)
  else if (65 <=? c) && (c <=? 70) then Some (c - 55)
  else None.

(** [buffer.toString('hex')] *)
Definition to_hex (bs : list Byte.byte) : text :=
  flat_map (fun b => [hex_digit (Byte.to_N b / 16); hex_digit (Byte.to_N b mod 16)]) bs.

(** [Buffer.from(s, 'hex')]: pairs of digits, up to the first pair that is
    none. *)
Fixpoint from_hex (s : text) : list Byte.byte :=
  match s with
  | a :: b :: rest =>
      match hex_value a, hex_value b with
      | Some x, Some y =>
          match Byte.of_N (16 * x + y) with
          | Some byte => byte :: from_hex rest
          | None => []
          end
      | _, _ => []
      end
  | _ => []
  end.

(** [s.split(sep)] for a separator of one code unit. *)
Fixpoint split_on (sep : N) (s : text) : list text :=
  match s with
  | [] => [[]]
  | c :: rest =>
      if c =? sep then [] :: split_on sep rest
      else
        match split_on sep rest with
        | part :: parts => (c :: part) :: parts
        | [] => [[c]]
        end
  end.

(** The number of separators of a text. *)
Definition count_unit (sep : N) (s : text) : nat :=
  length (List.filter (fun c => c =? sep) s).

Definition colon : N := 58.

(** *** The cipher of the platform *)

(** [derive_key] is the first 32 characters of the base64 SHA-256 digest of
    the passphrase; [cipher] is AES-256-CBC over the UTF-8 bytes of the
    text, [decipher] its inverse, [None] when it throws. *)
Record Crypto := {
  derive_key : text -> text;
  cipher : text -> list Byte.byte -> text -> list Byte.byte;
  decipher : text -> list Byte.byte -> list Byte.byte -> option text;
  decipher_cipher :
    forall key iv data,
      length iv = 16%nat -> well_formed data = true ->
      decipher key iv (cipher key iv data) = Some data
}.

(** *** The current scheme *)

(** [encryptData(data, encryptionKey)]; [iv] is [crypto.randomBytes(16)]. *)
Definition encryptData (C : Crypto) (iv : list Byte.byte) (data encryptionKey : text) : text :=
  let key := derive_key C encryptionKey in
  let encrypted := to_hex (cipher C key iv data) in
  (to_hex iv ++ colon :: encrypted)%list.

(** [decryptData(encryptedData, encryptionKey)], [None] when it throws:
    [createDecipheriv] refuses an initialization vector that is not of 16
    bytes. *)
Definition decryptData (C : Crypto) (encryptedData encryptionKey : text) : option text :=
  let key := derive_key C encryptionKey in
  match split_on colon encryptedData with
  | [part0; part1] =>
      let iv := from_hex part0 in
      if (length iv =? 16)%nat then decipher C key iv (from_hex part1)
      else None
  | _ => Some (_legacyDecrypt encryptedData encryptionKey)
  end.

(** A cipher to run the codec with: the two bytes of every code unit. *)
Definition toy_cipher (key : text) (iv : list Byte.byte) (data : text) : list Byte.byte :=
  flat_map (fun c => [default Byte.x00 (Byte.of_N (c / 256 mod 256));
                      default Byte.x00 (Byte.of_N (c mod 256))]) data.

Fixpoint toy_decipher_bytes (bs : list Byte.byte) : text :=
  match bs with
  | hi :: lo :: rest => (256 * Byte.to_N hi + Byte.to_N lo) :: toy_decipher_bytes rest
  | _ => []
  end.

Definition toy_decipher (key : text) (iv bs : list Byte.byte) : option text :=
  Some (toy_decipher_bytes bs).

End Codec.

(** ** Aggregation: the [$group] stage of [aggregate] *)

Module Aggregate.

(** The arithmetic of [aggregate], which is that of the platform: the sum
    of two primitives that are no text ([a + b] on doubles, [null] and the
    booleans counting as numbers), the division that finalizes an average
    ([a / b], the numerator possibly [undefined]), [Math.min], [Math.max]
    and the two infinities.  What is known of the sum: it is a number, and
    it is exact as long as nothing leaves the integers up to 2^53. *)
Record Numeric := {
  plus : value -> value -> value;
  divide : option value -> value -> value;
  math_min : value -> value -> value;
  math_max : value -> value -> value;
  infinity : value;
  neg_infinity : value;
  plus_number : forall p q, is_object (plus p q) = false;
  plus_exact :
    forall x y,
      Z.abs x <= 2 ^ 53 -> Z.abs y <= 2 ^ 53 -> Z.abs (x + y) <= 2 ^ 53 ->
      plus (VNum x) (VNum y) = VNum (x + y)
}.

(** [a + b]: text as soon as one side is text (or an object, which becomes
    its text), the sum of the platform otherwise. *)
Definition js_add (N : Numeric) (a b : value) : value :=
  match to_primitive a, to_primitive b with
  | VStr s, q => VStr (s +:+ to_string q)
  | p, VStr t => VStr (to_string p +:+ t)
  | p, q => plus N p q
  end.

(** [v || other] *)
Definition or_else (v : option value) (other : value) : value :=
  match v with
  | Some x => if truthy v then x else other
  | None => other
  end.

(** [typeof v === 'string' && v.startsWith('$')], and then
    [v.substring(1)]. *)
Definition field_reference (v : option value) : option string :=
  match v with
  | Some (VStr (String "$"%char name)) => Some name
  | _ => None
  end.

(** A property of a value that may be no object. *)
Definition prop (v : option value) (k : string) : option value :=
  match v with
  | Some (VObj o) => get o k
  | _ => None
  end.

(** The [$group] object of a stage: its [_id] and, under every other key,
    an accumulator object. *)
Record GroupStage := {
  _id : option value;
  accumulators : list (string * doc)
}.

Section Group.

Variable N : Numeric.
Variable stage : GroupStage.

(** [groupKey]: the value of the field [_id] names, or ['_all']. *)
Definition group_key (d : doc) : option value :=
  match field_reference (_id stage) with
  | Some fieldName => get d fieldName
  | None => Some (VStr "_all")
  end.

(** [String(groupKey)] *)
Definition group_key_str (d : doc) : string := to_key (group_key d).

(** The value an accumulator starts from, if it is of a known kind. *)
Definition initial (accumulator : doc) : option value :=
  if truthy (get accumulator "$sum") then Some (VNum 0)
  else if truthy (get accumulator "$avg") then
    Some (VObj [("sum", VNum 0); ("count", VNum 0)])
  else if truthy (get accumulator "$min") then Some (infinity N)
  else if truthy (get accumulator "$max") then Some (neg_infinity N)
  else if truthy (get accumulator "$push") then Some (VArr [])
  else None.

(** The group created for a new key: [{ _id: groupKey }] and the initial
    values.  An [undefined] key leaves [_id] without a value. *)
Definition new_group (groupKey : option value) : doc :=
  fold_left
    (fun g fa =>
       if String.eqb (fst fa) "_id" then g
       else match initial (snd fa) with
            | Some v => set g (fst fa) v
            | None => g
            end)
    (accumulators stage)
    (match groupKey with
     | Some v => [("_id", v)]
     | None => []
     end).

(** One accumulator takes one document in.  An absent value is pushed as
    [null], which is how an array of JSON holds it. *)
Definition accumulate (d : doc) (field : string) (accumulator : doc) (g : doc) : doc :=
  if truthy (get accumulator "$sum") then
    match get accumulator "$sum", get g field with
    | Some (VNum 1), Some cur => set g field (js_add N cur (VNum 1))
    | valueField, Some cur =>
        match field_reference valueField with
        | Some fieldName => set g field (js_add N cur (or_else (get d fieldName) (VNum 0)))
        | None => g
        end
    | _, None => g
    end
  else if truthy (get accumulator "$avg") then
    match field_reference (get accumulator "$avg"), get g field with
    | Some fieldName, Some (VObj state) =>
        let sum := default VNull (get state "sum") in
        let count := default VNull (get state "count") in
        let state := set state "sum" (js_add N sum (or_else (get d fieldName) (VNum 0))) in
        let state := set state "count" (js_add N count (VNum 1)) in
        set g field (VObj state)
    | _, _ => g
    end
  else if truthy (get accumulator "$min") then
    match field_reference (get accumulator "$min"), get g field with
    | Some fieldName, Some cur =>
        set g field (math_min N cur (or_else (get d fieldName) (infinity N)))
    | _, _ => g
    end
  else if truthy (get accumulator "$max") then
    match field_reference (get accumulator "$max"), get g field with
    | Some fieldName, Some cur =>
        set g field (math_max N cur (or_else (get d fieldName) (neg_infinity N)))
    | _, _ => g
    end
  else if truthy (get accumulator "$push") then
    match field_reference (get accumulator "$push"), get g field with
    | Some fieldName, Some (VArr items) =>
        set g field (VArr (items ++ [default VNull (get d fieldName)]))
    | _, _ => g
    end
  else g.

(** The body of [result.forEach]: the group of the document is created if
    it is not there, and every accumulator takes the document in.  [groups]
    is the object of the groups, a group under the text of its key.  A key
    that names a member of [Object.prototype] finds that member in the
    place of a group: no group is made, the accumulators work on the member
    (an average or a push throws there), and the document leaves no group
    in the result. *)
Definition add_document (groups : doc) (d : doc) : doc :=
  let groupKeyStr := group_key_str d in
  if inherited groupKeyStr then groups
  else
    let g :=
      match get groups groupKeyStr with
      | Some (VObj g) => g
      | _ => new_group (group_key d)
      end in
    let g :=
      fold_left
        (fun g fa =>
           if String.eqb (fst fa) "_id" then g
           else accumulate d (fst fa) (snd fa) g)
        (accumulators stage) g in
    set groups groupKeyStr (VObj g).

(** The groups once every document is folded in. *)
Definition fold_documents (docs : list doc) : doc := fold_left add_document docs [].

(** [sum / (count || 1)] on the state of an average. *)
Definition average (state : option value) : value :=
  divide N (prop state "sum") (or_else (prop state "count") (VNum 1)).

(** The [map] that finalizes a group: every field whose accumulator has an
    [$avg] becomes the quotient. *)
Definition finalize (g : doc) : doc :=
  fold_left
    (fun g fa =>
       if String.eqb (fst fa) "_id" then g
       else if truthy (get (snd fa) "$avg") then set g (fst fa) (average (get g (fst fa)))
       else g)
    (accumulators stage) g.

(** The number a key is as an array index: the decimal text of an integer
    from 0 to 2^32 - 2, without sign or leading zero. *)
Definition array_index (k : string) : option Z :=
  match digits_value k 0 with
  | Some z =>
      if String.eqb (pretty z) k && (z <? 4294967295) && negb (String.eqb k "")
      then Some z else None
  | None => None
  end.

Fixpoint insert_by_index {A} (z : Z) (x : A) (l : list (Z * A)) : list (Z * A) :=
  match l with
  | [] => [(z, x)]
  | (z', x') :: rest =>
      if z <? z' then (z, x) :: l else (z', x') :: insert_by_index z x rest
  end.

(** The order in which JavaScript lists the properties of an object: the
    array indices in ascending order, then the other keys in the order of
    their creation. *)
Definition js_order {A} (o : list (string * A)) : list (string * A) :=
  let indexed :=
    fold_left
      (fun acc kv =>
         match array_index (fst kv) with
         | Some z => insert_by_index z kv acc
         | None => acc
         end) o [] in
  let others :=
    List.filter (fun kv => match array_index (fst kv) with Some _ => false | None => true end) o in
  (snd <$> indexed) ++ others.

(** The groups with their keys, finalized, in the order of [Object.values]. *)
Definition grouped (docs : list doc) : list (string * doc) :=
  (fun kg => (fst kg, finalize (match snd kg with VObj g => g | _ => [] end)))
    <$> js_order (fold_documents docs).

(** The result of the stage: [Object.values(groups).map(...)]. *)
Definition group_stage (docs : list doc) : list doc := snd <$> grouped docs.

(** The documents of the group of a key, the sum and the count an average
    over the field [fieldName] has for them. *)
Definition members (k : string) (docs : list doc) : list doc :=
  List.filter (fun d => String.eqb (group_key_str d) k) docs.

Definition running_sum (fieldName : string) (docs : list doc) : value :=
  fold_left (fun sum d => js_add N sum (or_else (get d fieldName) (VNum 0))) docs (VNum 0).

Definition running_count (docs : list doc) : value :=
  fold_left (fun count _ => js_add N count (VNum 1)) docs (VNum 0).




(** A field reference that names no member of [Object.prototype]: the
    read [doc[name]] is then that of an own property. *)
Definition plain_reference (v : option value) : Prop :=
  forall name, field_reference v = Some name -> inherited name = false.

(** No document has a group key whose text names a member of
    [Object.prototype]: for such a key the code finds the member where it
    looks for the group. *)
Definition plain_keys (docs : list doc) : Prop :=
  Forall (fun d => inherited (group_key_str d) = false) docs.

End Group.

(** A platform to run the stage with: sums rounded as doubles, quotients
    that are integers. *)
Definition exact : Numeric.
Proof.
  refine
    {| plus := fun a b =>
         VNum (to_double (default 0 (to_number (Some a)) + default 0 (to_number (Some b))));
       divide := fun a b =>
         match a, b with
         | Some (VNum x), VNum y => VNum (x / y)
         | _, _ => VNull
         end;
       math_min := fun a b => if js_lt (Some b) (Some a) then b else a;
       math_max := fun a b => if js_gt (Some b) (Some a) then b else a;
       infinity := VStr "Infinity";
       neg_infinity := VStr "-Infinity";
       plus_number := fun _ _ => eq_refl;
       plus_exact := _ |}.
  intros x y _ _ Hsum. change (VNum (to_double (x + y)) = VNum (x + y)).
  unfold to_double. cbv zeta.
  destruct (Z.leb_spec (Z.abs (x + y)) (2 ^ 53)) as [_|Hgt]; [reflexivity|].
  exfalso. apply (Z.lt_irrefl (2 ^ 53)). eapply Z.lt_le_trans; [exact Hgt|exact Hsum].
Defined.

Definition sales : list doc :=
  [ [("rep", VStr "ana"); ("amount", VNum 10)];
    [("rep", VStr "ben"); ("amount", VNum 4)];
    [("rep", VStr "ana"); ("amount", VNum 20)];
    [("rep", VNum 7)] ].


End Aggregate.

(** ** More of the store: counting, import, restore, reset *)

Module StoreMore.
Import Store.

(** [getAllColumns(tableName, columnName)]: an element is [None] where the
    row has no such column. *)
Definition getAllColumns (tableName columnName : string) (s : Store)
    : list (option value) :=
  match data s !! tableName with
  | None => []
  | Some rows => (fun row => get row columnName) <$> rows
  end.

(** [count(tableName, query)] *)
Definition count (tableName : string) (query : option doc) (s : Store) : nat :=
  match data s !! tableName with
  | None => 0%nat
  | Some rows =>
      match query with
      | None => length rows
      | Some _ => length (find tableName query s)
      end
  end.

(** The [forEach] of the merge: a document whose primary key is in no
    document of the table is appended; one whose key is there replaces the
    first such document when [overwrite] is set, and is dropped otherwise. *)
Definition merge_document (primaryKey : string) (overwrite : bool)
    (rows : list doc) (d : doc) : list doc :=
  match list_find (fun item => strict_eq (get item primaryKey) (get d primaryKey) = true) rows with
  | None => rows ++ [d]
  | Some (existingIndex, _) =>
      if overwrite then <[existingIndex := d]> rows else rows
  end.

(** The merge of one table of the imported data. *)
Definition merge_table (overwrite : bool) (s : Store) (tableName : string)
    (incoming : list doc) : Store :=
  let rows := default [] (data s !! tableName) in
  let primaryKey := primaryKey_of s tableName in
  with_data s (<[tableName := fold_left (merge_document primaryKey overwrite) incoming rows]>
                 (data s)).

(** [importFromJson(filePath, { mode, overwrite })].  [importData] is what
    [JSON.parse] makes of the file, [None] when the file cannot be read or
    parsed: the failure is caught and the answer is [false]. *)
Definition importFromJson (importData : option (gmap string (list doc)))
    (replace overwrite : bool) : M bool :=
  fun s =>
    match importData with
    | None => (Return false, s)
    | Some imported =>
        let s :=
          if replace then with_data s imported
          else
            fold_left (fun s ti => merge_table overwrite s (fst ti) (snd ti))
                      (map_to_list imported) s in
        let s := _initializeUniqueKeyMaps s in
        let s := _initializeIndexes s in
        (Return true, saveDatabase s)
    end.

(** [restore(backupFile)].  [backup] is the database the backup file holds,
    [None] when there is no such file.  The safety copy [this.backup()]
    needs the database file to be there; every failure is caught and the
    answer is [false].  The file is overwritten by a copy, and
    [loadDatabase] reads it back. *)
Definition restore (backup : option (gmap string (list doc))) : M bool :=
  fun s =>
    match backup, file s with
    | Some db, Some _ =>
        let s := {| tables := tables s; data := data s;
                    primaryKeyMap := primaryKeyMap s; uniqueKeyMap := uniqueKeyMap s;
                    indexes := indexes s; file := Some db; writes := writes s |} in
        (Return true, _initializeUniqueKeyMaps (with_data s db))
    | _, _ => (Return false, s)
    end.

(** [reset()]; the copy of [this.backup()] fails when there is no file, and
    the answer is then [false]. *)
Definition reset : M bool :=
  fun s =>
    match file s with
    | None => (Return false, s)
    | Some _ =>
        (Return true,
         saveDatabase {| tables := tables s; data := ∅; primaryKeyMap := ∅;
                         uniqueKeyMap := ∅; indexes := ∅;
                         file := file s; writes := writes s |})
    end.

End StoreMore.

(** ** Invariants of the store *)

Module Invariants.
Import Store InsertSteps.

(** Two states that differ in the uniqueness registry only. *)
Definition same_but_registry (s s' : Store) : Prop :=
  tables s' = tables s /\ data s' = data s /\ primaryKeyMap s' = primaryKeyMap s /\
  indexes s' = indexes s /\ file s' = file s /\ writes s' = writes s.

(** The registry covers the table: every scalar value a document has on a
    unique field is a member of the set of that field. *)
Definition registry_covers (s : Store) : Prop :=
  forall tableName cfg f rows d v,
    tables s !! tableName = Some cfg -> f ∈ unique_of cfg ->
    data s !! tableName = Some rows -> d ∈ rows ->
    get d f = Some v -> is_scalar v = true ->
    exists sets members,
      uniqueKeyMap s !! tableName = Some sets /\ sets !! f = Some members /\
      set_has members v = true.

(** No two documents of a table share a scalar value on a unique field. *)
Definition unique_distinct (s : Store) : Prop :=
  forall tableName cfg f rows i j di dj v,
    tables s !! tableName = Some cfg -> f ∈ unique_of cfg ->
    data s !! tableName = Some rows ->
    rows !! i = Some di -> rows !! j = Some dj ->
    get di f = Some v -> get dj f = Some v -> is_scalar v = true ->
    i = j.

(** The position [i] is the last one of [rows] whose document has, on the
    field, a value of key [k]. *)
Definition last_with_key (field : string) (rows : list doc) (k : string) (i : nat) : Prop :=
  (exists d v, rows !! i = Some d /\ get d field = Some v /\ to_string v = k) /\
  (forall j d v, (i < j)%nat -> rows !! j = Some d -> get d field = Some v ->
                 to_string v <> k).

(** Two states that differ in the indexes and the allocator only. *)
Definition same_but_derived (s s' : Store) : Prop :=
  tables s' = tables s /\ data s' = data s /\ uniqueKeyMap s' = uniqueKeyMap s /\
  file s' = file s /\ writes s' = writes s.

(** One round of the loop of [_initializeIndexes]. *)
Definition index_step (s : Store) (tableName : string) : Store :=
  let s :=
    match indexes s !! tableName with
    | Some _ => s
    | None => with_indexes s (<[tableName := ∅]> (indexes s))
    end in
  match tables s !! tableName with
  | None => s
  | Some tableConfig =>
      let pk := pk_or_id (primaryKey tableConfig) in
      let s := _createIndex tableName pk s in
      let s := fold_left (fun s field => _createIndex tableName field s)
                         (unique_of tableConfig) s in
      _calculateNextPrimaryKey tableName pk s
  end.

(** The counter a table gets at start-up. *)
Definition start_counter (pk : string) (rows : list doc) : Z :=
  match rows with
  | [] => 1
  | _ => to_double (max_key pk rows + 1)
  end.

(** No index is on a field whose name is that of a member of
    [Object.prototype]. *)
Definition plain_indexes (s : Store) : Prop :=
  forall tableName tidx field,
    indexes s !! tableName = Some tidx -> is_Some (tidx !! field) ->
    inherited field = false.

(** The operators that compare by order. *)
Definition ordering_key (op : string) : Prop :=
  op = "$gt" \/ op = "$gte" \/ op = "$lt" \/ op = "$lte".

End Invariants.

(** ** The other accumulators of [$group] *)

Module Accumulators.
Import Aggregate.

(** What a [$sum] holds after the documents [ms] of its group: their
    number when it counts ([$sum: 1]), the running sum of the field when it
    names one, and 0 when it does neither. *)
Definition sum_state (N : Numeric) (accumulator : doc) (ms : list doc) : value :=
  match get accumulator "$sum" with
  | Some (VNum 1) => running_count N ms
  | valueField =>
      match field_reference valueField with
      | Some fieldName => running_sum N fieldName ms
      | None => VNum 0
      end
  end.

(** The document has a number on the field, or nothing. *)
Definition numeric_field (fieldName : string) (d : doc) : Prop :=
  match get d fieldName with
  | None | Some (VNum _) => True
  | Some _ => False
  end.

Definition amount (fieldName : string) (d : doc) : Z :=
  match get d fieldName with
  | Some (VNum z) => z
  | _ => 0
  end.

(** The sum of the field over the documents, and the sum of the absolute
    values, which bounds every partial sum. *)
Definition total (fieldName : string) (ms : list doc) : Z :=
  foldr (fun d z => amount fieldName d + z) 0 ms.

Definition magnitude (fieldName : string) (ms : list doc) : Z :=
  foldr (fun d z => Z.abs (amount fieldName d) + z) 0 ms.

(** What a [$push] holds after the documents [ms] of its group. *)
Definition push_state (accumulator : doc) (ms : list doc) : value :=
  match field_reference (get accumulator "$push") with
  | Some fieldName => VArr ((fun d => default VNull (get d fieldName)) <$> ms)
  | None => VArr []
  end.

(** A stage that counts, collects, and mixes [$sum] with [$avg]. *)
Definition tally : GroupStage :=
  {| _id := Some (VStr "$rep");
     accumulators := [("n", [("$sum", VNum 1)]);
                      ("total", [("$sum", VStr "$amount")]);
                      ("mixed", [("$sum", VStr "$amount"); ("$avg", VStr "$amount")]);
                      ("amounts", [("$push", VStr "$amount")])] |}.

(** The group the stage [tally] makes of the sales of [ana]. *)
Definition ana_tally : doc :=
  [("_id", VStr "ana"); ("n", VNum 2); ("total", VNum 30);
   ("mixed", VNull); ("amounts", VArr [VNum 10; VNum 20])].

End Accumulators.

(** ** The pipeline of [aggregate] *)

Module Pipeline.
Import Store Aggregate.

(** A stage object.  Every operator is optional and a stage may hold
    several; [$match], [$project], [$group] and [$sort] are objects (always
    truthy), [$limit] and [$skip] are numbers. *)
Record Stage := {
  _match : option doc;
  _project : option doc;
  _group : option GroupStage;
  _sort : option doc;
  _limit : option Z;
  _skip : option Z
}.

Definition no_stage : Stage :=
  {| _match := None; _project := None; _group := None;
     _sort := None; _limit := None; _skip := None |}.

(** The [map] of [$project]: the fields flagged with the number 1, in the
    order of the projection.  A field the document does not have is set to
    [undefined], which reads as a missing one and is left out here. *)
Definition project (projection : doc) (d : doc) : doc :=
  fold_left
    (fun projected fv =>
       if strict_eq (Some (snd fv)) (Some (VNum 1)) then
         match get d (fst fv) with
         | Some v => set projected (fst fv) v
         | None => projected
         end
       else projected)
    (js_order projection) [].

(** The comparator of [$sort]: the first field on which the documents
    differ decides, by its direction; a direction that is no number counts
    as 0, as a NaN does for [sort]. *)
Definition sort_compare (sortSpec : doc) (a b : doc) : Z :=
  (fix go (fields : doc) : Z :=
     match fields with
     | [] => 0
     | (field, dir) :: rest =>
         if js_lt (get a field) (get b field) then
           default 0 (to_number (Some dir)) * -1
         else if js_gt (get a field) (get b field) then
           default 0 (to_number (Some dir))
         else go rest
     end) (js_order sortSpec).

(** [result.slice(0, n)] *)
Definition slice_to (n : Z) (result : list doc) : list doc :=
  if n <? 0 then take (Z.to_nat (Z.of_nat (length result) + n)) result
  else take (Z.to_nat n) result.

(** [result.slice(k)] *)
Definition slice_from (k : Z) (result : list doc) : list doc :=
  if k <? 0 then drop (Z.to_nat (Z.of_nat (length result) + k)) result
  else drop (Z.to_nat k) result.

Section Aggregate.

Variable N : Numeric.

(** [Array.prototype.sort] of the platform, under a comparator. *)
Variable array_sort : (doc -> doc -> Z) -> list doc -> list doc.

(** One round of the loop over the pipeline: the operators of the stage
    in the order of the code, whatever their order in the stage. *)
Definition run_stage (result : list doc) (stage : Stage) : list doc :=
  let result :=
    match _match stage with
    | Some query => List.filter (fun d => Query._matchesQuery d query) result
    | None => result
    end in
  let result :=
    match _project stage with
    | Some projection => project projection <$> result
    | None => result
    end in
  let result :=
    match _group stage with
    | Some g => group_stage N g result
    | None => result
    end in
  let result :=
    match _sort stage with
    | Some sortSpec => array_sort (sort_compare sortSpec) result
    | None => result
    end in
  let result :=
    match _limit stage with
    | Some n => if n =? 0 then result else slice_to n result
    | None => result
    end in
  match _skip stage with
  | Some k => if k =? 0 then result else slice_from k result
  | None => result
  end.


End Aggregate.



(** A sort that keeps the elements as they are: the order a comparator
    that always answers 0 gives. *)
Definition keep_order (cmp : doc -> doc -> Z) (l : list doc) : list doc := l.

End Pipeline.

(** ** A session: a sequence of calls on one instance *)

Module Session.
Import Store Scenarios StoreMore.

(** [loadDatabase()]: with no file an empty database is written; else the
    documents are those of the file and the registry is rebuilt. *)
Definition loadDatabase (s : Store) : Store :=
  match file s with
  | None =>
      {| tables := tables s; data := ∅; primaryKeyMap := primaryKeyMap s;
         uniqueKeyMap := uniqueKeyMap s; indexes := indexes s;
         file := Some ∅; writes := S (writes s) |}
  | Some db => _initializeUniqueKeyMaps (with_data s db)
  end.

(** One call on the instance.  The reading methods change nothing and are
    left out.  A transaction is the calls its function makes, followed by
    [Save] when the function returns and by [Rollback] to the snapshot
    when it throws.  [dropTable], [reset] and [importFromJson] are not
    among the calls: each of them forgets or recomputes a counter. *)
Inductive op :=
| Insert (now tableName : string) (d : doc)
| Update (now tableName : string) (id : value) (newData : doc)
| Delete (tableName : string) (id : value)
| CreateTable (tableName : string) (sch : option (list (string * FieldSchema)))
| CreateIndex (tableName field : string)
| DropIndex (tableName field : string)
| NextKey (tableName : string)
| Restore (backup : option (gmap string (list doc)))
| Load
| Save
| Rollback (snapshot : gmap string (list doc)).

(** The instance after the call, whether it returned or threw. *)
Definition apply (env : Env) (o : op) (s : Store) : Store :=
  match o with
  | Insert now tableName d => state_after (insert env now tableName d) s
  | Update now tableName id newData => state_after (update env now tableName id newData) s
  | Delete tableName id => state_after (delete tableName id) s
  | CreateTable tableName sch => state_after (createTable tableName sch) s
  | CreateIndex tableName field => state_after (createIndex tableName field) s
  | DropIndex tableName field => state_after (dropIndex tableName field) s
  | NextKey tableName => state_after (getNextPrimaryKey tableName) s
  | Restore backup => state_after (restore backup) s
  | Load => loadDatabase s
  | Save => saveDatabase s
  | Rollback snapshot => with_data s snapshot
  end.

(** The primary key the call has assigned: the call is an insert of a
    document without a primary key, it returned, and the document it
    returned carries the number. *)
Definition assigned (env : Env) (o : op) (s : Store) : option (string * Z) :=
  match o with
  | Insert now tableName d =>
      match get d (primaryKey_of s tableName) with
      | Some _ => None
      | None =>
          match insert env now tableName d s with
          | (Return newDoc, _) =>
              match get newDoc (primaryKey_of s tableName) with
              | Some (VNum k) => Some (tableName, k)
              | _ => None
              end
          | (Throw _, _) => None
          end
      end
  | _ => None
  end.

(** The keys assigned in a table along a sequence of calls, in order. *)
Fixpoint assigned_keys (env : Env) (tableName : string) (ops : list op) (s : Store)
    : list Z :=
  match ops with
  | [] => []
  | o :: rest =>
      let later := assigned_keys env tableName rest (apply env o s) in
      match assigned env o s with
      | Some (t, k) => if String.eqb t tableName then k :: later else later
      | None => later
      end
  end.

(** The keys are safe integers: below 2^53 in absolute value. *)
Definition safe_keys (keys : list Z) : Prop :=
  Forall (fun k => Z.abs k < 2 ^ 53) keys.

(** Two inserts, the deletion of the second document, and the program
    started again on the file. *)
Definition ben : doc := [("email", VStr "ben@example.org")].
Definition cleo : doc := [("email", VStr "cleo@example.org")].

Definition users_two : Store := state_after (insert env0 "day2" "u" ben) users_one.
Definition users_reopened : Store :=
  reload (state_after (delete "u" (VNum 2)) users_two).

(** ... or the table dropped, the database reset, or a file imported after
    the deletion. *)
Definition users_dropped : Store := state_after (dropTable "u") users_two.
Definition users_reset : Store := state_after reset users_two.
Definition users_imported : Store :=
  state_after (importFromJson (Some ∅) false false)
              (state_after (delete "u" (VNum 2)) users_two).

(** A file that holds a user whose key is 2^53. *)
Definition users_at_limit : Store :=
  open users_config
       (Some {[ "u" := [ [("email", VStr "ana@example.org"); ("id", VNum (2 ^ 53))] ] ]}) 0.

End Session.

(** ** The query predicate *)

Module QueryProps.
Import Query QuerySpec.

Lemma lit_not_object l : is_object (lit_value l) = false.
Proof. by destruct l. Qed.

Lemma _matchesOperators_cons_supported o operand v rest :
  _matchesOperators v ((op_key o, operand) :: rest) = true <->
  operator_holds o v operand /\ _matchesOperators v rest = true.
Proof.
  destruct o; cbn -[js_gt js_ge js_lt js_le strict_eq includes].
  1-4: match goal with |- context [negb ?b] => destruct b end; cbn; intuition congruence.
  - destruct (strict_eq v (Some operand)); intuition congruence.
  - destruct operand; try (split; [intros ?; discriminate | intros [[arr [? _]] _]; discriminate]).
    destruct (includes items v) eqn:E; cbn; split.
    + intros H; split; [eauto | done].
    + tauto.
    + intros ?; discriminate.
    + intros [[arr [[= <-] ?]] _]; congruence.
  - destruct operand; try (split; [intros ?; discriminate | intros [[arr [? _]] _]; discriminate]).
    destruct (includes items v) eqn:E; cbn; split.
    + intros ?; discriminate.
    + intros [[arr [[= <-] ?]] _]; congruence.
    + intros H; split; [eauto | done].
    + tauto.
Qed.

Lemma _matchesOperators_supported v ops :
  _matchesOperators v ((fun ov => (op_key (fst ov), snd ov)) <$> ops) = true <->
  Forall (fun ov => operator_holds (fst ov) v (snd ov)) ops.
Proof.
  induction ops as [|[o operand] ops IH].
  - split; [constructor | reflexivity].
  - rewrite fmap_cons, Forall_cons, <- IH.
    apply _matchesOperators_cons_supported.
Qed.

(** C7.  A document matches a query, each of whose fields carries a
    literal or an operator object over the seven supported operators, if
    and only if every field constraint holds: the constraints of the fields
    are combined conjunctively, and so are the operators given for one
    field. *)
Theorem matchesQuery_iff_every_constraint (d : doc) (q : list (string * constraint)) :
  _matchesQuery d (query_object q) = true <-> matches d q.
Proof.
  unfold matches, query_object.
  induction q as [|[field c] q IH].
  - split; [constructor | reflexivity].
  - rewrite fmap_cons, Forall_cons, <- IH. cbn [_matchesQuery fst snd].
    destruct c as [l|ops]; cbn [constraint_value constraint_holds].
    + rewrite lit_not_object.
      destruct (strict_eq (get d field) (Some (lit_value l))); cbn; intuition congruence.
    + cbn [is_object entries]. rewrite <- _matchesOperators_supported.
      destruct (_matchesOperators (get d field) _); cbn; intuition congruence.
Qed.

Lemma _matchesOperators_unsupported_cons v op operand rest :
  op ∉ supported_keys ->
  _matchesOperators v ((op, operand) :: rest) = _matchesOperators v rest.
Proof.
  intros Hop. cbn [_matchesOperators].
  repeat match goal with
  | |- context [String.eqb op ?k] =>
      destruct (String.eqb_spec op k) as [->|_];
      [exfalso; apply Hop; unfold supported_keys; cbn; set_solver |]
  end.
  reflexivity.
Qed.

(** C10.  An operator object that holds only keys outside the supported
    set is satisfied by every value: each unrecognised key is passed over,
    so the constraint holds for every document. *)
Theorem unsupported_operators_hold_vacuously (ops : doc) :
  Forall (fun kv => fst kv ∉ supported_keys) ops ->
  (forall v, _matchesOperators v ops = true) /\
  (forall d field, _matchesQuery d [(field, VObj ops)] = true).
Proof.
  intros Hops.
  assert (Hall : forall v, _matchesOperators v ops = true).
  { intros v. induction Hops as [|[op operand] rest Hop _ IH]; [reflexivity|].
    rewrite _matchesOperators_unsupported_cons; assumption. }
  split; [exact Hall|].
  intros d field. cbn. rewrite Hall. reflexivity.
Qed.

Lemma unsupported_operators_witness :
  (forall v, _matchesOperators v [("$regex", VStr "^a")] = true) /\
  (forall d field, _matchesQuery d [(field, VObj [("$regex", VStr "^a")])] = true).
Proof.
  apply (unsupported_operators_hold_vacuously [("$regex", VStr "^a")]).
  repeat constructor. unfold supported_keys. cbn.
  rewrite !elem_of_cons, elem_of_nil. intros H.
  repeat (destruct H as [H|H]; [discriminate H|]). destruct H.
Defined.

End QueryProps.

(** ** Indexes after a deletion, and [find] through an index *)

Module IndexProps.
Import Store Scenarios.

(** A closed equation between two runs of the code, by evaluation.  The
    conjunctions are taken apart by hand: [split] on an equation would try
    to convert its sides without the virtual machine. *)
Ltac evaluate := vm_compute; reflexivity.

(** After [createTable] and two inserts every index entry points to the
    position of its document. *)
Lemma two_rows_consistent : index_consistent two_rows.
Proof.
  intros tableName rows tidx field idx i d v Hrows Htidx Hidx Hi Hv.
  assert (Hdata : data two_rows =
    {[ "t" := [ [("n", VStr "a"); ("id", VNum 1);
                 ("_createdAt", VStr "day1"); ("_updatedAt", VStr "day1")];
                [("n", VStr "b"); ("id", VNum 2);
                 ("_createdAt", VStr "day2"); ("_updatedAt", VStr "day2")] ] ]})
    by evaluate.
  assert (Hindexes : indexes two_rows =
    {[ "t" := {[ "id" := {[ "1" := 0%nat; "2" := 1%nat ]} ]} ]})
    by evaluate.
  rewrite Hdata in Hrows. rewrite Hindexes in Htidx.
  apply lookup_singleton_Some in Hrows as [<- <-].
  rewrite lookup_singleton_eq in Htidx. injection Htidx as <-.
  apply lookup_singleton_Some in Hidx as [<- <-].
  clear Hdata Hindexes.
  destruct i as [|[|[|i]]]; simpl in Hi; try discriminate Hi;
    injection Hi as <-; simpl in Hv; injection Hv as <-; evaluate.
Qed.

(** C1 at its failing input.  [delete('t', 1)] removes the entry of the
    deleted document and nothing else: the document with key 2 has moved to
    position 0 and its index entry still says 1, so the index invariant is
    lost and [findById('t', 2)] comes back with an empty object. *)
Theorem delete_leaves_stale_positions :
  index_consistent two_rows /\
  ~ index_consistent first_deleted /\
  (exists d, data first_deleted !! "t" = Some [d] /\ get d "id" = Some (VNum 2)) /\
  ((indexes first_deleted !! "t") ≫= (.!! "id")) ≫= (.!! "2") = Some 1%nat /\
  findById "t" (VNum 2) first_deleted = Some [] /\
  find "t" (Some [("id", VNum 2)]) first_deleted = [None].
Proof.
  split; [exact two_rows_consistent|].
  split; [|split; [|split; [evaluate|split; evaluate]]].
  - intros H.
    pose (rows := default [] (data first_deleted !! "t")).
    pose (tidx := default ∅ (indexes first_deleted !! "t")).
    pose (idx := default ∅ (tidx !! "id")).
    pose (d := default [] (rows !! 0%nat)).
    assert (X : idx !! to_string (VNum 2) = Some 0%nat)
      by (apply (H "t" rows tidx "id" idx 0%nat d (VNum 2)); evaluate).
    vm_compute in X. discriminate X.
  - eexists. split; evaluate.
Qed.

(** C6 at its failing input.  A query with one field is answered from the
    index of that field whatever its value is: for the operator object
    [{ $gt: 0 }] the index is asked for the key ["[object Object]"], finds
    nothing, and [find] returns no document, while both documents of the
    table satisfy the predicate. *)
Theorem find_operator_query_on_indexed_field :
  let query := [("id", VObj [("$gt", VNum 0)])] in
  find "t" (Some query) two_rows = [] /\
  length (full_scan "t" query two_rows) = 2%nat /\
  full_scan "t" query two_rows = Some <$> findAll "t" two_rows.
Proof. cbv zeta. split; [evaluate|split; evaluate]. Qed.

End IndexProps.

(** ** Inserting: uniqueness and primary keys *)

Module InsertProps.
Import Store InsertSteps Scenarios.

Ltac evaluate := vm_compute; reflexivity.

(** *** Writing and reading a dictionary object *)

Lemma lookup_assign_eq {A} (o : gmap string A) k v :
  k <> "__proto__" -> assign o k v !! k = Some v.
Proof.
  intros Hk. unfold assign. destruct (String.eqb_spec k "__proto__"); [done|].
  apply lookup_insert_eq.
Qed.

Lemma lookup_assign_ne {A} (o : gmap string A) k k' v :
  k <> k' -> assign o k v !! k' = o !! k'.
Proof.
  intros Hk. unfold assign. destruct (String.eqb k "__proto__"); [reflexivity|].
  by apply lookup_insert_ne.
Qed.

Lemma lookup_assign_Some {A} (o : gmap string A) k v k' v' :
  assign o k v !! k' = Some v' ->
  (k' = k /\ v' = v /\ k <> "__proto__") \/ o !! k' = Some v'.
Proof.
  unfold assign. destruct (String.eqb_spec k "__proto__") as [->|Hk]; [by right|].
  destruct (decide (k = k')) as [->|Hne].
  - rewrite lookup_insert_eq. intros [= ->]. by left.
  - rewrite lookup_insert_ne by done. by right.
Qed.

(** A safe integer is a double. *)
Lemma to_double_safe z : Z.abs z <= 2 ^ 53 -> to_double z = z.
Proof.
  intros H. unfold to_double. cbv zeta.
  destruct (Z.leb_spec (Z.abs z) (2 ^ 53)) as [_|Hgt]; [reflexivity|].
  exfalso. apply (Z.lt_irrefl (2 ^ 53)). eapply Z.lt_le_trans; [exact Hgt|exact H].
Qed.

Lemma member_own {A} (o : gmap string A) k v :
  o !! k = Some v -> member o k = Some (Some v).
Proof. intros H. unfold member. by rewrite H. Qed.

Lemma member_plain {A} (o : gmap string A) k :
  inherited k = false -> member o k = Some <$> (o !! k).
Proof. intros H. unfold member. rewrite H. by destruct (o !! k). Qed.

Lemma get_set_eq (o : doc) k v : get (set o k v) k = Some v.
Proof.
  induction o as [|[k' v'] o IH]; cbn.
  - by rewrite String.eqb_refl.
  - destruct (String.eqb_spec k' k) as [->|Hne]; cbn.
    + by rewrite String.eqb_refl.
    + by destruct (String.eqb_spec k' k).
Qed.

Lemma get_set_ne (o : doc) k k' v : k ≠ k' -> get (set o k v) k' = get o k'.
Proof.
  intros Hne. induction o as [|[k0 v0] o IH]; cbn.
  - by destruct (String.eqb_spec k k').
  - destruct (String.eqb_spec k0 k) as [->|Hne0]; cbn.
    + by destruct (String.eqb_spec k k').
    + by rewrite IH.
Qed.

Lemma strict_eq_scalar_refl v : is_scalar v = true -> strict_eq (Some v) (Some v) = true.
Proof.
  destruct v; try discriminate; intros _; cbn.
  - by destruct b.
  - apply Z.eqb_refl.
  - apply String.eqb_refl.
Qed.

Lemma set_has_add members v : is_scalar v = true -> set_has (set_add members v) v = true.
Proof.
  intros Hv. unfold set_add. destruct (set_has members v) eqn:E; [done|].
  unfold set_has. rewrite existsb_app. cbn [existsb].
  unfold same_value_zero. rewrite strict_eq_scalar_refl by done.
  by rewrite orb_true_r.
Qed.

Lemma set_has_add_other members v w : set_has members v = true -> set_has (set_add members w) v = true.
Proof.
  intros H. unfold set_add. destruct (set_has members w); [done|].
  unfold set_has in *. rewrite existsb_app, H. done.
Qed.

Section Insert.
Variable env : Env.

Lemma insert_eq now tableName d s :
  insert env now tableName d s =
  let s0 := ensured tableName s in
  match _validateDataAgainstSchema env tableName d s0 with
  | Some e => (Throw e, s0)
  | None =>
      let (newDoc, s1) := keyed tableName d s0 in
      if _checkUniqueConstraints tableName newDoc s1
      then let (newDoc, s2) := stored now tableName newDoc s1 in (Return newDoc, s2)
      else (Throw UniqueViolation, s1)
  end.
Proof.
  unfold insert, bind, modify, gets, ret, throw, keyed, ensured, stored.
  cbv zeta.
  destruct (_validateDataAgainstSchema env tableName d _); [reflexivity|].
  destruct (get d _); cbv beta iota.
  - destruct (_checkUniqueConstraints tableName d _); reflexivity.
  - unfold getNextPrimaryKey. cbv zeta.
    destruct (_checkUniqueConstraints tableName _ _); reflexivity.
Qed.

Lemma ensured_existing tableName s rows :
  data s !! tableName = Some rows -> ensured tableName s = s.
Proof. intros H. unfold ensured. by rewrite H. Qed.

Lemma tables_ensured tableName s : tables (ensured tableName s) = tables s.
Proof. unfold ensured. by destruct (data s !! tableName). Qed.

Lemma uniqueKeyMap_ensured tableName s : uniqueKeyMap (ensured tableName s) = uniqueKeyMap s.
Proof. unfold ensured. by destruct (data s !! tableName). Qed.

Lemma data_ensured tableName s :
  data (ensured tableName s) !! tableName = Some (default [] (data s !! tableName)).
Proof.
  unfold ensured. destruct (data s !! tableName) eqn:E; cbn; [done|].
  by rewrite lookup_insert_eq.
Qed.

(** Drawing a key touches the allocator only. *)
Lemma keyed_frame tableName d s newDoc s1 :
  keyed tableName d s = (newDoc, s1) ->
  tables s1 = tables s /\ data s1 = data s /\ uniqueKeyMap s1 = uniqueKeyMap s /\
  indexes s1 = indexes s /\ file s1 = file s /\ writes s1 = writes s.
Proof.
  unfold keyed, getNextPrimaryKey, _calculateNextPrimaryKey. cbv zeta.
  destruct (get d _); intros [= <- <-]; [done|].
  destruct (primaryKeyMap s !! tableName) as [[| |]|]; cbn; try done;
    destruct (data s !! tableName) as [[|]|]; done.
Qed.

Lemma keyed_explicit tableName d s v :
  get d (primaryKey_of s tableName) = Some v -> keyed tableName d s = (d, s).
Proof. intros H. unfold keyed. cbv zeta. by rewrite H. Qed.

Lemma data_stored now tableName newDoc s :
  data (stored now tableName newDoc s).2 =
  <[tableName := (default [] (data s !! tableName) ++ [(stored now tableName newDoc s).1])%list]> (data s).
Proof.
  unfold stored, _updateUniqueKeyMap, _updateIndexes. cbv zeta. cbn [fst snd].
  cbn [tables with_indexes with_data].
  destruct (tables s !! tableName); reflexivity.
Qed.

Lemma stored_frame now tableName newDoc s :
  tables (stored now tableName newDoc s).2 = tables s /\
  primaryKeyMap (stored now tableName newDoc s).2 = primaryKeyMap s.
Proof.
  unfold stored, _updateUniqueKeyMap, _updateIndexes. cbv zeta. cbn [fst snd].
  cbn [tables with_indexes with_data].
  destruct (tables s !! tableName); done.
Qed.

(** The registry after [_updateUniqueKeyMap]: the set of every unique field
    holds the scalar value the document has on it. *)
Lemma register_fold_other (d : doc) (l : list string) (m : gmap string (list value)) f :
  f ∉ l ->
  fold_left
    (fun m uniqueKey =>
       let members := default [] (m !! uniqueKey) in
       <[uniqueKey :=
           match get d uniqueKey with
           | None | Some VNull => members
           | Some v => set_add members v
           end]> m) l m !! f = m !! f.
Proof.
  revert m. induction l as [|k l IH]; intros m Hf; [done|].
  apply not_elem_of_cons in Hf as [Hne Hf].
  cbn [fold_left]. rewrite IH by done.
  by apply lookup_insert_ne.
Qed.

Lemma register_fold (d : doc) (l : list string) (m : gmap string (list value)) f v :
  f ∈ l -> get d f = Some v -> is_scalar v = true ->
  exists members,
    fold_left
      (fun m uniqueKey =>
         let members := default [] (m !! uniqueKey) in
         <[uniqueKey :=
             match get d uniqueKey with
             | None | Some VNull => members
             | Some v => set_add members v
             end]> m) l m !! f = Some members /\
    set_has members v = true.
Proof.
  intros Hf Hget Hv. revert m Hf.
  induction l as [|k l IH]; intros m Hf; [by apply elem_of_nil in Hf|].
  cbn [fold_left].
  destruct (decide (f ∈ l)) as [Hin|Hnin]; [by apply IH|].
  apply elem_of_cons in Hf as [->|Hf]; [|done].
  rewrite register_fold_other by done.
  rewrite lookup_insert_eq, Hget.
  eexists; split; [|apply set_has_add, Hv].
  by destruct v.
Qed.

Lemma registry_after_update tableName d s cfg f v :
  tables s !! tableName = Some cfg ->
  f ∈ unique_of cfg -> get d f = Some v -> is_scalar v = true ->
  exists sets members,
    uniqueKeyMap (_updateUniqueKeyMap tableName d s) !! tableName = Some sets /\
    sets !! f = Some members /\ set_has members v = true.
Proof.
  intros Hcfg Hf Hget Hv. unfold _updateUniqueKeyMap. rewrite Hcfg.
  cbn [uniqueKeyMap with_uniqueKeyMap]. rewrite lookup_insert_eq.
  destruct (register_fold d (unique_of cfg) (default ∅ (uniqueKeyMap s !! tableName)) f v)
    as [members [H1 H2]]; eauto.
Qed.

(** [_checkUniqueConstraints] answers [false] as soon as one unique field of
    the document holds a registered value. *)
Lemma check_rejects tableName d s cfg f v sets members :
  tables s !! tableName = Some cfg ->
  f ∈ unique_of cfg -> get d f = Some v -> is_scalar v = true ->
  uniqueKeyMap s !! tableName = Some sets ->
  sets !! f = Some members -> set_has members v = true ->
  _checkUniqueConstraints tableName d s = false.
Proof.
  intros Hcfg Hf Hget Hv Hsets Hmem Hhas.
  unfold _checkUniqueConstraints. rewrite Hcfg, Hsets.
  induction (unique_of cfg) as [|k l IH]; [by apply elem_of_nil in Hf|].
  destruct (decide (k = f)) as [->|Hne].
  - rewrite Hget, Hmem, Hhas. by destruct v.
  - apply elem_of_cons in Hf as [->|Hf]; [done|].
    destruct (get d k) as [[]|]; try (by apply IH);
      destruct (sets !! k) as [ms|]; try (by apply IH);
      destruct (set_has ms _); auto.
Qed.

(** An insert that returns has written the file once, with the database
    it leaves. *)
Lemma insert_saves now tableName d s newDoc s' :
  insert env now tableName d s = (Return newDoc, s') ->
  writes s' = S (writes s) /\ file s' = Some (data s').
Proof.
  intros Hins. rewrite insert_eq in Hins. cbv zeta in Hins.
  destruct (_validateDataAgainstSchema env tableName d _); [discriminate Hins|].
  destruct (keyed tableName d (ensured tableName s)) as [nd sa] eqn:Ek.
  destruct (_checkUniqueConstraints tableName nd sa); [|discriminate Hins].
  destruct (keyed_frame _ _ _ _ _ Ek) as (_ & _ & _ & _ & _ & Hw).
  assert (Hwe : writes (ensured tableName s) = writes s).
  { unfold ensured. by destruct (data s !! tableName). }
  unfold stored in Hins. cbv zeta in Hins. injection Hins as _ <-.
  unfold _updateUniqueKeyMap, _updateIndexes.
  cbn [tables with_indexes with_data].
  destruct (tables sa !! tableName);
    cbn [writes file data saveDatabase with_uniqueKeyMap with_indexes with_data];
    (split; [congruence|reflexivity]).
Qed.

(** C9, as the code has it.  No check is made on the primary key: a
    document that brings the primary-key value of a document already in the
    table, passes the schema validation and the uniqueness check (the
    primary-key field being none of the two timestamp fields), is appended,
    and the table then holds two documents with that primary-key value. *)
Theorem insert_same_primary_key_appends now tableName d s rows existing v :
  data s !! tableName = Some rows ->
  existing ∈ rows ->
  get existing (primaryKey_of s tableName) = Some v ->
  get d (primaryKey_of s tableName) = Some v ->
  primaryKey_of s tableName ≠ "_createdAt" ->
  primaryKey_of s tableName ≠ "_updatedAt" ->
  _validateDataAgainstSchema env tableName d s = None ->
  _checkUniqueConstraints tableName d s = true ->
  exists newDoc s',
    insert env now tableName d s = (Return newDoc, s') /\
    data s' !! tableName = Some (rows ++ [newDoc])%list /\
    get newDoc (primaryKey_of s tableName) = Some v /\
    existing ∈ (rows ++ [newDoc])%list.
Proof.
  intros Hrows Hex Hexk Hd Hc Hu Hvalid Hcheck.
  rewrite insert_eq. cbv zeta.
  rewrite (ensured_existing _ _ _ Hrows), Hvalid, (keyed_explicit _ _ _ _ Hd), Hcheck.
  destruct (stored now tableName d s) as [newDoc s'] eqn:E.
  exists newDoc, s'. split; [reflexivity|].
  pose proof (data_stored now tableName d s) as Hdata. rewrite E in Hdata.
  cbn [fst snd] in Hdata. rewrite Hdata, lookup_insert_eq, Hrows. cbn [default].
  assert (newDoc = set (set d "_createdAt" (VStr now)) "_updatedAt" (VStr now)) as ->.
  { unfold stored in E. cbv zeta in E. by injection E as <- _. }
  repeat split.
  - rewrite !get_set_ne by done. exact Hd.
  - apply elem_of_app. by left.
Qed.

(** C3, as the code has it.  In a table with a unique-constrained field,
    once an insert has stored a document with a scalar value on that field,
    the insert of a second document carrying the same value (and passing the
    schema validation) fails with the uniqueness error.  The failed insert
    leaves the sequence, the registry, the indexes and the file as they
    were, the table holding the first document after the documents it had;
    the allocator is as it was when the rejected document brought its own
    primary key, and has given out one key otherwise: the counter is then
    one more than that key (as a double: the same number from 2^53 on). *)
Theorem second_insert_rejected now1 now2 tableName cfg f d1 d2 v doc1 s s1 :
  tables s !! tableName = Some cfg ->
  f ∈ unique_of cfg ->
  insert env now1 tableName d1 s = (Return doc1, s1) ->
  get doc1 f = Some v ->
  get d2 f = Some v ->
  is_scalar v = true ->
  _validateDataAgainstSchema env tableName d2 s1 = None ->
  exists s2,
    insert env now2 tableName d2 s1 = (Throw UniqueViolation, s2) /\
    data s2 = data s1 /\ uniqueKeyMap s2 = uniqueKeyMap s1 /\
    indexes s2 = indexes s1 /\ tables s2 = tables s1 /\
    file s2 = file s1 /\ writes s2 = writes s1 /\
    data s2 !! tableName = Some (default [] (data s !! tableName) ++ [doc1])%list /\
    (is_Some (get d2 (primaryKey_of s1 tableName)) -> s2 = s1) /\
    (get d2 (primaryKey_of s1 tableName) = None ->
     exists k, getNextPrimaryKey tableName s1 = (Return k, s2) /\
               primaryKeyMap s2 !! tableName = Some (to_double (k + 1)) /\
               (Z.abs (k + 1) <= 2 ^ 53 ->
                primaryKeyMap s2 !! tableName = Some (k + 1))).
Proof.
  intros Hcfg Hf Hins1 Hdoc1 Hd2 Hv Hvalid.
  (* the first insert *)
  rewrite insert_eq in Hins1. cbv zeta in Hins1.
  destruct (_validateDataAgainstSchema env tableName d1 _); [discriminate|].
  destruct (keyed tableName d1 (ensured tableName s)) as [nd sa] eqn:Ek.
  destruct (_checkUniqueConstraints tableName nd sa); [|discriminate].
  destruct (stored now1 tableName nd sa) as [nd' sb] eqn:Es.
  injection Hins1 as -> ->.
  destruct (keyed_frame _ _ _ _ _ Ek) as (Hta & Hda & Hua & _).
  rewrite tables_ensured in Hta.
  assert (Htab1 : tables s1 = tables s).
  { pose proof (stored_frame now1 tableName nd sa) as [H _]. rewrite Es in H.
    cbn in H. congruence. }
  assert (Hdata1 : data s1 !! tableName
                   = Some (default [] (data s !! tableName) ++ [doc1])%list).
  { pose proof (data_stored now1 tableName nd sa) as H. rewrite Es in H.
    cbn [fst snd] in H. rewrite H, lookup_insert_eq, Hda, data_ensured. done. }
  assert (Hreg : exists sets members,
             uniqueKeyMap s1 !! tableName = Some sets /\
             sets !! f = Some members /\ set_has members v = true).
  { unfold stored in Es. cbv zeta in Es. injection Es as Hnd <-.
    cbn [uniqueKeyMap saveDatabase]. rewrite Hnd.
    apply registry_after_update with (cfg := cfg); try done.
    cbn [tables _updateIndexes with_indexes with_data]. congruence. }
  destruct Hreg as (sets & members & Hsets & Hmem & Hhas).
  (* the second insert *)
  rewrite insert_eq. cbv zeta.
  rewrite (ensured_existing _ _ _ Hdata1), Hvalid.
  destruct (keyed tableName d2 s1) as [nd2 s2] eqn:Ek2.
  destruct (keyed_frame _ _ _ _ _ Ek2) as (Ht2 & Hd2' & Hu2 & Hi2 & Hf2 & Hw2).
  assert (Hnd2 : get nd2 f = Some v).
  { unfold keyed in Ek2. cbv zeta in Ek2.
    destruct (get d2 (primaryKey_of s1 tableName)) eqn:Epk.
    - by injection Ek2 as <- _.
    - unfold getNextPrimaryKey in Ek2. cbv zeta in Ek2. injection Ek2 as <- _.
      rewrite get_set_ne; [done|]. intros Heq. rewrite Heq in Epk. congruence. }
  rewrite (check_rejects tableName nd2 s2 cfg f v sets members); try congruence.
  exists s2. repeat split; try congruence.
  - intros [w Hw]. rewrite (keyed_explicit _ _ _ _ Hw) in Ek2. congruence.
  - intros Hnone. unfold keyed in Ek2. cbv zeta in Ek2. rewrite Hnone in Ek2.
    destruct (getNextPrimaryKey tableName s1) as [[k|e] s'] eqn:Eg.
    + injection Ek2 as _ <-. exists k. split; [done|].
      unfold getNextPrimaryKey in Eg. cbv zeta in Eg. injection Eg as <- <-.
      cbn [primaryKeyMap with_primaryKeyMap]. rewrite lookup_insert_eq.
      split; [reflexivity|]. intros Hsafe. by rewrite to_double_safe.
    + unfold getNextPrimaryKey in Eg. cbv zeta in Eg. discriminate.
Qed.

End Insert.

Lemma insert_same_primary_key_witness :
  exists newDoc s',
    insert env0 "day3" "t" [("id", VNum 1); ("n", VStr "c")] two_rows = (Return newDoc, s') /\
    data s' !! "t" = Some (findAll "t" two_rows ++ [newDoc])%list /\
    get newDoc "id" = Some (VNum 1).
Proof.
  destruct (insert_same_primary_key_appends env0 "day3" "t"
              [("id", VNum 1); ("n", VStr "c")] two_rows
              (findAll "t" two_rows)
              [("n", VStr "a"); ("id", VNum 1);
               ("_createdAt", VStr "day1"); ("_updatedAt", VStr "day1")]
              (VNum 1))
    as (newDoc & s' & Hins & Hdata & Hkey & _).
  - evaluate.
  - vm_compute. apply list_elem_of_here.
  - evaluate.
  - evaluate.
  - vm_compute; intros E; discriminate E.
  - vm_compute; intros E; discriminate E.
  - evaluate.
  - evaluate.
  - exists newDoc, s'. split; [exact Hins|]. split; [exact Hdata|exact Hkey].
Defined.

(** C9 as stated fails: the primary key [id] is not among the unique
    fields of [u], the document brings the key of the stored one, and the
    insert is refused all the same, because of its [email]. *)
Lemma insert_same_primary_key_refused :
  primaryKey_of users_one "u" = "id" /\
  (unique_of <$> tables users_one !! "u") = Some ["email"] /\
  data users_one !! "u" = Some [ana_stored] /\
  get ana_stored "id" = Some (VNum 1) /\
  insert env0 "day2" "u" [("id", VNum 1); ("email", VStr "ana@example.org")] users_one
  = (Throw UniqueViolation, users_one).
Proof. split; [evaluate|split; [evaluate|split; [evaluate|split; evaluate]]]. Qed.

Lemma second_insert_rejected_witness :
  exists s2,
    insert env0 "day2" "u" ana users_one = (Throw UniqueViolation, s2) /\
    data s2 !! "u" = Some [ana_stored] /\
    uniqueKeyMap s2 = uniqueKeyMap users_one /\
    indexes s2 = indexes users_one.
Proof.
  destruct (second_insert_rejected env0 "day1" "day2" "u"
              {| primaryKey := None; unique := Some ["email"]; schema := None |}
              "email" ana ana (VStr "ana@example.org") ana_stored
              users_empty users_one)
    as (s2 & Hins & _ & Hu & Hi & _ & _ & _ & Hrows & _).
  - evaluate.
  - cbn. apply list_elem_of_here.
  - evaluate.
  - reflexivity.
  - reflexivity.
  - reflexivity.
  - evaluate.
  - exists s2. split; [exact Hins|]. split; [|split; assumption].
    rewrite Hrows. vm_compute; reflexivity.
Defined.

(** C3 as stated fails: the second insert is refused, but it has drawn
    the key 2 before the uniqueness check, and the allocator is left at 3. *)
Lemma failed_insert_consumes_a_key :
  result_of (insert env0 "day2" "u" ana) users_one = Throw UniqueViolation /\
  primaryKeyMap users_one !! "u" = Some 2 /\
  primaryKeyMap (state_after (insert env0 "day2" "u" ana) users_one) !! "u" = Some 3 /\
  state_after (insert env0 "day2" "u" ana) users_one <> users_one.
Proof.
  split; [evaluate|split; [evaluate|split; [evaluate|]]].
  intros H. apply (f_equal (fun s => primaryKeyMap s !! "u")) in H.
  vm_compute in H. discriminate H.
Qed.

End InsertProps.

(** ** Transactions: rollback *)

Module TransactionProps.
Import Store Scenarios.

(** A function that fails rolls the documents back: the failure goes on to
    the caller, the database is the one the transaction started from, and
    the file is as the function left it. *)
Lemma transaction_rollback {A} (transactionFn : M A) (s s1 : Store) (e : error) :
  transactionFn s = (Throw e, s1) ->
  transaction transactionFn s = (Throw e, with_data s1 (data s)).
Proof. intros H. unfold transaction. rewrite H. reflexivity. Qed.

(** C4.  A transaction whose function inserts a document and then raises a
    failure raises that failure again and leaves every table with the
    document sequence it had before; the rollback writes nothing, the file
    and the count of writes being those the function itself left (the
    insert has saved once inside it). *)
Theorem transaction_insert_then_fail
    (env : Env) (now tableName : string) (d : doc) (e : error) (s : Store) :
  let transactionFn : M unit := do _ <- insert env now tableName d; throw e in
  exists e' s1,
    transactionFn s = (Throw e', s1) /\
    result_of (transaction transactionFn) s = Throw e' /\
    data (state_after (transaction transactionFn) s) = data s /\
    findAll tableName (state_after (transaction transactionFn) s) = findAll tableName s /\
    file (state_after (transaction transactionFn) s) = file s1 /\
    writes (state_after (transaction transactionFn) s) = writes s1 /\
    (forall newDoc s_ins,
        insert env now tableName d s = (Return newDoc, s_ins) ->
        e' = e /\ s1 = s_ins /\ writes s1 = S (writes s) /\ file s1 = Some (data s_ins)).
Proof.
  intros transactionFn.
  destruct (insert env now tableName d s) as [[newDoc|e0] s_ins] eqn:Hins.
  - exists e, s_ins.
    assert (Hfn : transactionFn s = (Throw e, s_ins)).
    { unfold transactionFn, bind, throw. rewrite Hins. reflexivity. }
    unfold result_of, state_after, findAll.
    rewrite (transaction_rollback _ _ _ _ Hfn). cbn [fst snd data with_data file writes].
    split; [exact Hfn|]. do 5 (split; [reflexivity|]).
    intros newDoc' s_ins' [= <- <-].
    destruct (InsertProps.insert_saves _ _ _ _ _ _ _ Hins) as [Hw Hf].
    auto.
  - exists e0, s_ins.
    assert (Hfn : transactionFn s = (Throw e0, s_ins)).
    { unfold transactionFn, bind, throw. rewrite Hins. reflexivity. }
    unfold result_of, state_after, findAll.
    rewrite (transaction_rollback _ _ _ _ Hfn). cbn [fst snd data with_data file writes].
    split; [exact Hfn|]. do 5 (split; [reflexivity|]).
    intros newDoc' s_ins' [=].
Qed.

End TransactionProps.

(** ** The primary-key allocator *)

Module KeyProps.
Import Store InsertSteps Scenarios.
Import InsertProps.

Ltac evaluate := vm_compute; reflexivity.

Lemma max_key_from pk rows (acc : Z) :
  acc <= fold_left
           (fun maxValue row =>
              match get row pk with
              | Some (VNum n) => if maxValue <? n then n else maxValue
              | _ => maxValue
              end) rows acc.
Proof.
  revert acc. induction rows as [|row rows IH]; intros acc; cbn [fold_left]; [lia|].
  etransitivity; [|apply IH].
  destruct (get row pk) as [[]|]; try lia.
  destruct (Z.ltb_spec acc z); lia.
Qed.

Lemma max_key_nonneg pk rows : 0 <= max_key pk rows.
Proof. apply max_key_from. Qed.

(** *** Doubles *)

(** Rounding never takes a number from above 2^53 to below it. *)
Lemma to_double_large z : 2 ^ 53 <= z -> 2 ^ 53 <= to_double z.
Proof.
  intros Hz. unfold to_double. cbv zeta.
  assert (Hpos : 0 < 2 ^ 53) by reflexivity.
  assert (Ha : Z.abs z = z) by (apply Z.abs_eq; lia). rewrite Ha.
  destruct (Z.leb_spec z (2 ^ 53)) as [_|Hgt]; [exact Hz|].
  assert (Hsgn : Z.sgn z = 1) by (apply Z.sgn_pos; lia). rewrite Hsgn, Z.mul_1_l.
  set (e := Z.log2 z - 52).
  assert (Hlog : 53 <= Z.log2 z).
  { change 53 with (Z.log2 (2 ^ 53)). apply Z.log2_le_mono. lia. }
  assert (He : 1 <= e) by (unfold e; lia).
  assert (Hpow : 2 ^ 52 * 2 ^ e <= z).
  { rewrite <- Z.pow_add_r by lia. replace (52 + e) with (Z.log2 z) by (unfold e; lia).
    apply Z.log2_spec. lia. }
  assert (H2e : 2 <= 2 ^ e).
  { change 2 with (2 ^ 1) at 1. apply Z.pow_le_mono_r; lia. }
  assert (Hq : 2 ^ 52 <= z / 2 ^ e).
  { apply Z.div_le_lower_bound; [lia|]. rewrite Z.mul_comm. exact Hpow. }
  assert (Hgoal : forall q', z / 2 ^ e <= q' -> 2 ^ 53 <= q' * 2 ^ e).
  { intros q' Hq'. change (2 ^ 53) with (2 ^ 52 * 2).
    apply Z.mul_le_mono_nonneg; lia. }
  destruct (_ <? _); [apply Hgoal; lia|].
  destruct (_ <? _); [apply Hgoal; lia|].
  destruct (Z.even _); apply Hgoal; lia.
Qed.

(** One past a number that is at least [b] is still at least [b] after the
    rounding, for a bound in the safe range. *)
Lemma to_double_succ_ge b k :
  - 2 ^ 53 < b <= 2 ^ 53 -> b <= k -> b <= to_double (k + 1).
Proof.
  intros [Hlo Hhi] Hk.
  destruct (Z.le_gt_cases (k + 1) (2 ^ 53)) as [Hle|Hgt].
  - rewrite to_double_safe; [lia|]. apply Z.abs_le. lia.
  - etransitivity; [exact Hhi|]. apply to_double_large. lia.
Qed.

Lemma to_double_succ_pos k : 0 <= k -> 1 <= to_double (k + 1).
Proof.
  intros Hk.
  destruct (Z.le_gt_cases (k + 1) (2 ^ 53)) as [Hle|Hgt].
  - rewrite to_double_safe; [lia|]. apply Z.abs_le. lia.
  - assert (H : 2 ^ 53 <= to_double (k + 1)) by (apply to_double_large; lia).
    assert (Hpos : 1 <= 2 ^ 53) by (intros E; discriminate E). lia.
Qed.

(** *** The allocator *)

(** The maximum is 0 or the numeric key of some document. *)
Lemma max_key_in pk rows :
  max_key pk rows = 0 \/
  exists d, d ∈ rows /\ get d pk = Some (VNum (max_key pk rows)).
Proof.
  unfold max_key.
  assert (H : forall acc,
    let m := fold_left
               (fun maxValue row =>
                  match get row pk with
                  | Some (VNum n) => if maxValue <? n then n else maxValue
                  | _ => maxValue
                  end) rows acc in
    m = acc \/ exists d, d ∈ rows /\ get d pk = Some (VNum m)).
  { induction rows as [|row rows IH]; intros acc; cbn [fold_left]; [by left|].
    cbv zeta.
    assert (Hrest : forall acc', 
      (acc' = acc \/ get row pk = Some (VNum acc')) ->
      fold_left
        (fun maxValue row =>
           match get row pk with
           | Some (VNum n) => if maxValue <? n then n else maxValue
           | _ => maxValue
           end) rows acc' = acc \/
      exists d, d ∈ row :: rows /\
        get d pk = Some (VNum (fold_left
          (fun maxValue row =>
             match get row pk with
             | Some (VNum n) => if maxValue <? n then n else maxValue
             | _ => maxValue
             end) rows acc'))).
    { intros acc' Hacc'. destruct (IH acc') as [->|(d & Hd & Hget)].
      - destruct Hacc' as [->|Hrow]; [by left|]. right. exists row.
        split; [apply list_elem_of_here|exact Hrow].
      - right. exists d. split; [by apply list_elem_of_further|exact Hget]. }
    destruct (get row pk) as [[| |n| | |]|] eqn:E; try (apply Hrest; by left).
    destruct (acc <? n); apply Hrest; [by right|by left]. }
  apply (H 0).
Qed.

(** What drawing a key does to the allocator: the key is at least the
    counter of the table if there was one, the counter is then the double
    of the key plus one, and no other table is touched. *)
Lemma getNextPrimaryKey_spec tableName s k s' :
  getNextPrimaryKey tableName s = (Return k, s') ->
  primaryKeyMap s' !! tableName = Some (to_double (k + 1)) /\
  (forall t, t ≠ tableName -> primaryKeyMap s' !! t = primaryKeyMap s !! t) /\
  (forall c, primaryKeyMap s !! tableName = Some c -> c <= k) /\
  (primaryKeyMap s !! tableName = None -> 1 <= k).
Proof.
  unfold getNextPrimaryKey, _calculateNextPrimaryKey. cbv zeta.
  pose proof (max_key_nonneg (primaryKey_of s tableName)) as Hmax.
  assert (Hone : forall rows,
            1 <= to_double (max_key (primaryKey_of s tableName) rows + 1))
    by (intros rows; apply to_double_succ_pos, Hmax).
  destruct (primaryKeyMap s !! tableName) as [c|] eqn:Ec.
  - destruct c as [|p|p].
    + destruct (data s !! tableName) as [[|row rows]|] eqn:Ed;
        cbn [primaryKeyMap with_primaryKeyMap];
        rewrite lookup_insert_eq; cbn [default]; intros [= <- <-];
        cbn [primaryKeyMap with_primaryKeyMap];
        (split; [by rewrite lookup_insert_eq|]);
        (split; [by intros t Ht; rewrite !lookup_insert_ne by done|]);
        (split; [|by intros [=]]); intros c [= <-];
        try lia.
      specialize (Hone (row :: rows)). lia.
    + rewrite Ec. cbn [default]. intros [= <- <-].
      cbn [primaryKeyMap with_primaryKeyMap].
      split; [by rewrite lookup_insert_eq|].
      split; [by intros t Ht; rewrite lookup_insert_ne by done|].
      split; [|by intros [=]]. intros c [= <-]. lia.
    + rewrite Ec. cbn [default]. intros [= <- <-].
      cbn [primaryKeyMap with_primaryKeyMap].
      split; [by rewrite lookup_insert_eq|].
      split; [by intros t Ht; rewrite lookup_insert_ne by done|].
      split; [|by intros [=]]. intros c [= <-]. lia.
  - destruct (data s !! tableName) as [[|row rows]|] eqn:Ed;
      cbn [primaryKeyMap with_primaryKeyMap];
      rewrite lookup_insert_eq; cbn [default]; intros [= <- <-];
      cbn [primaryKeyMap with_primaryKeyMap];
      (split; [by rewrite lookup_insert_eq|]);
      (split; [by intros t Ht; rewrite !lookup_insert_ne by done|]);
      (split; [by intros c [=]|]); intros _; try lia.
    apply Hone.
Qed.

Lemma primaryKey_of_tables s s' tableName :
  tables s' = tables s -> primaryKey_of s' tableName = primaryKey_of s tableName.
Proof. intros H. unfold primaryKey_of. by rewrite H. Qed.

Section Keys.
Variable env : Env.

(** [delete] and [update] never touch the allocator. *)
Lemma primaryKeyMap_delete tableName id s :
  primaryKeyMap (state_after (delete tableName id) s) = primaryKeyMap s.
Proof.
  unfold state_after, delete.
  destruct (data s !! tableName) as [rows|]; [|reflexivity].
  destruct (findIndex _ id rows) as [index|]; [|reflexivity].
  cbn [snd]. unfold _removeFromUniqueKeyMap, _removeFromIndexes.
  destruct (indexes s !! tableName); cbn [tables with_indexes];
    destruct (tables s !! tableName); try reflexivity;
    cbn [uniqueKeyMap with_indexes];
    destruct (uniqueKeyMap s !! tableName); reflexivity.
Qed.

Lemma primaryKeyMap_registry_apply tableName uniqueKey v f s :
  primaryKeyMap (snd (registry_apply tableName uniqueKey v f s)) = primaryKeyMap s.
Proof.
  unfold registry_apply. destruct v as [[]|]; try reflexivity;
    destruct (uniqueKeyMap s !! tableName) as [sets|]; try reflexivity;
    destruct (sets !! uniqueKey); reflexivity.
Qed.

Lemma primaryKeyMap_updateUniqueKeyMapForUpdate tableName newData originalData s :
  primaryKeyMap (snd (_updateUniqueKeyMapForUpdate tableName newData originalData s))
  = primaryKeyMap s.
Proof.
  unfold _updateUniqueKeyMapForUpdate.
  destruct (tables s !! tableName) as [cfg|]; [|reflexivity].
  generalize (unique_of cfg). intros l. revert s.
  induction l as [|uniqueKey l IH]; intros s; [reflexivity|].
  destruct (strict_eq (get newData uniqueKey) (get originalData uniqueKey)); [apply IH|].
  unfold bind at 1.
  pose proof (primaryKeyMap_registry_apply tableName uniqueKey
                (get originalData uniqueKey) set_delete s) as H1.
  destruct (registry_apply tableName uniqueKey (get originalData uniqueKey) set_delete s)
    as [[[]|e1] s1]; cbn [snd] in H1; [|exact H1].
  unfold bind at 1.
  pose proof (primaryKeyMap_registry_apply tableName uniqueKey
                (get newData uniqueKey) set_add s1) as H2.
  destruct (registry_apply tableName uniqueKey (get newData uniqueKey) set_add s1)
    as [[[]|e2] s2]; cbn [snd] in H2; [|cbn [snd]; congruence].
  rewrite IH. congruence.
Qed.

Lemma primaryKeyMap_update now tableName id newData s :
  primaryKeyMap (state_after (update env now tableName id newData) s) = primaryKeyMap s.
Proof.
  unfold state_after, update.
  destruct (data s !! tableName) as [rows|]; [|reflexivity].
  destruct (findIndex _ id rows) as [index|]; [|reflexivity].
  destruct (_validateDataAgainstSchema _ _ _ _); [reflexivity|].
  destruct (_ && _); [reflexivity|].
  destruct (negb _); [reflexivity|].
  match goal with |- context [_updateUniqueKeyMapForUpdate ?t ?a ?b ?s0] =>
    pose proof (primaryKeyMap_updateUniqueKeyMapForUpdate t a b s0) as H;
    destruct (_updateUniqueKeyMapForUpdate t a b s0) as [[[]|e] s1]
  end; cbn [snd] in *; cbn [primaryKeyMap saveDatabase]; rewrite H;
    unfold _updateIndexes, _removeFromIndexes;
    destruct (indexes s !! tableName); reflexivity.
Qed.

(** What an insert does to the allocator. *)
Lemma primaryKeyMap_insert now tableName d s :
  match get d (primaryKey_of s tableName),
        _validateDataAgainstSchema env tableName d (ensured tableName s) with
  | None, None =>
      exists k s1,
        getNextPrimaryKey tableName (ensured tableName s) = (Return k, s1) /\
        primaryKeyMap (state_after (insert env now tableName d) s) = primaryKeyMap s1 /\
        forall newDoc s', insert env now tableName d s = (Return newDoc, s') ->
          newDoc = set (set (set d (primaryKey_of s tableName) (VNum k))
                          "_createdAt" (VStr now)) "_updatedAt" (VStr now)
  | _, _ =>
      primaryKeyMap (state_after (insert env now tableName d) s) = primaryKeyMap s
  end.
Proof.
  assert (Hpe : primaryKeyMap (ensured tableName s) = primaryKeyMap s).
  { unfold ensured. by destruct (data s !! tableName). }
  assert (Hpk : primaryKey_of (ensured tableName s) tableName = primaryKey_of s tableName).
  { apply primaryKey_of_tables, tables_ensured. }
  unfold state_after. rewrite insert_eq. cbv zeta.
  destruct (_validateDataAgainstSchema env tableName d _) as [e|].
  { destruct (get d _); exact Hpe. }
  unfold keyed. cbv zeta. rewrite Hpk.
  destruct (get d (primaryKey_of s tableName)) as [v|].
  - destruct (_checkUniqueConstraints _ _ _); [|exact Hpe].
    pose proof (stored_frame now tableName d (ensured tableName s)) as [_ Hp].
    destruct (stored now tableName d (ensured tableName s)) as [nd s2].
    cbn [snd] in *. congruence.
  - destruct (getNextPrimaryKey tableName (ensured tableName s)) as [[k|e] s1] eqn:Eg.
    2: { unfold getNextPrimaryKey in Eg. cbv zeta in Eg. discriminate Eg. }
    exists k, s1. split; [reflexivity|].
    destruct (_checkUniqueConstraints _ _ _).
    + pose proof (stored_frame now tableName
                    (set d (primaryKey_of s tableName) (VNum k)) s1) as [_ Hp].
      destruct (stored now tableName _ s1) as [nd s2] eqn:Es.
      cbn [snd] in *. split; [exact Hp|].
      intros newDoc s' [= <- <-].
      unfold stored in Es. cbv zeta in Es. by injection Es as <- _.
    + cbn [snd]. split; [reflexivity|]. intros newDoc s' [=].
Qed.

End Keys.

End KeyProps.

(** ** The codec: round trip, and the legacy fallback *)

Module CodecProps.
Import Codec.

Local Open Scope N_scope.

Lemma hex_value_digit n : n < 16 -> hex_value (hex_digit n) = Some n.
Proof.
  intros Hn. unfold hex_digit, hex_value.
  destruct (N.ltb_spec n 10).
  - replace ((48 <=? 48 + n) && (48 + n <=? 57)) with true
      by (symmetry; apply andb_true_iff; split; apply N.leb_le; lia).
    f_equal. lia.
  - replace ((48 <=? 87 + n) && (87 + n <=? 57)) with false
      by (symmetry; apply andb_false_iff; right; apply N.leb_gt; lia).
    replace ((97 <=? 87 + n) && (87 + n <=? 102)) with true
      by (symmetry; apply andb_true_iff; split; apply N.leb_le; lia).
    f_equal. lia.
Qed.

Lemma hex_digit_not_colon n : n < 16 -> hex_digit n <> colon.
Proof. unfold hex_digit, colon. destruct (N.ltb_spec n 10); lia. Qed.

Lemma byte_nibbles (b : Byte.byte) :
  Byte.to_N b / 16 < 16 /\ Byte.to_N b mod 16 < 16 /\
  16 * (Byte.to_N b / 16) + Byte.to_N b mod 16 = Byte.to_N b.
Proof.
  pose proof (Byte.to_N_bounded b) as Hb.
  split; [apply N.Div0.div_lt_upper_bound; lia|].
  split; [apply N.mod_lt; lia|].
  symmetry. apply N.Div0.div_mod.
Qed.

(** Reading back the hexadecimal text of some bytes gives the bytes. *)
Lemma from_hex_to_hex (bs : list Byte.byte) : from_hex (to_hex bs) = bs.
Proof.
  induction bs as [|b bs IH]; [reflexivity|].
  destruct (byte_nibbles b) as (Hhi & Hlo & Hsum).
  cbn [to_hex flat_map app from_hex].
  rewrite (hex_value_digit _ Hhi), (hex_value_digit _ Hlo), Hsum, Byte.of_to_N.
  f_equal. exact IH.
Qed.

Lemma to_hex_no_colon (bs : list Byte.byte) : Forall (fun c => c <> colon) (to_hex bs).
Proof.
  induction bs as [|b bs IH]; [constructor|].
  destruct (byte_nibbles b) as (Hhi & Hlo & _).
  cbn [to_hex flat_map app].
  constructor; [by apply hex_digit_not_colon|].
  constructor; [by apply hex_digit_not_colon|exact IH].
Qed.

Lemma split_on_none sep (s : text) :
  Forall (fun c => c <> sep) s -> split_on sep s = [s].
Proof.
  induction 1 as [|c s Hc _ IH]; [reflexivity|].
  cbn [split_on]. destruct (N.eqb_spec c sep); [done|]. by rewrite IH.
Qed.

Lemma split_on_once sep (a b : text) :
  Forall (fun c => c <> sep) a -> Forall (fun c => c <> sep) b ->
  split_on sep (a ++ sep :: b) = [a; b].
Proof.
  intros Ha Hb. induction Ha as [|c a Hc _ IH]; cbn [app split_on].
  - rewrite N.eqb_refl. by rewrite split_on_none.
  - destruct (N.eqb_spec c sep); [done|]. by rewrite IH.
Qed.

(** [split] gives one part more than there are separators. *)
Lemma length_split_on sep (s : text) :
  length (split_on sep s) = S (count_unit sep s).
Proof.
  unfold count_unit. induction s as [|c s IH]; [reflexivity|].
  cbn [split_on List.filter]. destruct (c =? sep); cbn [length].
  - by rewrite IH.
  - destruct (split_on sep s); cbn [length] in *; [discriminate IH|exact IH].
Qed.

(** *** The XOR stream *)

Lemma lxor_code_unit a b : a < 65536 -> b < 65536 -> N.lxor a b < 65536.
Proof.
  intros Ha Hb.
  destruct (N.eq_dec (N.lxor a b) 0) as [->|Hne]; [lia|].
  apply N.log2_lt_pow2 with (b := 16); [lia|].
  eapply N.le_lt_trans; [apply N.log2_lxor|].
  apply N.max_lub_lt.
  - destruct (N.eq_dec a 0) as [->|]; [cbn; lia|]. apply N.log2_lt_pow2; lia.
  - destruct (N.eq_dec b 0) as [->|]; [cbn; lia|]. apply N.log2_lt_pow2; lia.
Qed.

Lemma xor_unit_involutive c k : c < 65536 -> k < 65536 -> xor_unit (xor_unit c k) k = c.
Proof.
  intros Hc Hk. unfold xor_unit.
  rewrite (N.mod_small (N.lxor c k)) by by apply lxor_code_unit.
  rewrite N.lxor_assoc, N.lxor_nilpotent, N.lxor_0_r.
  by apply N.mod_small.
Qed.

Lemma key_unit_code_unit key i : code_units key -> key_unit key i < 65536.
Proof.
  intros Hkey. unfold key_unit. destruct key as [|k key]; [lia|].
  set (l := k :: key) in *.
  assert (Hlen : (i mod length l < length l)%nat)
    by (apply Nat.mod_upper_bound; discriminate).
  unfold code_units in Hkey. rewrite Forall_forall in Hkey.
  apply Hkey. apply list_elem_of_In, nth_In, Hlen.
Qed.

Lemma xor_from_involutive key (data : text) : forall i,
  code_units data -> code_units key ->
  xor_from i (xor_from i data key) key = data.
Proof.
  induction data as [|c data IH]; intros i Hdata Hkey; [reflexivity|].
  apply Forall_cons in Hdata as [Hc Hdata].
  cbn [xor_from]. rewrite xor_unit_involutive by (done || by apply key_unit_code_unit).
  f_equal. by apply IH.
Qed.

(** [_legacyDecrypt] undoes the legacy [encryptData]. *)
Lemma legacy_round_trip (data key : text) :
  code_units data -> code_units key ->
  _legacyDecrypt (legacy_encryptData data key) key = data.
Proof. apply xor_from_involutive. Qed.

Lemma well_formed_code_units (t : text) : well_formed t = true -> code_units t.
Proof.
  unfold code_units.
  assert (H : forall n (t : text), (length t < n)%nat ->
                well_formed t = true -> Forall (fun c => c < 65536) t).
  { clear t. induction n as [|n IH]; intros t Hlen; [lia|].
    destruct t as [|c t]; [constructor|]. cbn [well_formed length] in *.
    destruct ((c <? 55296) || (57344 <=? c) && (c <? 65536)) eqn:E1.
    - intros H. constructor; [|apply IH; [lia|exact H]].
      apply orb_true_iff in E1 as [E|E]; [apply N.ltb_lt in E; lia|].
      apply andb_true_iff in E as [_ E]. by apply N.ltb_lt in E.
    - destruct ((55296 <=? c) && (c <? 56320)) eqn:E2; [|intros E; discriminate E].
      destruct t as [|d t]; [intros E; discriminate E|].
      intros H. apply andb_true_iff in H as [H Ht]. apply andb_true_iff in H as [_ Hd].
      apply andb_true_iff in E2 as [_ E2]. apply N.ltb_lt in E2, Hd.
      constructor; [lia|]. constructor; [lia|].
      apply IH; [cbn [length] in Hlen; lia|exact Ht]. }
  apply (H (S (length t))). lia.
Qed.

(** *** The toy cipher keeps the contract *)

Lemma toy_decipher_cipher key iv (data : text) :
  code_units data -> toy_decipher_bytes (toy_cipher key iv data) = data.
Proof.
  induction 1 as [|c data Hc _ IH]; [reflexivity|].
  cbn [toy_cipher flat_map app toy_decipher_bytes].
  fold (toy_cipher key iv data). rewrite IH. f_equal.
  assert (Hb : forall n, n < 256 -> Byte.to_N (default Byte.x00 (Byte.of_N n)) = n).
  { intros n Hn. destruct (Byte.of_N n) eqn:E.
    - cbn. by apply Byte.to_of_N.
    - apply Byte.of_N_None_iff in E. lia. }
  rewrite !Hb by (apply N.mod_lt; lia).
  rewrite (N.mod_small (c / 256)) by (apply N.Div0.div_lt_upper_bound; lia).
  symmetry. apply N.Div0.div_mod.
Qed.

Definition toy : Crypto :=
  {| derive_key := fun key => key;
     cipher := toy_cipher;
     decipher := toy_decipher;
     decipher_cipher := fun key iv data _ Hwf =>
       f_equal Some (toy_decipher_cipher key iv data (well_formed_code_units data Hwf)) |}.

Section Codec.
Variable C : Crypto.

(** What [decryptData] does with a legacy file: the fallback is taken
    exactly when the text does not hold one colon, and then gives the
    original text back. *)
Lemma decryptData_legacy (data key : text) :
  code_units data -> code_units key ->
  count_unit colon (legacy_encryptData data key) <> 1%nat ->
  decryptData C (legacy_encryptData data key) key = Some data.
Proof.
  intros Hdata Hkey Hcount. unfold decryptData. cbv zeta.
  pose proof (length_split_on colon (legacy_encryptData data key)) as Hlen.
  destruct (split_on colon (legacy_encryptData data key)) as [|p0 [|p1 [|p2 ps]]];
    cbn [length] in Hlen; try (by rewrite legacy_round_trip).
  exfalso. apply Hcount. lia.
Qed.

(** C5, as the code has it.  Decrypting what [encryptData] made of a
    well-formed text gives the text back, whatever the 16 bytes of the
    initialization vector, so parsing it gives back the database it was
    serialized from; and a text of the legacy XOR scheme is decrypted to
    the original by the fallback whenever it does not hold exactly one
    colon.  With exactly one colon it is read as a text of the current
    scheme. *)
Theorem codec_round_trip {D : Type} (stringify : D -> text) (parse : text -> option D)
    (db : D) (key : text) (iv : list Byte.byte) :
  length iv = 16%nat ->
  well_formed (stringify db) = true ->
  parse (stringify db) = Some db ->
  decryptData C (encryptData C iv (stringify db) key) key = Some (stringify db) /\
  decryptData C (encryptData C iv (stringify db) key) key ≫= parse = Some db /\
  (forall legacy_text legacy_key,
      code_units legacy_text -> code_units legacy_key ->
      count_unit colon (legacy_encryptData legacy_text legacy_key) <> 1%nat ->
      decryptData C (legacy_encryptData legacy_text legacy_key) legacy_key
      = Some legacy_text) /\
  (forall legacy_text legacy_key part0 part1,
      split_on colon (legacy_encryptData legacy_text legacy_key) = [part0; part1] ->
      decryptData C (legacy_encryptData legacy_text legacy_key) legacy_key
      = if (length (from_hex part0) =? 16)%nat
        then decipher C (derive_key C legacy_key) (from_hex part0) (from_hex part1)
        else None).
Proof.
  intros Hiv Hwf Hparse.
  assert (Hrt : decryptData C (encryptData C iv (stringify db) key) key
                = Some (stringify db)).
  { unfold decryptData, encryptData. cbv zeta.
    rewrite split_on_once by apply to_hex_no_colon.
    rewrite !from_hex_to_hex, Hiv. cbn [Nat.eqb].
    by apply decipher_cipher. }
  split; [exact Hrt|]. split; [by rewrite Hrt|].
  split; [apply decryptData_legacy|].
  intros legacy_text legacy_key part0 part1 Hsplit.
  unfold decryptData. cbv zeta. by rewrite Hsplit.
Qed.

End Codec.

Lemma codec_round_trip_witness :
  let iv := repeat Byte.x2a 16 in
  decryptData toy (encryptData toy iv (units "{}") (units "secret")) (units "secret")
  = Some (units "{}") /\
  decryptData toy (legacy_encryptData (units "{}") (units "secret")) (units "secret")
  = Some (units "{}").
Proof.
  intros iv.
  destruct (codec_round_trip toy (fun t : text => t) Some (units "{}") (units "secret") iv)
    as (Hrt & _ & Hlegacy & _).
  - reflexivity.
  - reflexivity.
  - reflexivity.
  - split; [exact Hrt|]. apply Hlegacy.
    + unfold code_units. repeat constructor.
    + unfold code_units. repeat constructor.
    + vm_compute. intros E; discriminate E.
Defined.

(** C5 as stated fails on the legacy side.  Under the passphrase [a] the
    legacy text of the database with the one empty table [t] (34 is the
    code of the quotation mark) holds exactly one colon (the
    code of [[] xor the code of [a]), so the decoder takes it for a text of
    the current scheme, finds no initialization vector of 16 bytes before
    the colon, and throws: the XOR fallback is never reached. *)
Lemma legacy_text_taken_for_current :
  let original := (units "{" ++ [34] ++ units "t" ++ [34] ++ units ":[]}")%list in
  let file := legacy_encryptData original (units "a") in
  count_unit colon file = 1%nat /\
  _legacyDecrypt file (units "a") = original /\
  forall C : Crypto, decryptData C file (units "a") = None.
Proof.
  cbv zeta. split; [vm_compute; reflexivity|]. split; [vm_compute; reflexivity|].
  intros C. reflexivity.
Qed.

End CodecProps.

(** ** The average of a group *)

Module AggregateProps.
Import Aggregate Accumulators.
Import InsertProps.

Lemma In_fmap {A B} (f : A -> B) (l : list A) y :
  In y (f <$> l) <-> exists x, y = f x /\ In x l.
Proof.
  rewrite <- list_elem_of_In, list_elem_of_fmap.
  split; intros (x & ? & ?); exists x; split; try done; by apply list_elem_of_In.
Qed.

Lemma key_In {A} (o : list (string * A)) k v : In (k, v) o -> k ∈ o.*1.
Proof.
  intros H. apply list_elem_of_In, In_fmap. exists (k, v). by split.
Qed.

Lemma get_In (o : doc) k v : NoDup o.*1 -> In (k, v) o -> get o k = Some v.
Proof.
  induction o as [|[k' v'] o IH]; intros Hnd Hin; [destruct Hin|].
  apply NoDup_cons in Hnd as [Hk' Hnd]. cbn [get].
  destruct Hin as [[= -> ->]|Hin]; [by rewrite String.eqb_refl|].
  destruct (String.eqb_spec k' k) as [->|Hne]; [|by apply IH].
  exfalso. apply Hk'. by apply key_In in Hin.
Qed.


Lemma keys_set (o : doc) k v : forall k', k' ∈ (set o k v).*1 -> k' = k \/ k' ∈ o.*1.
Proof.
  induction o as [|[k0 v0] o IH]; intros k'; cbn [set].
  - cbn. intros H. apply list_elem_of_singleton in H. by left.
  - destruct (String.eqb_spec k0 k) as [->|Hne]; cbn [fmap list_fmap fst].
    + intros H. by right.
    + intros H. apply elem_of_cons in H as [->|H]; [right; apply list_elem_of_here|].
      destruct (IH _ H) as [->|H']; [by left|right; by apply list_elem_of_further].
Qed.

Lemma NoDup_set (o : doc) k v : NoDup o.*1 -> NoDup (set o k v).*1.
Proof.
  induction o as [|[k0 v0] o IH]; intros Hnd; cbn [set].
  - cbn. apply NoDup_singleton.
  - apply NoDup_cons in Hnd as [Hk0 Hnd].
    destruct (String.eqb_spec k0 k) as [->|Hne]; cbn [fmap list_fmap fst].
    + by apply NoDup_cons.
    + apply NoDup_cons. split; [|by apply IH].
      intros H. destruct (keys_set _ _ _ _ H) as [->|H']; done.
Qed.

(** *** The order of [Object.values] keeps the properties *)

Lemma In_insert_by_index {A} z (x : A) l y :
  In y (insert_by_index z x l) <-> y = (z, x) \/ In y l.
Proof.
  induction l as [|[z' x'] l IH]; cbn [insert_by_index].
  - cbn. intuition.
  - destruct (z <? z'); cbn [In]; [intuition|]. rewrite IH. intuition.
Qed.

Lemma In_js_order {A} (o : list (string * A)) kv : In kv (js_order o) <-> In kv o.
Proof.
  unfold js_order. cbv zeta. rewrite in_app_iff, filter_In.
  assert (Hidx : forall acc,
    In kv (snd <$> fold_left
             (fun acc kv => match array_index (fst kv) with
                            | Some z => insert_by_index z kv acc
                            | None => acc
                            end) o acc)
    <-> In kv (snd <$> acc) \/ (In kv o /\ is_Some (array_index (fst kv)))).
  { induction o as [|kv' o IH]; intros acc; cbn [fold_left].
    - cbn. intuition.
    - rewrite IH. destruct (array_index (fst kv')) as [z|] eqn:E.
      + rewrite !In_fmap. split.
        * intros [(y & Hy & Hin)|[Hin Hs]].
          -- apply In_insert_by_index in Hin as [->|Hin].
             ++ cbn [snd] in Hy. subst. right. split; [by left|]. by rewrite E.
             ++ left. eauto.
          -- right. split; [by right|done].
        * intros [(y & Hy & Hin)|[[->|Hin] Hs]].
          -- left. exists y. split; [done|]. apply In_insert_by_index. by right.
          -- left. exists (z, kv). split; [done|]. apply In_insert_by_index. by left.
          -- right. done.
      + split.
        * intros [H|[Hin Hs]]; [by left|right; split; [by right|done]].
        * intros [H|[[->|Hin] Hs]]; [by left| |by right].
          rewrite E in Hs. by destruct Hs.
  }
  rewrite Hidx. cbn [fmap list_fmap In].
  destruct (array_index (fst kv)) as [z|].
  - split.
    + intros [[H|[H _]]|[_ H]]; [destruct H|exact H|discriminate H].
    + intros H. left. right. split; [exact H|by eexists].
  - split.
    + intros [[H|[_ [? H]]]|[H _]]; [destruct H|discriminate H|exact H].
    + intros H. right. split; [exact H|reflexivity].
Qed.

(** *** An accumulator along the documents of a group *)

Section Running.

Variable N : Numeric.
Variable stage : GroupStage.
Variable field : string.
Variable accumulator : doc.

Hypothesis keys_distinct : NoDup (accumulators stage).*1.
Hypothesis declared : In (field, accumulator) (accumulators stage).
Hypothesis not_id : field <> "_id".

(** A loop over the accumulators changes the field by the step of its own
    accumulator, when no step touches the field of another one. *)
Lemma fold_accumulators (step : string -> doc -> doc -> doc) :
  (forall f a g, f <> field -> get (step f a g) field = get g field) ->
  (forall g g', get g field = get g' field ->
                get (step field accumulator g) field = get (step field accumulator g') field) ->
  forall g,
    get (fold_left (fun g fa => if String.eqb (fst fa) "_id" then g
                                else step (fst fa) (snd fa) g)
                   (accumulators stage) g) field
    = get (step field accumulator g) field.
Proof.
  intros Hother Hown.
  pose proof keys_distinct as Hnd. pose proof declared as Hin.
  induction (accumulators stage) as [|[f a] l IH]; intros g; [destruct Hin|].
  cbn [fmap list_fmap fst] in Hnd. apply NoDup_cons in Hnd as [Hf Hnd].
  assert (Hrest : forall l g, field ∉ l.*1 ->
            get (fold_left (fun g fa => if String.eqb (fst fa) "_id" then g
                                        else step (fst fa) (snd fa) g) l g) field
            = get g field).
  { clear -Hother. induction l as [|[f a] l IH]; intros g Hnot; [reflexivity|].
    cbn [fmap list_fmap fst] in Hnot. apply not_elem_of_cons in Hnot as [Hne Hnot].
    cbn [fold_left fst snd]. rewrite IH by done.
    destruct (String.eqb f "_id"); [reflexivity|]. by apply Hother. }
  cbn [fold_left fst snd].
  destruct Hin as [[= -> ->]|Hin].
  - rewrite Hrest by done. destruct (String.eqb_spec field "_id"); [done|reflexivity].
  - assert (f <> field).
    { intros ->. apply Hf. by apply key_In in Hin. }
    rewrite IH by done. apply Hown.
    destruct (String.eqb f "_id"); [reflexivity|]. by apply Hother.
Qed.

Lemma accumulate_other d f a g :
  f <> field -> get (accumulate N d f a g) field = get g field.
Proof.
  intros Hne. unfold accumulate.
  repeat match goal with
  | |- context [if ?b then _ else _] => destruct b
  | |- context [match ?x with _ => _ end] => destruct x
  end; try reflexivity; by apply get_set_ne.
Qed.

Lemma accumulate_own d g g' :
  get g field = get g' field ->
  get (accumulate N d field accumulator g) field
  = get (accumulate N d field accumulator g') field.
Proof.
  intros Heq. unfold accumulate. rewrite <- Heq.
  repeat match goal with
  | |- context [if ?b then _ else _] => destruct b
  | |- context [match ?x with _ => _ end] => destruct x eqn:?
  end; rewrite ?get_set_eq; congruence.
Qed.

(** A state that follows the documents of the group: [st ms] is what the
    field holds after the documents [ms]. *)
Variable st : list doc -> value.
Hypothesis st_initial : initial N accumulator = Some (st []).
Hypothesis st_step : forall d g ms,
  get g field = Some (st ms) ->
  get (accumulate N d field accumulator g) field = Some (st (ms ++ [d])).

Lemma new_group_running groupKey : get (new_group N stage groupKey) field = Some (st []).
Proof.
  unfold new_group.
  rewrite (fold_accumulators
             (fun f a g => match initial N a with Some v => set g f v | None => g end)).
  - rewrite st_initial. apply get_set_eq.
  - intros f a g Hne. destruct (initial N a); [by apply get_set_ne|reflexivity].
  - intros g g' _. rewrite st_initial. by rewrite !get_set_eq.
Qed.

Lemma accumulate_running d g ms :
  get g field = Some (st ms) ->
  get (fold_left (fun g fa => if String.eqb (fst fa) "_id" then g
                              else accumulate N d (fst fa) (snd fa) g)
                 (accumulators stage) g) field
  = Some (st (ms ++ [d])).
Proof.
  intros Hg. rewrite (fold_accumulators (accumulate N d)).
  - by apply st_step.
  - intros f a g0 Hne. by apply accumulate_other.
  - intros g1 g2. apply accumulate_own.
Qed.

(** The groups after the fold: a key has a group exactly when it names no
    member of [Object.prototype] and some document falls under it, and the
    field of the group is in the state of these documents. *)
Lemma fold_documents_running (docs : list doc) :
  NoDup (fold_documents N stage docs).*1 /\
  forall k,
    match get (fold_documents N stage docs) k with
    | Some v =>
        inherited k = false /\ members stage k docs <> [] /\
        exists g, v = VObj g /\ get g field = Some (st (members stage k docs))
    | None => members stage k docs = [] \/ inherited k = true
    end.
Proof.
  unfold fold_documents.
  induction docs as [|d docs IH] using rev_ind.
  - split; [constructor|]. intros k. by left.
  - destruct IH as [Hnd IH]. rewrite fold_left_app. cbn [fold_left].
    set (groups := fold_left (add_document N stage) docs []) in *.
    unfold add_document. cbv zeta.
    assert (Hmem : forall k, members stage k (docs ++ [d]) =
              (members stage k docs ++
               if String.eqb (group_key_str stage d) k then [d] else [])%list).
    { intros k. unfold members. rewrite List.filter_app. cbn [List.filter].
      by destruct (String.eqb (group_key_str stage d) k). }
    destruct (inherited (group_key_str stage d)) eqn:Einh.
    + split; [exact Hnd|]. intros k. rewrite Hmem. specialize (IH k).
      destruct (String.eqb_spec (group_key_str stage d) k) as [<-|Hne].
      * destruct (get groups (group_key_str stage d)) as [v|]; [|by right].
        destruct IH as [Hno _]. congruence.
      * by rewrite app_nil_r.
    + split; [by apply NoDup_set|].
      intros k. rewrite Hmem.
      destruct (String.eqb_spec (group_key_str stage d) k) as [<-|Hne].
      * rewrite get_set_eq. split; [exact Einh|].
        split; [by destruct (members stage _ docs)|].
        eexists. split; [reflexivity|].
        apply accumulate_running.
        specialize (IH (group_key_str stage d)).
        destruct (get groups (group_key_str stage d)) as [v|].
        -- destruct IH as (_ & _ & g & -> & Hg). exact Hg.
        -- destruct IH as [->|Hinh]; [apply new_group_running|congruence].
      * rewrite get_set_ne by done. rewrite app_nil_r. apply IH.
Qed.

(** Finalizing leaves alone a field whose accumulator has no [$avg], and
    puts the average of its state where it has one. *)
Lemma finalize_field g :
  get (finalize N stage g) field =
  if truthy (get accumulator "$avg") then Some (average N (get g field))
  else get g field.
Proof.
  unfold finalize.
  rewrite (fold_accumulators
             (fun f a g => if truthy (get a "$avg")
                           then set g f (average N (get g f)) else g)).
  - destruct (truthy (get accumulator "$avg")); [apply get_set_eq|reflexivity].
  - intros f a g0 Hne. destruct (truthy (get a "$avg")); [by apply get_set_ne|reflexivity].
  - intros g1 g2 Heq. destruct (truthy (get accumulator "$avg")); [|exact Heq].
    by rewrite !get_set_eq, Heq.
Qed.

(** Every group of the result is that of a key which names no member of
    [Object.prototype] and has documents, and holds the finalized state of
    these documents; every document whose key names no such member has its
    group in the result. *)
Lemma grouped_running (docs : list doc) k g :
  In (k, g) (grouped N stage docs) ->
  inherited k = false /\ members stage k docs <> [] /\
  get g field =
    if truthy (get accumulator "$avg")
    then Some (average N (Some (st (members stage k docs))))
    else Some (st (members stage k docs)).
Proof.
  destruct (fold_documents_running docs) as [Hnd Hstate].
  intros Hin. unfold grouped in Hin.
  apply In_fmap in Hin as ([k' v] & Heq & Hin). cbn [fst snd] in Heq.
  injection Heq as -> ->.
  apply (proj1 (In_js_order _ _)) in Hin.
  apply (get_In _ _ _ Hnd) in Hin.
  specialize (Hstate k'). rewrite Hin in Hstate.
  destruct Hstate as (Hno & Hne & g0 & -> & Hg).
  split; [exact Hno|]. split; [exact Hne|].
  by rewrite finalize_field, Hg.
Qed.


End Running.


(** Counting one by one is exact up to 2^53. *)
Lemma running_count_exact N (ms : list doc) :
  Z.of_nat (length ms) <= 2 ^ 53 ->
  running_count N ms = VNum (Z.of_nat (length ms)).
Proof.
  unfold running_count. induction ms as [|d ms IH] using rev_ind; intros Hlen.
  - reflexivity.
  - rewrite length_app in Hlen. cbn [length] in Hlen.
    rewrite fold_left_app. cbn [fold_left]. rewrite IH by lia.
    unfold js_add. cbn [to_primitive is_object].
    rewrite plus_exact.
    + rewrite length_app. cbn [length]. f_equal. lia.
    + apply Z.abs_le. lia.
    + apply Z.abs_le. split; [|intros E]; discriminate.
    + apply Z.abs_le. lia.
Qed.

(** *** The average *)

Section Average.

Variable N : Numeric.
Variable stage : GroupStage.
Variable field : string.
Variable accumulator : doc.

Hypothesis keys_distinct : NoDup (accumulators stage).*1.
Hypothesis declared : In (field, accumulator) (accumulators stage).
Hypothesis not_id : field <> "_id".
Hypothesis no_sum : truthy (get accumulator "$sum") = false.
Hypothesis has_avg : truthy (get accumulator "$avg") = true.





End Average.




End AggregateProps.

(** ** Inserting, deleting, dropping: what a caller can rely on *)

Module StoreExtras.
Import Store InsertSteps Scenarios StoreMore.
Import InsertProps.

Ltac evaluate := vm_compute; reflexivity.

Lemma validate_tables env tableName d s s' :
  tables s' = tables s ->
  _validateDataAgainstSchema env tableName d s' = _validateDataAgainstSchema env tableName d s.
Proof. intros H. unfold _validateDataAgainstSchema. by rewrite H. Qed.

Lemma primaryKey_of_tables_eq s' s tableName :
  tables s' = tables s -> primaryKey_of s' tableName = primaryKey_of s tableName.
Proof. intros H. unfold primaryKey_of. by rewrite H. Qed.

Lemma stored_indexes now tableName newDoc s :
  indexes (stored now tableName newDoc s).2 =
  indexes (_updateIndexes tableName (stored now tableName newDoc s).1
             (length (default [] (data s !! tableName)))
             s).
Proof.
  assert (Hdef : forall l : list doc, default [] (Some l) = l) by reflexivity.
  unfold stored, _updateUniqueKeyMap. cbv zeta. cbn [fst snd].
  cbn [data with_data]. rewrite lookup_insert_eq, Hdef.
  rewrite length_app. cbn [length].
  replace (length (default [] (data s !! tableName)) + 1 - 1)%nat
    with (length (default [] (data s !! tableName))) by lia.
  unfold _updateIndexes. cbn [tables indexes with_indexes with_data].
  destruct (tables s !! tableName); reflexivity.
Qed.

(** X1.  A document inserted into a table that has an index on its primary
    key is found again by [findById] under the key it was stored with,
    whatever else the table holds, provided the text of the key is not
    [__proto__] (the index keeps no entry under that name). *)
Theorem insert_then_findById env now tableName d s newDoc s' rows idx v :
  insert env now tableName d s = (Return newDoc, s') ->
  data s !! tableName = Some rows ->
  (indexes s !! tableName) ≫= (.!! primaryKey_of s tableName) = Some idx ->
  get newDoc (primaryKey_of s tableName) = Some v ->
  to_string v <> "__proto__" ->
  findById tableName v s' = Some newDoc.
Proof.
  intros Hins Hrows Hidx Hv Hplain.
  rewrite insert_eq in Hins. cbv zeta in Hins.
  rewrite (ensured_existing _ _ _ Hrows) in Hins.
  destruct (_validateDataAgainstSchema env tableName d s); [discriminate Hins|].
  destruct (keyed tableName d s) as [nd sa] eqn:Ek.
  destruct (keyed_frame _ _ _ _ _ Ek) as (Ht & Hd & _ & Hi & _).
  destruct (_checkUniqueConstraints tableName nd sa); [|discriminate Hins].
  pose proof (stored_indexes now tableName nd sa) as Hsi.
  pose proof (data_stored now tableName nd sa) as Hsd.
  pose proof (stored_frame now tableName nd sa) as [Hst _].
  destruct (stored now tableName nd sa) as [nd' sb]. cbn [fst snd] in *.
  injection Hins as -> ->.
  unfold findById. rewrite Hsd, lookup_insert_eq.
  rewrite (primaryKey_of_tables_eq s' s) by congruence.
  rewrite Hsi. unfold _updateIndexes. cbn [indexes with_indexes].
  rewrite lookup_insert_eq. cbn [mbind option_bind].
  rewrite Hi, Hd, Hrows. cbn [default id].
  destruct (indexes s !! tableName) as [tidx|] eqn:Et; [|discriminate Hidx].
  cbn [mbind option_bind default id] in *.
  rewrite map_lookup_imap, Hidx. cbn [mbind option_bind]. rewrite Hv.
  rewrite (member_own _ _ (length rows)) by (by apply lookup_assign_eq).
  f_equal. rewrite lookup_app_r by lia. by rewrite Nat.sub_diag.
Qed.

Lemma insert_then_findById_witness :
  findById "t" (VNum 3)
    (state_after (insert env0 "day3" "t" [("n", VStr "c")]) two_rows)
  = Some [("n", VStr "c"); ("id", VNum 3);
          ("_createdAt", VStr "day3"); ("_updatedAt", VStr "day3")].
Proof.
  apply (insert_then_findById env0 "day3" "t" [("n", VStr "c")] two_rows _ _
           (findAll "t" two_rows)
           (default ∅ ((indexes two_rows !! "t") ≫= (.!! "id")))
           (VNum 3)); try evaluate.
  vm_compute. intros E. discriminate E.
Defined.



Lemma max_key_ge pk rows d n :
  d ∈ rows -> get d pk = Some (VNum n) -> n <= max_key pk rows.
Proof.
  unfold max_key. generalize 0. intros acc Hd Hn. revert acc.
  induction Hd as [d rows|d d' rows Hd IH]; intros acc; cbn [fold_left].
  - rewrite Hn. etransitivity; [|apply KeyProps.max_key_from].
    destruct (Z.ltb_spec acc n); lia.
  - by apply IH.
Qed.

(** The maximum of keys below 2^53 is below 2^53, and one past it is
    exact. *)
Lemma max_key_safe pk rows :
  (forall d n, d ∈ rows -> get d pk = Some (VNum n) -> n < 2 ^ 53) ->
  to_double (max_key pk rows + 1) = max_key pk rows + 1.
Proof.
  intros Hsafe. pose proof (KeyProps.max_key_nonneg pk rows) as Hmax.
  assert (Hlt : max_key pk rows < 2 ^ 53).
  { destruct (KeyProps.max_key_in pk rows) as [->|(d & Hd & Hget)]; [reflexivity|].
    by apply (Hsafe d). }
  apply to_double_safe, Z.abs_le. lia.
Qed.

(** X3.  The first key drawn for a table whose counter is not set (a table
    not yet used since the program started, its name being no member of
    [Object.prototype]) is at least 1, and is 1 when the table is empty or
    missing; when the numeric primary keys stored in the table are below
    2^53 it is greater than every one of them.  (From 2^53 on, one past the
    largest key is rounded back to it.) *)
Theorem first_key_is_fresh tableName s k s' :
  primaryKeyMap s !! tableName = None ->
  inherited tableName = false ->
  getNextPrimaryKey tableName s = (Return k, s') ->
  (forall d n, d ∈ default [] (data s !! tableName) ->
               get d (primaryKey_of s tableName) = Some (VNum n) -> n < 2 ^ 53) ->
  1 <= k /\
  (forall d n, d ∈ default [] (data s !! tableName) ->
               get d (primaryKey_of s tableName) = Some (VNum n) -> n < k) /\
  (default [] (data s !! tableName) = [] -> k = 1).
Proof.
  intros Hnone _. unfold getNextPrimaryKey, _calculateNextPrimaryKey. cbv zeta.
  rewrite Hnone.
  pose proof (KeyProps.max_key_nonneg (primaryKey_of s tableName)
                (default [] (data s !! tableName))) as Hmax.
  destruct (data s !! tableName) as [[|row rows]|] eqn:Ed;
    cbn [primaryKeyMap with_primaryKeyMap]; rewrite lookup_insert_eq;
    cbn [default id] in *; intros [= <- _] Hsafe.
  - split; [lia|]. split; [|done]. intros d n Hd. by apply elem_of_nil in Hd.
  - rewrite (max_key_safe _ _ Hsafe).
    split; [lia|]. split; [|intros E; discriminate E].
    intros d n Hd Hn. pose proof (max_key_ge _ _ _ _ Hd Hn). lia.
  - split; [lia|]. split; [|done]. intros d n Hd. by apply elem_of_nil in Hd.
Qed.

Lemma first_key_is_fresh_witness :
  let s := with_primaryKeyMap Session.users_two (∅ : gmap string Z) in
  exists k s', getNextPrimaryKey "u" s = (Return k, s') /\ 1 <= k /\ k <> 2.
Proof.
  intros s.
  destruct (getNextPrimaryKey "u" s) as [[k|e] s'] eqn:E; [|vm_compute in E; discriminate E].
  exists k, s'. split; [reflexivity|].
  assert (Hnone : primaryKeyMap s !! "u" = None) by evaluate.
  destruct (first_key_is_fresh "u" s k s' Hnone eq_refl E) as (H1 & H2 & _).
  { intros d n Hd Hn.
    assert (Hrows : default [] (data s !! "u") =
      [ana_stored;
       [("email", VStr "ben@example.org"); ("id", VNum 2);
        ("_createdAt", VStr "day2"); ("_updatedAt", VStr "day2")]]) by evaluate.
    rewrite Hrows in Hd. assert (Hpk : primaryKey_of s "u" = "id") by evaluate.
    rewrite Hpk in Hn. clear Hrows Hpk E Hnone.
    apply elem_of_cons in Hd as [->|Hd]; [injection Hn as <-; reflexivity|].
    apply elem_of_cons in Hd as [->|Hd]; [injection Hn as <-; reflexivity|].
    apply elem_of_nil in Hd. destruct Hd. }
  split; [exact H1|].
  specialize (H2 [("email", VStr "ben@example.org"); ("id", VNum 2);
                  ("_createdAt", VStr "day2"); ("_updatedAt", VStr "day2")] 2).
  assert (2 < k); [|lia].
  apply H2; [|evaluate].
  vm_compute. apply list_elem_of_further, list_elem_of_here.
Defined.


Lemma findIndex_Some pk id rows i :
  findIndex pk id rows = Some i ->
  exists d, rows !! i = Some d /\ strict_eq (get d pk) (Some id) = true /\
            forall j d', (j < i)%nat -> rows !! j = Some d' ->
                         strict_eq (get d' pk) (Some id) = false.
Proof.
  revert i. induction rows as [|item rows IH]; intros i; cbn [findIndex];
    [intros H; discriminate H|].
  destruct (strict_eq (get item pk) (Some id)) eqn:E.
  - intros [= <-]. exists item. split; [reflexivity|]. split; [exact E|]. lia.
  - destruct (findIndex pk id rows) as [i'|]; cbn [fmap option_fmap option_map];
      intros [= <-].
    destruct (IH i' eq_refl) as (d & Hd & Heq & Hbefore).
    exists d. split; [exact Hd|]. split; [exact Heq|].
    intros [|j] d' Hj; cbn.
    + intros [= <-]. exact E.
    + apply Hbefore. lia.
Qed.



(** X5.  A deletion that answers [true] has removed exactly one document,
    the first of the table whose primary key is the given one: the
    documents before and after it keep their order, the file is written
    once with the new database, and the allocator is as it was. *)
Theorem delete_removes_first_match tableName id s s' :
  delete tableName id s = (Return true, s') ->
  exists rows i d,
    data s !! tableName = Some rows /\ rows !! i = Some d /\
    strict_eq (get d (primaryKey_of s tableName)) (Some id) = true /\
    (forall j d', (j < i)%nat -> rows !! j = Some d' ->
                  strict_eq (get d' (primaryKey_of s tableName)) (Some id) = false) /\
    data s' = <[tableName := (take i rows ++ drop (S i) rows)%list]> (data s) /\
    file s' = Some (data s') /\ writes s' = S (writes s) /\
    primaryKeyMap s' = primaryKeyMap s /\ tables s' = tables s.
Proof.
  unfold delete. destruct (data s !! tableName) as [rows|] eqn:Ed;
    [|intros E; discriminate E].
  destruct (findIndex _ id rows) as [i|] eqn:Ei; [|intros E; discriminate E].
  intros [= <-].
  destruct (findIndex_Some _ _ _ _ Ei) as (d & Hd & Heq & Hbefore).
  exists rows, i, d. do 4 (split; [done|]).
  unfold _removeFromUniqueKeyMap, _removeFromIndexes, splice1.
  destruct (indexes s !! tableName); cbn [tables with_indexes];
    destruct (tables s !! tableName); cbn [uniqueKeyMap with_indexes];
    try destruct (uniqueKeyMap s !! tableName); repeat split; reflexivity.
Qed.

Lemma delete_removes_first_match_witness :
  exists rows i d,
    data two_rows !! "t" = Some rows /\ rows !! i = Some d /\
    data first_deleted = <[ "t" := (take i rows ++ drop (S i) rows)%list ]> (data two_rows).
Proof.
  destruct (delete_removes_first_match "t" (VNum 1) two_rows first_deleted)
    as (rows & i & d & H1 & H2 & _ & _ & H3 & _); [evaluate|].
  exists rows, i, d. auto.
Defined.


End StoreExtras.

(** ** Updating *)

Module UpdateExtras.
Import Store InsertSteps Scenarios StoreMore Invariants.
Import InsertProps.

Ltac evaluate := vm_compute; reflexivity.

Lemma same_but_registry_refl s : same_but_registry s s.
Proof. by repeat split. Qed.

Lemma same_but_registry_trans s1 s2 s3 :
  same_but_registry s1 s2 -> same_but_registry s2 s3 -> same_but_registry s1 s3.
Proof.
  unfold same_but_registry. intros (?&?&?&?&?&?) (?&?&?&?&?&?).
  repeat split; congruence.
Qed.

Lemma registry_apply_frame tableName uniqueKey v f s r s' :
  registry_apply tableName uniqueKey v f s = (r, s') ->
  same_but_registry s s' /\ forall e, r = Throw e -> e = TypeError.
Proof.
  unfold registry_apply. intros H.
  destruct v as [[]|];
    try (injection H as <- <-; split; [apply same_but_registry_refl|intros e E; discriminate E]);
    destruct (uniqueKeyMap s !! tableName) as [sets|];
    try (injection H as <- <-; split; [apply same_but_registry_refl|by intros e [= <-]]);
    destruct (sets !! uniqueKey);
    try (injection H as <- <-; split; [apply same_but_registry_refl|by intros e [= <-]]);
    (injection H as <- <-; split; [by repeat split|intros e E; discriminate E]).
Qed.

(** The registry step of [update] touches the registry only, and the only
    failure it can raise is the [TypeError] of a missing set. *)
Lemma updateUniqueKeyMapForUpdate_frame tableName newData originalData s r s' :
  _updateUniqueKeyMapForUpdate tableName newData originalData s = (r, s') ->
  same_but_registry s s' /\ forall e, r = Throw e -> e = TypeError.
Proof.
  unfold _updateUniqueKeyMapForUpdate.
  destruct (tables s !! tableName) as [cfg|];
    [|intros [= <- <-]; split; [apply same_but_registry_refl|intros e E; discriminate E]].
  generalize (unique_of cfg). intros l. revert s.
  induction l as [|uniqueKey l IH]; intros s;
    [intros [= <- <-]; split; [apply same_but_registry_refl|intros e E; discriminate E]|].
  destruct (strict_eq (get newData uniqueKey) (get originalData uniqueKey)); [apply IH|].
  unfold bind at 1.
  destruct (registry_apply tableName uniqueKey (get originalData uniqueKey) set_delete s)
    as [r1 s1] eqn:E1.
  destruct (registry_apply_frame _ _ _ _ _ _ _ E1) as [F1 T1].
  destruct r1 as [[]|e1]; [|intros [= <- <-]; split; [exact F1|exact T1]].
  unfold bind at 1.
  destruct (registry_apply tableName uniqueKey (get newData uniqueKey) set_add s1)
    as [r2 s2] eqn:E2.
  destruct (registry_apply_frame _ _ _ _ _ _ _ E2) as [F2 T2].
  destruct r2 as [[]|e2].
  - intros H. destruct (IH s2 H) as [F3 T3]. split; [|exact T3].
    eapply same_but_registry_trans; [exact F1|].
    eapply same_but_registry_trans; [exact F2|exact F3].
  - intros [= <- <-]. split; [|exact T2].
    eapply same_but_registry_trans; [exact F1|exact F2].
Qed.

(** X7.  An update that does not return the updated document (the table or
    the document is missing, the schema or a unique constraint is violated,
    the primary key would change) has changed nothing at all; the one
    exception is the [TypeError] of a uniqueness set that is missing, which
    is raised after the document has been replaced. *)
Theorem update_refused env now tableName id newData s r s' :
  update env now tableName id newData s = (r, s') ->
  (forall u, r <> Return (Some u)) ->
  r <> Throw TypeError ->
  s' = s.
Proof.
  unfold update. intros Hup Hnot Hte.
  destruct (data s !! tableName) as [rows|]; [|by injection Hup as _ <-].
  destruct (findIndex _ id rows) as [index|]; [|by injection Hup as _ <-].
  destruct (_validateDataAgainstSchema _ _ _ _); [by injection Hup as _ <-|].
  destruct (_ && _); [by injection Hup as _ <-|].
  destruct (negb _); [by injection Hup as _ <-|].
  match type of Hup with context [_updateUniqueKeyMapForUpdate ?t ?a ?b ?s0] =>
    destruct (_updateUniqueKeyMapForUpdate t a b s0) as [r1 s1] eqn:E1
  end.
  destruct (updateUniqueKeyMapForUpdate_frame _ _ _ _ _ _ E1) as [_ HT].
  destruct r1 as [[]|e].
  - injection Hup as <- _. exfalso. by eapply Hnot.
  - injection Hup as <- _. exfalso. apply Hte. f_equal. by apply HT.
Qed.

Lemma update_refused_witness :
  state_after (update env0 "day3" "t" (VNum 1) [("id", VNum 9)]) two_rows = two_rows.
Proof.
  apply (update_refused env0 "day3" "t" (VNum 1) [("id", VNum 9)] two_rows
           (Throw PrimaryKeyChange)).
  - evaluate.
  - intros u E; discriminate E.
  - intros E; discriminate E.
Defined.

Lemma get_not_key (o : doc) k : k ∉ o.*1 -> get o k = None.
Proof.
  induction o as [|[k' v'] o IH]; [done|].
  cbn [fmap list_fmap fst get]. intros H. apply not_elem_of_cons in H as [Hne H].
  destruct (String.eqb_spec k' k); [congruence|]. by apply IH.
Qed.

(** A property of [{ ...a, ...b }]: the value of [b] when [b] has the key,
    that of [a] otherwise. *)
Lemma get_spread (a b : doc) k :
  NoDup b.*1 ->
  get (spread a b) k = match get b k with Some v => Some v | None => get a k end.
Proof.
  unfold spread. revert a. induction b as [|[k0 v0] b IH]; intros a Hnd; [reflexivity|].
  cbn [fmap list_fmap fst] in Hnd. apply NoDup_cons in Hnd as [Hk0 Hnd].
  cbn [fold_left fst snd get]. rewrite IH by done.
  destruct (String.eqb_spec k0 k) as [->|Hne].
  - rewrite get_not_key by done. apply get_set_eq.
  - by rewrite get_set_ne.
Qed.

Lemma strict_eq_true a b : strict_eq a b = true -> a = b.
Proof.
  destruct a as [[]|], b as [[]|]; cbn; try (intros E; discriminate E); try reflexivity.
  - intros H. apply Bool.eqb_prop in H. by subst.
  - intros H. apply Z.eqb_eq in H. by subst.
  - intros H. apply String.eqb_eq in H. by subst.
Qed.

(** X8.  An update that returns a document has replaced, in place, the
    first document of the table with the given primary key (no document
    before it has that key) by the merge of the old document and the
    patch, stamped with the time of the update:
    the table keeps its length and its other documents, the file is written
    once, the allocator is untouched.  The primary key of the document is
    unchanged (the patch being an object with distinct keys and the primary
    key not being [_updatedAt]). *)
Theorem update_in_place env now tableName id newData s u s' :
  update env now tableName id newData s = (Return (Some u), s') ->
  exists rows i original,
    data s !! tableName = Some rows /\ rows !! i = Some original /\
    strict_eq (get original (primaryKey_of s tableName)) (Some id) = true /\
    (forall j d', (j < i)%nat -> rows !! j = Some d' ->
                  strict_eq (get d' (primaryKey_of s tableName)) (Some id) = false) /\
    u = spread (spread original newData) [("_updatedAt", VStr now)] /\
    get u "_updatedAt" = Some (VStr now) /\
    data s' = <[tableName := <[i := u]> rows]> (data s) /\
    length (<[i := u]> rows) = length rows /\
    primaryKeyMap s' = primaryKeyMap s /\ tables s' = tables s /\
    file s' = Some (data s') /\ writes s' = S (writes s) /\
    (NoDup newData.*1 -> primaryKey_of s tableName <> "_updatedAt" ->
     get u (primaryKey_of s tableName) = get original (primaryKey_of s tableName)).
Proof.
  unfold update.
  destruct (data s !! tableName) as [rows|] eqn:Ed; [|intros Hup; discriminate Hup].
  destruct (findIndex _ id rows) as [i|] eqn:Ei; [|intros Hup; discriminate Hup].
  destruct (StoreExtras.findIndex_Some _ _ _ _ Ei) as (original & Hi & Heq & Hfirst).
  rewrite Hi. change (default [] (Some original)) with original.
  destruct (_validateDataAgainstSchema _ _ _ _); [intros Hup; discriminate Hup|].
  destruct (has_defined (get newData (primaryKey_of s tableName)) && _) eqn:Epk;
    [intros Hup; discriminate Hup|].
  destruct (negb (_checkUniqueConstraintsForUpdate _ _ _ _));
    [intros Hup; discriminate Hup|].
  match goal with |- context [_updateUniqueKeyMapForUpdate ?t ?a ?b ?s0] =>
    destruct (_updateUniqueKeyMapForUpdate t a b s0) as [r1 s1] eqn:E1
  end.
  destruct (updateUniqueKeyMapForUpdate_frame _ _ _ _ _ _ E1) as [HF _].
  destruct r1 as [[]|e]; [|intros Hup; discriminate Hup].
  intros Hup.
  injection Hup as <- <-.
  destruct HF as (Ht & Hd & Hp & _ & Hf & Hw).
  exists rows, i, original. do 4 (split; [done|]). split; [reflexivity|].
  split; [apply get_set_eq|].
  assert (Hframe : forall d0 n s0, data (_updateIndexes tableName d0 n s0) = data s0 /\
                     tables (_updateIndexes tableName d0 n s0) = tables s0 /\
                     primaryKeyMap (_updateIndexes tableName d0 n s0) = primaryKeyMap s0 /\
                     writes (_updateIndexes tableName d0 n s0) = writes s0)
    by (intros; by repeat split).
  assert (Hrem : forall d0, data (_removeFromIndexes tableName d0 s) = data s /\
                   tables (_removeFromIndexes tableName d0 s) = tables s /\
                   primaryKeyMap (_removeFromIndexes tableName d0 s) = primaryKeyMap s /\
                   writes (_removeFromIndexes tableName d0 s) = writes s).
  { intros d0. unfold _removeFromIndexes. by destruct (indexes s !! tableName). }
  destruct (Hrem original) as (Hrd & Hrt & Hrp & Hrw).
  cbn [data tables primaryKeyMap file writes saveDatabase].
  cbn [data tables primaryKeyMap writes _updateIndexes with_indexes with_data] in Hd, Ht, Hp, Hw.
  rewrite Hd, Ht, Hp, Hw, Hrd, Hrt, Hrp, Hrw.
  split; [reflexivity|]. split; [apply length_insert|].
  do 4 (split; [reflexivity|]).
  intros Hnd Hne. unfold spread at 1. cbn [fold_left fst snd].
  rewrite get_set_ne by done. fold (spread original newData).
  rewrite get_spread by done.
  destruct (get newData (primaryKey_of s tableName)) as [v|] eqn:En; [|reflexivity].
  cbn [has_defined andb] in Epk. apply negb_false_iff in Epk.
  by apply strict_eq_true in Epk.
Qed.

Lemma update_in_place_witness :
  exists u s', update env0 "day3" "t" (VNum 2) [("n", VStr "z")] two_rows
               = (Return (Some u), s') /\
               get u "id" = Some (VNum 2) /\ get u "n" = Some (VStr "z") /\
               get u "_updatedAt" = Some (VStr "day3").
Proof.
  destruct (update env0 "day3" "t" (VNum 2) [("n", VStr "z")] two_rows)
    as [[[u|]|e] s'] eqn:E; try (vm_compute in E; discriminate E).
  exists u, s'. split; [reflexivity|].
  destruct (update_in_place env0 "day3" "t" (VNum 2) [("n", VStr "z")] two_rows u s' E)
    as (rows & i & original & Hrows & Hi & _ & _ & Hu & Hstamp & _).
  split; [|split; [|exact Hstamp]].
  - vm_compute in E. injection E as <- _. reflexivity.
  - vm_compute in E. injection E as <- _. reflexivity.
Defined.

End UpdateExtras.

(** ** Indexes: what an insert keeps, what a rebuild gives *)

Module IndexExtras.
Import Store InsertSteps Scenarios StoreMore Invariants.
Import InsertProps.

Ltac evaluate := vm_compute; reflexivity.

Lemma insert_result env now tableName d s newDoc s' :
  insert env now tableName d s = (Return newDoc, s') ->
  let rows := default [] (data s !! tableName) in
  let tidx := default ∅ (indexes (ensured tableName s) !! tableName) in
  data s' = <[tableName := (rows ++ [newDoc])%list]> (data (ensured tableName s)) /\
  indexes s' =
    <[tableName :=
        map_imap (fun field idx =>
                    Some match get newDoc field with
                         | Some v => assign idx (to_string v) (length rows)
                         | None => idx
                         end) tidx]> (indexes (ensured tableName s)) /\
  tables s' = tables s.
Proof.
  intros Hins. cbv zeta.
  rewrite insert_eq in Hins. cbv zeta in Hins.
  destruct (_validateDataAgainstSchema env tableName d _); [discriminate Hins|].
  destruct (keyed tableName d (ensured tableName s)) as [nd sa] eqn:Ek.
  destruct (keyed_frame _ _ _ _ _ Ek) as (Ht & Hd & _ & Hi & _).
  destruct (_checkUniqueConstraints tableName nd sa); [|discriminate Hins].
  pose proof (StoreExtras.stored_indexes now tableName nd sa) as Hsi.
  pose proof (data_stored now tableName nd sa) as Hsd.
  pose proof (stored_frame now tableName nd sa) as [Hst _].
  destruct (stored now tableName nd sa) as [nd' sb]. cbn [fst snd] in *.
  injection Hins as -> ->.
  rewrite Hsd, Hsi. unfold _updateIndexes. cbn [indexes with_indexes].
  rewrite Hd, Hi, data_ensured. cbn [default id].
  split; [reflexivity|]. split; [reflexivity|].
  rewrite Hst, Ht. apply tables_ensured.
Qed.

(** X9.  An insert keeps the indexes right when it brings new keys: if
    every index entry points to the position of its document, and no index
    of the table already has an entry under the key of a value of the new
    document, and none of these keys is [__proto__] (under which an index
    keeps nothing), then after the insert every index entry still points to
    the position of its document.  The indexed fields are plain: none has
    the name of a member of [Object.prototype]. *)
Theorem insert_keeps_index_consistent env now tableName d s newDoc s' :
  index_consistent s ->
  plain_indexes s ->
  insert env now tableName d s = (Return newDoc, s') ->
  (forall tidx field idx v,
      indexes s !! tableName = Some tidx -> tidx !! field = Some idx ->
      get newDoc field = Some v ->
      idx !! to_string v = None /\ to_string v <> "__proto__") ->
  index_consistent s'.
Proof.
  intros Hcons _ Hins Hfresh.
  destruct (insert_result _ _ _ _ _ _ _ Hins) as (Hdata & Hidx & _).
  intros t rows' tidx' field idx' i d0 v Hrows' Htidx' Hfield Hi Hv.
  rewrite Hdata in Hrows'. rewrite Hidx in Htidx'.
  destruct (decide (t = tableName)) as [->|Hne].
  - rewrite lookup_insert_eq in Hrows'. rewrite lookup_insert_eq in Htidx'.
    injection Hrows' as <-. injection Htidx' as <-.
    rewrite map_lookup_imap in Hfield.
    destruct (default ∅ (indexes (ensured tableName s) !! tableName) !! field)
      as [idx0|] eqn:E0; [|discriminate Hfield].
    cbn [mbind option_bind] in Hfield. injection Hfield as <-.
    unfold ensured in E0.
    destruct (data s !! tableName) as [rows|] eqn:Ed.
    + cbn [default id] in *.
      destruct (indexes s !! tableName) as [tidx|] eqn:Et;
        [|cbn [default id] in E0; rewrite lookup_empty in E0; discriminate E0].
      cbn [default id] in E0.
      pose proof (lookup_lt_Some _ _ _ Hi) as Hlen.
      rewrite length_app in Hlen. cbn [length] in Hlen.
      destruct (decide (i < length rows)%nat) as [Hlt|Hge].
      * rewrite lookup_app_l in Hi by done.
        pose proof (Hcons tableName rows tidx field idx0 i d0 v Ed Et E0 Hi Hv) as Hold.
        destruct (get newDoc field) as [vn|] eqn:En; [|exact Hold].
        destruct (decide (to_string vn = to_string v)) as [Heq|Hdiff].
        -- destruct (Hfresh tidx field idx0 vn eq_refl E0 En) as [Hf _].
           rewrite Heq in Hf. congruence.
        -- by rewrite lookup_assign_ne.
      * assert (i = length rows) as -> by lia.
        rewrite lookup_app_r in Hi by lia. rewrite Nat.sub_diag in Hi.
        injection Hi as <-. rewrite Hv. apply lookup_assign_eq.
        by destruct (Hfresh tidx field idx0 v eq_refl E0 Hv).
    + cbn [indexes with_indexes with_data] in E0. rewrite lookup_insert_eq in E0.
      cbn [default id] in E0. rewrite lookup_empty in E0. discriminate E0.
  - rewrite lookup_insert_ne in Hrows' by done. rewrite lookup_insert_ne in Htidx' by done.
    unfold ensured in Hrows', Htidx'.
    destruct (data s !! tableName) eqn:Ed.
    + by eapply Hcons.
    + cbn [data indexes with_indexes with_data] in Hrows', Htidx'.
      rewrite lookup_insert_ne in Hrows' by done.
      rewrite lookup_insert_ne in Htidx' by done. by eapply Hcons.
Qed.

Lemma insert_keeps_index_consistent_witness :
  index_consistent (state_after (insert env0 "day3" "t" [("n", VStr "c")]) two_rows).
Proof.
  apply (insert_keeps_index_consistent env0 "day3" "t" [("n", VStr "c")] two_rows
           [("n", VStr "c"); ("id", VNum 3);
            ("_createdAt", VStr "day3"); ("_updatedAt", VStr "day3")]).
  - exact IndexProps.two_rows_consistent.
  - intros t tidx field Ht [idx Hf].
    assert (Hindexes : indexes two_rows =
      {[ "t" := {[ "id" := {[ "1" := 0%nat; "2" := 1%nat ]} ]} ]}) by evaluate.
    rewrite Hindexes in Ht. clear Hindexes.
    apply lookup_singleton_Some in Ht as [<- <-].
    apply lookup_singleton_Some in Hf as [<- _]. reflexivity.
  - evaluate.
  - intros tidx field idx v Ht Hf Hv.
    assert (Hindexes : indexes two_rows =
      {[ "t" := {[ "id" := {[ "1" := 0%nat; "2" := 1%nat ]} ]} ]}) by evaluate.
    rewrite Hindexes in Ht. clear Hindexes.
    rewrite lookup_singleton_eq in Ht. injection Ht as <-.
    apply lookup_singleton_Some in Hf as [<- <-].
    simpl in Hv. injection Hv as <-.
    split; [evaluate|]. vm_compute. intros E. discriminate E.
Defined.

(** *** Rebuilding an index *)

Lemma index_rows_snoc field rows d :
  index_rows field (rows ++ [d]) =
  match get d field with
  | Some v => assign (index_rows field rows) (to_string v) (length rows)
  | None => index_rows field rows
  end.
Proof.
  unfold index_rows. rewrite imap_app, fold_left_app. cbn [imap fold_left fst snd].
  by rewrite Nat.add_0_r.
Qed.

Lemma index_rows_proto field rows : index_rows field rows !! "__proto__" = None.
Proof.
  induction rows as [|d rows IH] using rev_ind; [apply lookup_empty|].
  rewrite index_rows_snoc. destruct (get d field) as [v|]; [|exact IH].
  unfold assign. destruct (String.eqb_spec (to_string v) "__proto__") as [_|Hne];
    [exact IH|]. by rewrite lookup_insert_ne.
Qed.

Lemma index_rows_last field rows k i :
  k <> "__proto__" ->
  index_rows field rows !! k = Some i <-> last_with_key field rows k i.
Proof.
  intros Hplain. revert i. induction rows as [|d rows IH] using rev_ind; intros i.
  - unfold index_rows, last_with_key. cbn. rewrite lookup_empty.
    split; [intros E; discriminate E|]. intros [(d & v & Hd & _) _]. discriminate Hd.
  - rewrite index_rows_snoc. unfold last_with_key in *.
    assert (Hkey : forall v, get d field = Some v -> to_string v = k ->
                   (i = length rows <->
                    (exists d0 v0, (rows ++ [d])%list !! i = Some d0 /\ get d0 field = Some v0 /\
                                   to_string v0 = k) /\
                    (forall j d0 v0, (i < j)%nat -> (rows ++ [d])%list !! j = Some d0 ->
                                     get d0 field = Some v0 -> to_string v0 <> k))).
    { intros v Hv Hk. split.
      - intros ->. split.
        + exists d, v. rewrite lookup_app_r by lia. by rewrite Nat.sub_diag.
        + intros j d0 v0 Hj Hd0. apply lookup_lt_Some in Hd0.
          rewrite length_app in Hd0. cbn in Hd0. lia.
      - intros [(d0 & v0 & Hd0 & _) Hlast].
        pose proof (lookup_lt_Some _ _ _ Hd0) as Hlt. rewrite length_app in Hlt. cbn in Hlt.
        destruct (decide (i = length rows)) as [|Hne]; [done|]. exfalso.
        apply (Hlast (length rows) d v); [lia| |done|done].
        rewrite lookup_app_r by lia. by rewrite Nat.sub_diag. }
    assert (Hother : (forall v, get d field = Some v -> to_string v <> k) ->
                     ((exists d0 v0, rows !! i = Some d0 /\ get d0 field = Some v0 /\
                                     to_string v0 = k) /\
                      (forall j d0 v0, (i < j)%nat -> rows !! j = Some d0 ->
                                       get d0 field = Some v0 -> to_string v0 <> k)
                      <->
                      (exists d0 v0, (rows ++ [d])%list !! i = Some d0 /\ get d0 field = Some v0 /\
                                     to_string v0 = k) /\
                      (forall j d0 v0, (i < j)%nat -> (rows ++ [d])%list !! j = Some d0 ->
                                       get d0 field = Some v0 -> to_string v0 <> k))).
    { intros Hd. split.
      - intros [(d0 & v0 & Hd0 & Hv0 & Hk0) Hlast]. split.
        + exists d0, v0. rewrite lookup_app_l by (by eapply lookup_lt_Some). done.
        + intros j d1 v1 Hj Hd1 Hv1.
          destruct (decide (j < length rows)%nat) as [Hlt|Hge].
          * rewrite lookup_app_l in Hd1 by done. by eapply Hlast.
          * pose proof (lookup_lt_Some _ _ _ Hd1) as Hl. rewrite length_app in Hl. cbn in Hl.
            assert (j = length rows) as -> by lia.
            rewrite lookup_app_r in Hd1 by lia. rewrite Nat.sub_diag in Hd1.
            injection Hd1 as <-. by apply Hd.
      - intros [(d0 & v0 & Hd0 & Hv0 & Hk0) Hlast].
        assert (Hlt : (i < length rows)%nat).
        { pose proof (lookup_lt_Some _ _ _ Hd0) as Hl. rewrite length_app in Hl. cbn in Hl.
          destruct (decide (i = length rows)) as [->|]; [|lia].
          rewrite lookup_app_r in Hd0 by lia. rewrite Nat.sub_diag in Hd0.
          injection Hd0 as <-. exfalso. by eapply Hd. }
        rewrite lookup_app_l in Hd0 by done. split; [by exists d0, v0|].
        intros j d1 v1 Hj Hd1. apply (Hlast j d1 v1 Hj).
        rewrite lookup_app_l by (by eapply lookup_lt_Some). done. }
    destruct (get d field) as [v|] eqn:Ev.
    + destruct (decide (to_string v = k)) as [Hk|Hk].
      * rewrite <- Hk at 1. rewrite lookup_assign_eq by congruence.
        rewrite <- (Hkey v eq_refl Hk).
        split; [by intros [= <-]|by intros ->].
      * rewrite lookup_assign_ne by done. rewrite IH. apply Hother.
        intros v0 [= <-]. done.
    + rewrite IH. apply Hother. intros v0 E. discriminate E.
Qed.

(** X10.  [createIndex] on a table builds the index from the documents
    (the field being plain: not the name of a member of
    [Object.prototype]): under every key but [__proto__] there is the
    position of the last document whose value on the field has that key,
    the key of a value being its text, and under [__proto__] there is
    nothing.  A single-field query on the field is then answered with the
    document at the position found under the key of the queried value;
    where nothing is found it is answered with no document, or with the
    one element [undefined] when the key names a member of
    [Object.prototype]. *)
Theorem createIndex_last_wins tableName field s rows :
  data s !! tableName = Some rows ->
  inherited field = false ->
  let s' := state_after (createIndex tableName field) s in
  result_of (createIndex tableName field) s = Return true /\
  data s' = data s /\
  exists idx,
    (indexes s' !! tableName) ≫= (.!! field) = Some idx /\
    (forall k i, k <> "__proto__" ->
                 (idx !! k = Some i <-> last_with_key field rows k i)) /\
    idx !! "__proto__" = None /\
    (forall q, find tableName (Some [(field, q)]) s' =
               match idx !! to_string q with
               | Some i => [rows !! i]
               | None => if inherited (to_string q) then [None] else []
               end).
Proof.
  intros Hrows _. unfold result_of, state_after, createIndex. rewrite Hrows.
  cbn [fst snd]. split; [reflexivity|].
  unfold _createIndex. rewrite Hrows. cbn [data with_indexes].
  split; [reflexivity|].
  exists (index_rows field rows).
  cbn [indexes with_indexes]. rewrite lookup_insert_eq. cbn [mbind option_bind].
  rewrite lookup_insert_eq.
  split; [reflexivity|]. split; [intros k i Hk; exact (index_rows_last field rows k i Hk)|].
  split; [apply index_rows_proto|].
  intros q. unfold find. cbn [data indexes with_indexes]. rewrite Hrows.
  rewrite lookup_insert_eq. cbn [mbind option_bind]. rewrite lookup_insert_eq.
  unfold member. destruct (index_rows field rows !! to_string q); [reflexivity|].
  by destruct (inherited (to_string q)).
Qed.

Lemma createIndex_last_wins_witness :
  exists idx,
    (indexes (state_after (createIndex "t" "n") two_rows) !! "t") ≫= (.!! "n") = Some idx /\
    idx !! "b" = Some 1%nat.
Proof.
  destruct (createIndex_last_wins "t" "n" two_rows (findAll "t" two_rows)
              ltac:(evaluate) ltac:(reflexivity))
    as (_ & _ & idx & Hidx & Hlast & _).
  exists idx. split; [exact Hidx|].
  apply Hlast; [intros E; discriminate E|]. split.
  - eexists _, (VStr "b"). split; [evaluate|]. split; evaluate.
  - intros j d v Hj Hd. apply lookup_lt_Some in Hd. vm_compute in Hd. lia.
Defined.

End IndexExtras.

(** ** Opening, restoring, importing, rolling back *)

Module LifecycleExtras.
Import Store InsertSteps Scenarios StoreMore Invariants.
Import InsertProps.

Ltac evaluate := vm_compute; reflexivity.

Lemma fold_left_invariant {A B} (P : A -> Prop) (f : A -> B -> A) (l : list B) (a : A) :
  P a -> (forall a b, P a -> P (f a b)) -> P (fold_left f l a).
Proof.
  intros Ha Hf. revert a Ha. induction l as [|b l IH]; intros a Ha; [exact Ha|].
  cbn [fold_left]. apply IH. by apply Hf.
Qed.

(** [_initializeUniqueKeyMaps] rebuilds the registry and touches nothing
    else. *)
Lemma initializeUniqueKeyMaps_frame s :
  same_but_registry s (_initializeUniqueKeyMaps s).
Proof.
  unfold _initializeUniqueKeyMaps.
  apply (fold_left_invariant (same_but_registry s)); [by repeat split|].
  intros a n Ha.
  eapply UpdateExtras.same_but_registry_trans; [exact Ha|].
  destruct (uniqueKeyMap a !! n); cbn [tables with_uniqueKeyMap];
    destruct (tables a !! n); by repeat split.
Qed.

Lemma createIndex_frame tableName field s : same_but_derived s (_createIndex tableName field s).
Proof. by repeat split. Qed.

Lemma calculateNextPrimaryKey_frame tableName pk s :
  same_but_derived s (_calculateNextPrimaryKey tableName pk s).
Proof.
  unfold _calculateNextPrimaryKey. destruct (data s !! tableName) as [[|]|]; by repeat split.
Qed.

Lemma same_but_derived_trans s1 s2 s3 :
  same_but_derived s1 s2 -> same_but_derived s2 s3 -> same_but_derived s1 s3.
Proof.
  unfold same_but_derived. intros (?&?&?&?&?) (?&?&?&?&?). repeat split; congruence.
Qed.

Lemma index_step_frame s n : same_but_derived s (index_step s n).
Proof.
  unfold index_step. cbv zeta.
  set (s0 := match indexes s !! n with Some _ => s | None => _ end).
  assert (H0 : same_but_derived s s0) by (unfold s0; destruct (indexes s !! n); by repeat split).
  destruct (tables s0 !! n) as [tc|]; [|exact H0].
  eapply same_but_derived_trans; [exact H0|].
  eapply same_but_derived_trans; [|apply calculateNextPrimaryKey_frame].
  apply (fold_left_invariant (same_but_derived s0)).
  - apply createIndex_frame.
  - intros a f Ha. eapply same_but_derived_trans; [exact Ha|apply createIndex_frame].
Qed.

Lemma initializeIndexes_frame s : same_but_derived s (_initializeIndexes s).
Proof.
  unfold _initializeIndexes. fold index_step.
  apply (fold_left_invariant (same_but_derived s)); [by repeat split|].
  intros a n Ha. eapply same_but_derived_trans; [exact Ha|apply index_step_frame].
Qed.

Lemma index_step_counter s n t :
  primaryKeyMap (index_step s n) !! t =
  match decide (n = t), tables s !! n with
  | left _, Some tc =>
      Some (start_counter (pk_or_id (primaryKey tc)) (default [] (data s !! n)))
  | _, _ => primaryKeyMap s !! t
  end.
Proof.
  unfold index_step. cbv zeta.
  set (s0 := match indexes s !! n with Some _ => s | None => _ end).
  assert (H0 : tables s0 = tables s /\ data s0 = data s /\ primaryKeyMap s0 = primaryKeyMap s)
    by (unfold s0; destruct (indexes s !! n); by repeat split).
  destruct H0 as (Ht0 & Hd0 & Hp0). rewrite Ht0.
  destruct (tables s !! n) as [tc|]; [|by destruct (decide (n = t)); rewrite Hp0].
  set (s1 := fold_left _ _ _).
  assert (H1 : data s1 = data s /\ primaryKeyMap s1 = primaryKeyMap s).
  { unfold s1. rewrite <- Hd0, <- Hp0.
    apply (fold_left_invariant (fun a => data a = data s0 /\ primaryKeyMap a = primaryKeyMap s0));
      [by split|]. intros a f [? ?]. by split. }
  destruct H1 as [Hd1 Hp1].
  unfold _calculateNextPrimaryKey, start_counter. rewrite Hd1.
  destruct (data s !! n) as [[|row rows]|]; cbn [primaryKeyMap with_primaryKeyMap default id];
    rewrite Hp1; destruct (decide (n = t)) as [->|Hne];
    by rewrite ?lookup_insert_eq, ?lookup_insert_ne by done.
Qed.

Lemma initializeIndexes_counter s t tc rows :
  tables s !! t = Some tc -> data s !! t = Some rows ->
  primaryKeyMap (_initializeIndexes s) !! t
  = Some (start_counter (pk_or_id (primaryKey tc)) rows).
Proof.
  intros Htc Hrows. unfold _initializeIndexes. fold index_step.
  assert (Hin : t ∈ table_names s).
  { unfold table_names. apply list_elem_of_fmap. exists (t, rows). split; [done|].
    by apply elem_of_map_to_list. }
  revert Hin. generalize (table_names s). intros l Hin.
  assert (Hgen : forall l a,
    tables a = tables s -> data a = data s ->
    primaryKeyMap (fold_left index_step l a) !! t =
    if decide (t ∈ l) then Some (start_counter (pk_or_id (primaryKey tc)) rows)
    else primaryKeyMap a !! t).
  { clear l Hin. induction l as [|n l IH]; intros a Hta Hda.
    - cbn [fold_left]. by destruct (decide (t ∈ [])) as [H|]; [apply elem_of_nil in H|].
    - cbn [fold_left].
      destruct (index_step_frame a n) as (Ht' & Hd' & _).
      rewrite IH by congruence.
      destruct (decide (t ∈ l)) as [Hl|Hl].
      + by destruct (decide (t ∈ n :: l)) as [|Hn]; [|exfalso; apply Hn; by right].
      + rewrite index_step_counter.
        destruct (decide (n = t)) as [->|Hne].
        * rewrite Hta, Htc, Hda, Hrows. cbn [default id].
          by destruct (decide (t ∈ t :: l)) as [|Hn]; [|exfalso; apply Hn; by left].
        * destruct (decide (t ∈ n :: l)) as [Hn|]; [|done].
          apply elem_of_cons in Hn as [->|Hn]; done. }
  rewrite Hgen by done. by destruct (decide (t ∈ l)).
Qed.

(** *** The registry that is rebuilt *)





(** X11.  Opening a file loads the database it holds, as it is, and sets
    the counter of every configured table found in it (the name of the
    table not being that of a member of [Object.prototype]) to one past its
    largest numeric primary key, rounded as a double, and to 1 for an
    empty table; the counter is at least 1, and when the numeric primary
    keys stored in the table are below 2^53 it is above every one of them.
    Nothing is written. *)
Theorem open_loads (config_tables : gmap string TableConfig)
    (db : gmap string (list doc)) (written : nat) :
  let s := open config_tables (Some db) written in
  data s = db /\ tables s = config_tables /\ file s = Some db /\ writes s = written /\
  forall t tc rows,
    inherited t = false ->
    config_tables !! t = Some tc -> db !! t = Some rows ->
    primaryKeyMap s !! t = Some (start_counter (pk_or_id (primaryKey tc)) rows) /\
    1 <= start_counter (pk_or_id (primaryKey tc)) rows /\
    ((forall d n, d ∈ rows -> get d (primaryKey_of s t) = Some (VNum n) -> n < 2 ^ 53) ->
     forall d n, d ∈ rows -> get d (primaryKey_of s t) = Some (VNum n) ->
                 n < start_counter (pk_or_id (primaryKey tc)) rows).
Proof.
  cbv zeta. unfold open.
  set (s0 := with_data _ db).
  destruct (initializeUniqueKeyMaps_frame s0) as (Ht1 & Hd1 & _ & _ & Hf1 & Hw1).
  destruct (initializeIndexes_frame (_initializeUniqueKeyMaps s0)) as (Ht2 & Hd2 & _ & Hf2 & Hw2).
  split; [by rewrite Hd2, Hd1|]. split; [by rewrite Ht2, Ht1|].
  split; [by rewrite Hf2, Hf1|]. split; [by rewrite Hw2, Hw1|].
  intros t tc rows _ Htc Hrows.
  split; [apply initializeIndexes_counter; [by rewrite Ht1|by rewrite Hd1]|].
  assert (Hpk : primaryKey_of (_initializeIndexes (_initializeUniqueKeyMaps s0)) t
                = pk_or_id (primaryKey tc)).
  { unfold primaryKey_of. rewrite Ht2, Ht1. cbn [tables s0 with_data]. by rewrite Htc. }
  rewrite Hpk. unfold start_counter.
  destruct rows as [|row rows].
  - split; [done|]. intros _ d n Hd. by apply elem_of_nil in Hd.
  - split; [apply KeyProps.to_double_succ_pos, KeyProps.max_key_nonneg|].
    intros Hsafe d n Hd Hn. rewrite (StoreExtras.max_key_safe _ _ Hsafe).
    pose proof (StoreExtras.max_key_ge _ _ _ _ Hd Hn). lia.
Qed.


End LifecycleExtras.

(** ** Unique fields: the invariant, and what a rollback leaves *)

Module UniqueExtras.
Import Store InsertSteps Scenarios StoreMore Invariants.
Import InsertProps.

Ltac evaluate := vm_compute; reflexivity.

Lemma updateUniqueKeyMap_ext tableName d a b :
  tables a = tables b -> uniqueKeyMap a = uniqueKeyMap b ->
  uniqueKeyMap (_updateUniqueKeyMap tableName d a)
  = uniqueKeyMap (_updateUniqueKeyMap tableName d b).
Proof.
  intros Ht Hu. unfold _updateUniqueKeyMap. rewrite Ht.
  destruct (tables b !! tableName); cbn [uniqueKeyMap with_uniqueKeyMap]; by rewrite Hu.
Qed.

Lemma stored_registry now tableName nd sa :
  (stored now tableName nd sa).1
  = set (set nd "_createdAt" (VStr now)) "_updatedAt" (VStr now) /\
  uniqueKeyMap (stored now tableName nd sa).2
  = uniqueKeyMap (_updateUniqueKeyMap tableName (stored now tableName nd sa).1 sa).
Proof.
  unfold stored. cbv zeta. cbn [fst snd]. split; [reflexivity|].
  cbn [uniqueKeyMap saveDatabase]. by apply updateUniqueKeyMap_ext.
Qed.

(** The stages of an insert that returns. *)
Lemma insert_stages env now tableName d s newDoc s' :
  insert env now tableName d s = (Return newDoc, s') ->
  exists nd sa,
    keyed tableName d (ensured tableName s) = (nd, sa) /\
    _checkUniqueConstraints tableName nd sa = true /\
    newDoc = set (set nd "_createdAt" (VStr now)) "_updatedAt" (VStr now) /\
    tables s' = tables s /\ tables sa = tables s /\
    uniqueKeyMap sa = uniqueKeyMap s /\
    uniqueKeyMap s' = uniqueKeyMap (_updateUniqueKeyMap tableName newDoc sa) /\
    data s' = <[tableName := (default [] (data s !! tableName) ++ [newDoc])%list]>
                (data (ensured tableName s)).
Proof.
  intros Hins. rewrite insert_eq in Hins. cbv zeta in Hins.
  destruct (_validateDataAgainstSchema env tableName d _); [discriminate Hins|].
  destruct (keyed tableName d (ensured tableName s)) as [nd sa] eqn:Ek.
  destruct (keyed_frame _ _ _ _ _ Ek) as (Ht & Hd & Hu & _).
  destruct (_checkUniqueConstraints tableName nd sa) eqn:Ec; [|discriminate Hins].
  pose proof (data_stored now tableName nd sa) as Hsd.
  pose proof (stored_frame now tableName nd sa) as [Hst _].
  pose proof (stored_registry now tableName nd sa) as [Hs1 Hsu].
  destruct (stored now tableName nd sa) as [nd' sb]. cbn [fst snd] in *.
  injection Hins as <- <-.
  rewrite tables_ensured in Ht. rewrite uniqueKeyMap_ensured in Hu.
  exists nd, sa. split; [reflexivity|]. split; [exact Ec|]. split; [exact Hs1|].
  split; [congruence|]. split; [exact Ht|]. split; [exact Hu|]. split; [exact Hsu|].
  rewrite Hsd, Hd, data_ensured. reflexivity.
Qed.

Lemma get_stamped (nd : doc) now f :
  f <> "_createdAt" -> f <> "_updatedAt" ->
  get (set (set nd "_createdAt" (VStr now)) "_updatedAt" (VStr now)) f = get nd f.
Proof. intros H1 H2. by rewrite !get_set_ne. Qed.

(** X13.  A rollback does not undo the registry: after a transaction that
    inserted a document and then failed, the documents are those of before,
    but the value the document had on a unique field is still taken, and an
    insert that brings it again is refused. *)
Theorem rolled_back_value_stays_reserved
    env now1 now2 tableName cfg f d1 d2 v doc1 s s1 (e : error) :
  tables s !! tableName = Some cfg ->
  f ∈ unique_of cfg ->
  insert env now1 tableName d1 s = (Return doc1, s1) ->
  get doc1 f = Some v ->
  get d2 f = Some v ->
  is_scalar v = true ->
  _validateDataAgainstSchema env tableName d2 s = None ->
  let s' := state_after (transaction (do _ <- insert env now1 tableName d1; throw e : M unit)) s in
  data s' = data s /\
  result_of (insert env now2 tableName d2) s' = Throw UniqueViolation.
Proof.
  intros Hcfg Hf Hins1 Hdoc1 Hd2 Hv Hvalid. cbv zeta.
  assert (Hs' : state_after (transaction (do _ <- insert env now1 tableName d1; throw e : M unit)) s
                = with_data s1 (data s)).
  { unfold state_after, transaction, bind, throw. by rewrite Hins1. }
  rewrite Hs'. split; [reflexivity|].
  destruct (insert_stages _ _ _ _ _ _ _ Hins1)
    as (nd & sa & _ & _ & _ & Ht1 & Hta & _ & Hu1 & _).
  destruct (registry_after_update tableName doc1 sa cfg f v)
    as (sets & members & Hsets & Hmem & Hhas); try done; [congruence|].
  rewrite <- Hu1 in Hsets.
  set (s' := with_data s1 (data s)).
  unfold result_of. rewrite insert_eq. cbv zeta.
  rewrite (StoreExtras.validate_tables env tableName d2 s (ensured tableName s'))
    by (rewrite tables_ensured; exact Ht1).
  rewrite Hvalid.
  destruct (keyed tableName d2 (ensured tableName s')) as [nd2 s2] eqn:Ek2.
  destruct (keyed_frame _ _ _ _ _ Ek2) as (Ht2 & _ & Hu2 & _).
  rewrite tables_ensured in Ht2. rewrite uniqueKeyMap_ensured in Hu2.
  assert (Hnd2 : get nd2 f = Some v).
  { unfold keyed in Ek2. cbv zeta in Ek2.
    destruct (get d2 (primaryKey_of (ensured tableName s') tableName)) eqn:Epk.
    - by injection Ek2 as <- _.
    - unfold getNextPrimaryKey in Ek2. cbv zeta in Ek2. injection Ek2 as <- _.
      rewrite get_set_ne; [done|]. intros Heq. rewrite Heq in Epk. congruence. }
  rewrite (check_rejects tableName nd2 s2 cfg f v sets members); try done.
  - rewrite Ht2. cbn [tables s' with_data]. congruence.
  - rewrite Hu2. exact Hsets.
Qed.

Lemma rolled_back_value_stays_reserved_witness :
  let s' := state_after (transaction (do _ <- insert env0 "day1" "u" ana;
                                      throw (UserError "stop") : M unit)) users_empty in
  data s' = data users_empty /\
  result_of (insert env0 "day2" "u" ana) s' = Throw UniqueViolation.
Proof.
  apply (rolled_back_value_stays_reserved env0 "day1" "day2" "u"
           {| primaryKey := None; unique := Some ["email"]; schema := None |}
           "email" ana ana (VStr "ana@example.org") ana_stored users_empty users_one).
  - evaluate.
  - cbn. apply list_elem_of_here.
  - evaluate.
  - reflexivity.
  - reflexivity.
  - reflexivity.
  - evaluate.
Defined.

(** Registering a document keeps what the sets hold. *)
Lemma register_fold_keeps (d : doc) (l : list string) (m : gmap string (list value)) f members v :
  m !! f = Some members -> set_has members v = true ->
  exists members',
    fold_left
      (fun m uniqueKey =>
         let members := default [] (m !! uniqueKey) in
         <[uniqueKey :=
             match get d uniqueKey with
             | None | Some VNull => members
             | Some v => set_add members v
             end]> m) l m !! f = Some members' /\
    set_has members' v = true.
Proof.
  revert m members. induction l as [|k l IH]; intros m members Hm Hhas; [eauto|].
  cbn [fold_left]. destruct (decide (k = f)) as [->|Hne].
  - eapply IH; [apply lookup_insert_eq|]. rewrite Hm. cbn [default id].
    destruct (get d f) as [[]|]; try done; by apply set_has_add_other.
  - eapply IH; [|exact Hhas]. by rewrite lookup_insert_ne.
Qed.

(** X14.  Inserts keep unique fields distinct.  If the registry covers the
    tables and no two documents of a table share a scalar value on a
    unique field, the same holds after an insert that returns (no unique
    field of the table being one of the two timestamp fields, which are
    stamped after the check). *)
Theorem insert_keeps_unique env now tableName d s newDoc s' :
  registry_covers s -> unique_distinct s ->
  insert env now tableName d s = (Return newDoc, s') ->
  (forall cfg, tables s !! tableName = Some cfg ->
               ("_createdAt" ∉ unique_of cfg) /\ ("_updatedAt" ∉ unique_of cfg)) ->
  registry_covers s' /\ unique_distinct s'.
Proof.
  intros Hcov Hdist Hins Hstamps.
  destruct (insert_stages _ _ _ _ _ _ _ Hins)
    as (nd & sa & Hk & Hcheck & Hnew & Ht' & Hta & Hua & Hu' & Hd').
  assert (Hother : forall t, t <> tableName ->
            data s' !! t = data s !! t /\ uniqueKeyMap s' !! t = uniqueKeyMap s !! t).
  { intros t Hne. rewrite Hd', Hu'. rewrite lookup_insert_ne by done.
    split.
    - unfold ensured. destruct (data s !! tableName); [done|].
      cbn [data with_indexes with_data]. by rewrite lookup_insert_ne.
    - unfold _updateUniqueKeyMap. destruct (tables sa !! tableName); [|by rewrite Hua].
      cbn [uniqueKeyMap with_uniqueKeyMap]. rewrite lookup_insert_ne by done. by rewrite Hua. }
  assert (Hrows' : data s' !! tableName
                   = Some ((default [] (data s !! tableName) ++ [newDoc])%list))
    by (rewrite Hd'; apply lookup_insert_eq).
  assert (Hold : forall cfg f d0 v,
            tables s !! tableName = Some cfg -> f ∈ unique_of cfg ->
            d0 ∈ default [] (data s !! tableName) -> get d0 f = Some v ->
            is_scalar v = true ->
            exists sets members, uniqueKeyMap s !! tableName = Some sets /\
                                 sets !! f = Some members /\ set_has members v = true).
  { intros cfg f d0 v Hcfg Hf Hd0 Hv Hs.
    destruct (data s !! tableName) as [rows|] eqn:Ed; [|by apply elem_of_nil in Hd0].
    by eapply Hcov. }
  assert (Hfresh : forall cfg f d0 v,
            tables s !! tableName = Some cfg -> f ∈ unique_of cfg ->
            d0 ∈ default [] (data s !! tableName) -> get d0 f = Some v ->
            is_scalar v = true -> get newDoc f = Some v -> False).
  { intros cfg f d0 v Hcfg Hf Hd0 Hv Hs Hn.
    destruct (Hold cfg f d0 v Hcfg Hf Hd0 Hv Hs) as (sets & members & Hsets & Hmem & Hhas).
    destruct (Hstamps cfg Hcfg) as [Hc Hu].
    assert (Hnd : get nd f = Some v).
    { rewrite Hnew in Hn. rewrite get_stamped in Hn; [done| |]; intros ->; done. }
    rewrite (check_rejects tableName nd sa cfg f v sets members) in Hcheck;
      try done; congruence. }
  split.
  - intros t cfg f rows d0 v Hcfg Hf Hrows Hd0 Hv Hs. rewrite Ht' in Hcfg.
    destruct (decide (t = tableName)) as [->|Hne].
    + rewrite Hrows' in Hrows. injection Hrows as <-.
      rewrite Hu'. apply elem_of_app in Hd0 as [Hd0|Hd0].
      * destruct (Hold cfg f d0 v Hcfg Hf Hd0 Hv Hs) as (sets & members & Hsets & Hmem & Hhas).
        unfold _updateUniqueKeyMap. rewrite Hta, Hcfg.
        cbn [uniqueKeyMap with_uniqueKeyMap]. rewrite lookup_insert_eq.
        rewrite Hua, Hsets. cbn [default id].
        destruct (register_fold_keeps newDoc (unique_of cfg) sets f members v Hmem Hhas)
          as (members' & H1 & H2).
        eauto.
      * apply list_elem_of_singleton in Hd0 as ->.
        apply registry_after_update with (cfg := cfg); try done. congruence.
    + destruct (Hother t Hne) as [Hdt Hut]. rewrite Hdt in Hrows. rewrite Hut.
      by eapply Hcov.
  - intros t cfg f rows i j di dj v Hcfg Hf Hrows Hi Hj Hvi Hvj Hs. rewrite Ht' in Hcfg.
    destruct (decide (t = tableName)) as [->|Hne].
    + rewrite Hrows' in Hrows. injection Hrows as <-.
      set (rows := default [] (data s !! tableName)) in *.
      pose proof (lookup_lt_Some _ _ _ Hi) as Hli.
      pose proof (lookup_lt_Some _ _ _ Hj) as Hlj.
      rewrite length_app in Hli, Hlj. cbn [length] in Hli, Hlj.
      destruct (decide (i < length rows)%nat) as [Hi'|Hi'];
        destruct (decide (j < length rows)%nat) as [Hj'|Hj'].
      * rewrite lookup_app_l in Hi, Hj by done.
        destruct (data s !! tableName) as [rows0|] eqn:Ed; [|cbn in Hi'; lia].
        by eapply (Hdist tableName cfg f rows0 i j di dj v).
      * exfalso. rewrite lookup_app_l in Hi by done.
        assert (j = length rows) as -> by lia.
        rewrite lookup_app_r in Hj by lia. rewrite Nat.sub_diag in Hj.
        injection Hj as <-.
        eapply (Hfresh cfg f di v); try done. by eapply list_elem_of_lookup_2.
      * exfalso. rewrite lookup_app_l in Hj by done.
        assert (i = length rows) as -> by lia.
        rewrite lookup_app_r in Hi by lia. rewrite Nat.sub_diag in Hi.
        injection Hi as <-.
        eapply (Hfresh cfg f dj v); try done. by eapply list_elem_of_lookup_2.
      * lia.
    + destruct (Hother t Hne) as [Hdt _]. rewrite Hdt in Hrows.
      by eapply (Hdist t cfg f rows i j di dj v).
Qed.

Lemma users_empty_invariants : registry_covers users_empty /\ unique_distinct users_empty.
Proof.
  assert (Hdata : data users_empty = ∅) by evaluate.
  split.
  - intros t cfg f rows d v _ _ Hrows. rewrite Hdata, lookup_empty in Hrows. discriminate Hrows.
  - intros t cfg f rows i j di dj v _ _ Hrows. rewrite Hdata, lookup_empty in Hrows.
    discriminate Hrows.
Qed.

Lemma insert_keeps_unique_witness :
  registry_covers users_one /\ unique_distinct users_one.
Proof.
  destruct users_empty_invariants as [Hc Hd].
  apply (insert_keeps_unique env0 "day1" "u" ana users_empty ana_stored users_one Hc Hd).
  - evaluate.
  - intros cfg Hcfg.
    assert (Ht : tables users_empty !! "u"
                 = Some {| primaryKey := None; unique := Some ["email"]; schema := None |})
      by evaluate.
    rewrite Ht in Hcfg. injection Hcfg as <-. cbn.
    split; intros H; apply list_elem_of_singleton in H; discriminate H.
Defined.

End UniqueExtras.

(** ** The keys assigned along a session *)

Module KeySequence.
Import Store InsertSteps Scenarios StoreMore Invariants Session.
Import InsertProps KeyProps.

Ltac evaluate := vm_compute; reflexivity.

Lemma primaryKeyMap_createTable tableName sch s :
  primaryKeyMap (state_after (createTable tableName sch) s) = primaryKeyMap s.
Proof.
  unfold state_after, createTable.
  destruct (data s !! tableName); [reflexivity|].
  cbv zeta. cbn [tables with_data].
  destruct (tables s !! tableName); reflexivity.
Qed.

Lemma primaryKeyMap_createIndex tableName field s :
  primaryKeyMap (state_after (createIndex tableName field) s) = primaryKeyMap s.
Proof. unfold state_after, createIndex. by destruct (data s !! tableName). Qed.

Lemma primaryKeyMap_dropIndex tableName field s :
  primaryKeyMap (state_after (dropIndex tableName field) s) = primaryKeyMap s.
Proof.
  unfold state_after, dropIndex.
  destruct (indexes s !! tableName) as [tidx|]; [|reflexivity].
  destruct (tidx !! field); [reflexivity|]. by destruct (inherited field).
Qed.

Lemma primaryKeyMap_restore backup s :
  primaryKeyMap (state_after (restore backup) s) = primaryKeyMap s.
Proof.
  unfold state_after, restore.
  destruct backup as [db|]; [|reflexivity].
  destruct (file s); [|reflexivity]. cbn [snd].
  match goal with |- context [_initializeUniqueKeyMaps ?a] =>
    destruct (LifecycleExtras.initializeUniqueKeyMaps_frame a) as (_ & _ & Hp & _)
  end.
  rewrite Hp. reflexivity.
Qed.

Lemma primaryKeyMap_loadDatabase s :
  primaryKeyMap (loadDatabase s) = primaryKeyMap s.
Proof.
  unfold loadDatabase. destruct (file s) as [db|]; [|reflexivity].
  destruct (LifecycleExtras.initializeUniqueKeyMaps_frame (with_data s db))
    as (_ & _ & Hp & _).
  rewrite Hp. reflexivity.
Qed.

Section Sequence.
Variable env : Env.

(** A call that leaves the allocator alone and assigns no key. *)
Lemma quiet_call (o : op) (s : Store) (tableName : string) :
  primaryKeyMap (apply env o s) = primaryKeyMap s ->
  assigned env o s = None ->
  (forall b c, - 2 ^ 53 < b <= 2 ^ 53 ->
     primaryKeyMap s !! tableName = Some c -> b <= c ->
     exists c', primaryKeyMap (apply env o s) !! tableName = Some c' /\ b <= c') /\
  (forall k, assigned env o s = Some (tableName, k) ->
     primaryKeyMap (apply env o s) !! tableName = Some (to_double (k + 1)) /\
     forall c, primaryKeyMap s !! tableName = Some c -> c <= k).
Proof.
  intros Hp Ha. rewrite Hp, Ha. split; [|intros k E; discriminate E].
  intros b c _ Hc Hb. by exists c.
Qed.

(** One call: a counter that is at least a bound of the safe range stays
    so, and a key assigned in the table is at least the counter before,
    the counter after being the double of one more than the key. *)
Lemma apply_counter (o : op) (s : Store) (tableName : string) :
  (forall b c, - 2 ^ 53 < b <= 2 ^ 53 ->
     primaryKeyMap s !! tableName = Some c -> b <= c ->
     exists c', primaryKeyMap (apply env o s) !! tableName = Some c' /\ b <= c') /\
  (forall k, assigned env o s = Some (tableName, k) ->
     primaryKeyMap (apply env o s) !! tableName = Some (to_double (k + 1)) /\
     forall c, primaryKeyMap s !! tableName = Some c -> c <= k).
Proof.
  destruct o as [now t d|now t id newData|t id|t sch|t field|t field|t|backup| | |snapshot].
  - cbn [apply assigned].
    pose proof (primaryKeyMap_insert env now t d s) as H.
    destruct (get d (primaryKey_of s t)) as [v|] eqn:Epk.
    { rewrite H. split; [|intros k E; discriminate E]. intros b c _ Hc Hb. by exists c. }
    destruct (_validateDataAgainstSchema env t d (ensured t s)) as [e|] eqn:Ev.
    { rewrite H. split; [intros b c _ Hc Hb; by exists c|].
      intros k. rewrite insert_eq. cbv zeta. rewrite Ev. intros E. discriminate E. }
    destruct H as (k0 & s1 & Hg & Hp & Hdoc).
    apply getNextPrimaryKey_spec in Hg as (Hk1 & Hother & Hle & _).
    assert (Hpe : primaryKeyMap (ensured t s) = primaryKeyMap s).
    { unfold ensured. by destruct (data s !! t). }
    rewrite Hpe in Hother, Hle. rewrite Hp.
    split.
    + intros b c Hrange Hc Hb. destruct (decide (tableName = t)) as [->|Hne].
      * exists (to_double (k0 + 1)). split; [exact Hk1|].
        apply to_double_succ_ge; [exact Hrange|]. specialize (Hle c Hc). lia.
      * exists c. split; [by rewrite Hother|exact Hb].
    + intros k Hk.
      destruct (insert env now t d s) as [[newDoc|e] s'] eqn:Hins; [|discriminate Hk].
      specialize (Hdoc newDoc s' eq_refl). subst newDoc.
      match type of Hk with context [get ?x ?y] =>
        destruct (get x y) as [[| |z| | |]|] eqn:Eget; try discriminate Hk
      end.
      injection Hk as <- <-.
      assert (z = k0) as ->.
      { destruct (decide (primaryKey_of s t = "_updatedAt")) as [Hu|Hu].
        { rewrite Hu, get_set_eq in Eget. discriminate Eget. }
        rewrite get_set_ne in Eget by done.
        destruct (decide (primaryKey_of s t = "_createdAt")) as [Hc|Hc].
        { rewrite Hc, get_set_eq in Eget. discriminate Eget. }
        rewrite get_set_ne in Eget by done.
        rewrite get_set_eq in Eget. by injection Eget. }
      split; [exact Hk1|exact Hle].
  - apply quiet_call; [apply primaryKeyMap_update|reflexivity].
  - apply quiet_call; [apply primaryKeyMap_delete|reflexivity].
  - apply quiet_call; [apply primaryKeyMap_createTable|reflexivity].
  - apply quiet_call; [apply primaryKeyMap_createIndex|reflexivity].
  - apply quiet_call; [apply primaryKeyMap_dropIndex|reflexivity].
  - cbn [apply assigned]. split; [|intros k E; discriminate E].
    destruct (getNextPrimaryKey t s) as [[k0|e] s1] eqn:Hg.
    2: { unfold getNextPrimaryKey in Hg. cbv zeta in Hg. discriminate Hg. }
    pose proof Hg as Hspec.
    apply getNextPrimaryKey_spec in Hspec as (Hk1 & Hother & Hle & _).
    unfold state_after. rewrite Hg. cbn [snd].
    intros b c Hrange Hc Hb. destruct (decide (tableName = t)) as [->|Hne].
    + exists (to_double (k0 + 1)). split; [exact Hk1|].
      apply to_double_succ_ge; [exact Hrange|]. specialize (Hle c Hc). lia.
    + exists c. split; [by rewrite Hother|exact Hb].
  - apply quiet_call; [apply primaryKeyMap_restore|reflexivity].
  - apply quiet_call; [apply primaryKeyMap_loadDatabase|reflexivity].
  - apply quiet_call; reflexivity.
  - apply quiet_call; reflexivity.
Qed.

(** From a counter that is at least a bound of the safe range, every key
    assigned later is at least that bound. *)
Lemma assigned_keys_bounded tableName ops : forall s b c,
  - 2 ^ 53 < b <= 2 ^ 53 ->
  primaryKeyMap s !! tableName = Some c -> b <= c ->
  Forall (fun k => b <= k) (assigned_keys env tableName ops s).
Proof.
  induction ops as [|o ops IH]; intros s b c Hrange Hc Hb; cbn [assigned_keys];
    [constructor|].
  cbv zeta.
  destruct (apply_counter o s tableName) as [Hmono Hkey].
  destruct (Hmono b c Hrange Hc Hb) as (c' & Hc' & Hle).
  pose proof (IH _ b c' Hrange Hc' Hle) as Hlater.
  destruct (assigned env o s) as [[t k]|] eqn:Ea; [|exact Hlater].
  destruct (String.eqb_spec t tableName) as [->|Hne]; [|exact Hlater].
  constructor; [|exact Hlater].
  destruct (Hkey k eq_refl) as [_ Hk]. specialize (Hk c Hc). lia.
Qed.

(** C2, as the code has it.  On one instance, along every sequence of
    calls of [insert], [update], [delete], [createTable], [createIndex],
    [dropIndex], [getNextPrimaryKey], [restore], [loadDatabase],
    [saveDatabase] and of transactions, committed or rolled back, started
    from any state, the primary keys assigned to the documents of a table
    are strictly increasing as long as they are safe integers (below 2^53
    in absolute value): a key is never assigned twice, even after its
    document has been deleted.  The name of the table is no member of
    [Object.prototype]. *)
Theorem assigned_keys_strictly_increasing (tableName : string) (ops : list op) (s : Store) :
  inherited tableName = false ->
  safe_keys (assigned_keys env tableName ops s) ->
  StronglySorted Z.lt (assigned_keys env tableName ops s).
Proof.
  intros _. revert s. unfold safe_keys.
  induction ops as [|o ops IH]; intros s Hsafe; cbn [assigned_keys] in *; [constructor|].
  cbv zeta in *.
  destruct (assigned env o s) as [[t k]|] eqn:Ea; [|by apply IH].
  destruct (String.eqb_spec t tableName) as [->|Hne]; [|by apply IH].
  apply Forall_cons in Hsafe as [Hk Hsafe].
  constructor; [by apply IH|].
  destruct (apply_counter o s tableName) as [_ Hkey].
  destruct (Hkey k Ea) as [Hnext _].
  assert (Hrange : - 2 ^ 53 < k + 1 <= 2 ^ 53) by lia.
  rewrite to_double_safe in Hnext by lia.
  eapply Forall_impl;
    [apply (assigned_keys_bounded _ _ _ (k + 1) (k + 1) Hrange Hnext); lia|].
  cbn. intros k' ?. lia.
Qed.

End Sequence.

Lemma assigned_keys_strictly_increasing_witness :
  assigned_keys env0 "u"
    [Insert "day2" "u" ben; Delete "u" (VNum 2); Insert "day3" "u" cleo] users_one
  = [2; 3] /\
  StronglySorted Z.lt
    (assigned_keys env0 "u"
       [Insert "day2" "u" ben; Delete "u" (VNum 2); Insert "day3" "u" cleo] users_one).
Proof.
  assert (E : assigned_keys env0 "u"
                [Insert "day2" "u" ben; Delete "u" (VNum 2); Insert "day3" "u" cleo]
                users_one = [2; 3]) by evaluate.
  split; [exact E|].
  apply (assigned_keys_strictly_increasing env0 "u"); [reflexivity|].
  unfold safe_keys. rewrite E.
  constructor; [reflexivity|]. constructor; [reflexivity|]. constructor.
Defined.

(** C2 as stated fails.  The counter is not in the file: a new instance on
    the file sets it to one past the largest key still stored, so after the
    key 2 was assigned, its document deleted and the program started again,
    the next insert assigns the key 2 once more.  The same happens on one
    instance after [importFromJson], which recomputes the counters, and
    after [dropTable] and [reset], which forget them (the key 1 is assigned
    again).  And at 2^53 one more is the same double: from a stored key
    2^53 two inserts in a row are both assigned 2^53. *)
Lemma key_assigned_twice :
  assigned env0 (Insert "day1" "u" ana) users_empty = Some ("u", 1) /\
  assigned env0 (Insert "day2" "u" ben) users_one = Some ("u", 2) /\
  findAll "u" users_reopened = [ana_stored] /\
  assigned env0 (Insert "day3" "u" cleo) users_reopened = Some ("u", 2) /\
  assigned env0 (Insert "day3" "u" cleo) users_imported = Some ("u", 2) /\
  assigned env0 (Insert "day3" "u" cleo) users_dropped = Some ("u", 1) /\
  assigned env0 (Insert "day3" "u" cleo) users_reset = Some ("u", 1) /\
  assigned_keys env0 "u" [Insert "day2" "u" ben; Insert "day3" "u" cleo] users_at_limit
  = [2 ^ 53; 2 ^ 53].
Proof.
  split; [evaluate|]. split; [evaluate|]. split; [evaluate|]. split; [evaluate|].
  split; [evaluate|]. split; [evaluate|]. split; evaluate.
Qed.

End KeySequence.

(** ** Importing *)

Module ImportExtras.
Import Store InsertSteps Scenarios StoreMore Invariants.

Ltac evaluate := vm_compute; reflexivity.




End ImportExtras.

(** ** The query predicate at its edges *)

Module QueryExtras.
Import Query QuerySpec Invariants.

Lemma js_compare_undefined v : js_compare None v = None.
Proof.
  unfold js_compare. cbn [fmap option_fmap option_map to_number].
  by destruct (to_primitive <$> v) as [[]|].
Qed.

Lemma ordering_rejects_undefined ops op operand :
  In (op, operand) ops -> ordering_key op -> _matchesOperators None ops = false.
Proof.
  intros Hin Hop. induction ops as [|[op' operand'] ops IH]; [destruct Hin|].
  destruct Hin as [[= -> ->]|Hin].
  - unfold js_gt, js_ge, js_lt, js_le in *.
    destruct Hop as [-> | [-> | [-> | ->]]]; cbn [_matchesOperators String.eqb Ascii.eqb Bool.eqb];
      unfold js_gt, js_ge, js_lt, js_le; by rewrite js_compare_undefined.
  - specialize (IH Hin). cbn [_matchesOperators].
    repeat match goal with
    | |- context [if ?b then _ else _] => destruct b
    | |- context [match ?x with _ => _ end] => destruct x
    end; try reflexivity; exact IH.
Qed.

(** X16.  A document that lacks a field, the name of the field being no
    member of [Object.prototype] (so that the document reads [undefined]
    there), fails every query that puts one of the four ordering operators
    on that field, whatever the operand and whatever else the operator
    object holds: [undefined] compares as neither smaller nor greater nor
    equal.  It passes [$ne] against every value. *)
Theorem missing_field_fails_ordering (d : doc) (field op : string) (operand : value)
    (ops : doc) (rest : doc) :
  get d field = None -> inherited field = false ->
  In (op, operand) ops -> ordering_key op ->
  _matchesQuery d ((field, VObj ops) :: rest) = false /\
  _matchesQuery d [(field, VObj [("$ne", operand)])] = true.
Proof.
  intros Hnone _ Hin Hop. cbn [_matchesQuery is_object entries]. rewrite Hnone.
  rewrite (ordering_rejects_undefined ops op operand Hin Hop).
  split; reflexivity.
Qed.

Lemma missing_field_fails_ordering_witness :
  _matchesQuery [("name", VStr "x")] [("age", VObj [("$lte", VNum 100)])] = false.
Proof.
  apply (missing_field_fails_ordering [("name", VStr "x")] "age" "$lte" (VNum 100)
           [("$lte", VNum 100)] []).
  - reflexivity.
  - reflexivity.
  - by left.
  - right. right. by right.
Defined.

(** X17.  [$in] and [$nin] ask for an array: with any other operand both
    reject every value, so [$nin] with a single value is never satisfied. *)
Theorem set_operators_need_an_array (v : option value) (op : string) (operand : value)
    (rest : doc) :
  op = "$in" \/ op = "$nin" ->
  (forall items, operand <> VArr items) ->
  _matchesOperators v ((op, operand) :: rest) = false.
Proof.
  intros Hop Harr.
  destruct Hop as [-> | ->]; cbn [_matchesOperators String.eqb Ascii.eqb Bool.eqb];
    destruct operand; try reflexivity; by destruct (Harr items).
Qed.

Lemma set_operators_need_an_array_witness :
  _matchesOperators (Some (VNum 1)) [("$nin", VNum 2)] = false.
Proof.
  apply set_operators_need_an_array; [by right|]. intros items E. discriminate E.
Defined.

Lemma pretty_N_char_not_dollar n : pretty_N_char n <> "$"%char.
Proof. unfold pretty_N_char. by repeat case_match. Qed.

Lemma pretty_N_go_not_dollar (x : N) : forall s r,
  (forall r', s <> String "$" r') -> pretty_N_go x s <> String "$" r.
Proof.
  induction (N.lt_wf_0 x) as [x _ IH]. intros s r Hs.
  destruct (N.eq_dec x 0) as [->|Hx]; [rewrite pretty_N_go_0; apply Hs|].
  rewrite pretty_N_go_step by lia. apply IH.
  - apply N.div_lt; lia.
  - intros r' [= E _]. by apply pretty_N_char_not_dollar in E.
Qed.

Lemma pretty_index_not_dollar (i : nat) r : pretty (Z.of_nat i) <> String "$" r.
Proof.
  unfold pretty, pretty_Z. destruct (Z.of_nat i) as [|p|p] eqn:E; [discriminate| |lia].
  unfold pretty, pretty_positive, pretty, pretty_N.
  destruct (decide (N.pos p = 0%N)) as [E0|_]; [discriminate E0|].
  apply pretty_N_go_not_dollar. intros r' E'. discriminate E'.
Qed.

Lemma index_keys_unsupported (items : list value) : forall n,
  Forall (fun kv => fst kv ∉ supported_keys)
         (imap (fun i x => (pretty (Z.of_nat (n + i)), x)) items).
Proof.
  induction items as [|x items IH]; intros n; [constructor|].
  cbn [imap]. constructor.
  - cbn [fst]. unfold supported_keys. cbn [fmap list_fmap op_key].
    rewrite !elem_of_cons, elem_of_nil.
    intros H. repeat (destruct H as [H|H]; [by apply pretty_index_not_dollar in H|]).
    destruct H.
  - rewrite (imap_ext _ (fun i x => (pretty (Z.of_nat (S n + i)), x)));
      [apply IH|]. intros i y _. cbn. do 3 f_equal. lia.
Qed.

(** X18.  A query value that is an array puts no constraint at all: it is
    taken for an operator object, its keys are the array indices, none of
    them is an operator, and every document matches. *)
Theorem array_value_matches_every_document (d : doc) (field : string) (items : list value)
    (rest : doc) :
  _matchesQuery d ((field, VArr items) :: rest) = _matchesQuery d rest.
Proof.
  cbn [_matchesQuery is_object entries].
  assert (H : _matchesOperators (get d field)
                (imap (fun i x => (pretty (Z.of_nat i), x)) items) = true).
  { pose proof (index_keys_unsupported items 0) as Hkeys. cbn [Nat.add] in Hkeys.
    induction Hkeys as [|[op operand] l Hop _ IH]; [reflexivity|].
    rewrite QueryProps._matchesOperators_unsupported_cons; assumption. }
  by rewrite H.
Qed.

End QueryExtras.

(** ** The codec at its edges *)

Module CodecExtras.
Import Codec.

Local Open Scope N_scope.

Lemma length_to_hex (bs : list Byte.byte) : length (to_hex bs) = (2 * length bs)%nat.
Proof.
  induction bs as [|b bs IH]; [reflexivity|].
  change (to_hex (b :: bs))
    with (hex_digit (Byte.to_N b / 16) :: hex_digit (Byte.to_N b mod 16) :: to_hex bs).
  cbn [length]. rewrite IH. lia.
Qed.

(** X19.  The text [encryptData] returns is the hexadecimal text of the
    initialization vector, one colon, and the hexadecimal text of the
    cipher text: it holds exactly one colon, so [decryptData] never takes
    it for a text of the legacy scheme, whatever the cipher; and with an
    initialization vector that is not of 16 bytes decrypting it throws. *)
Theorem encrypted_text_shape (C : Crypto) (iv : list Byte.byte) (data key : text) :
  let encrypted := cipher C (derive_key C key) iv data in
  split_on colon (encryptData C iv data key) = [to_hex iv; to_hex encrypted] /\
  count_unit colon (encryptData C iv data key) = 1%nat /\
  length (encryptData C iv data key) = (2 * length iv + 1 + 2 * length encrypted)%nat /\
  decryptData C (encryptData C iv data key) key =
    (if (length iv =? 16)%nat then decipher C (derive_key C key) iv encrypted else None).
Proof.
  intros encrypted.
  assert (Hsplit : split_on colon (encryptData C iv data key)
                   = [to_hex iv; to_hex encrypted]).
  { unfold encryptData. cbv zeta.
    apply CodecProps.split_on_once; apply CodecProps.to_hex_no_colon. }
  split; [exact Hsplit|]. split.
  - pose proof (CodecProps.length_split_on colon (encryptData C iv data key)) as Hlen.
    rewrite Hsplit in Hlen. cbn [length] in Hlen. lia.
  - split.
    + unfold encryptData. cbv zeta. rewrite length_app. cbn [length].
      rewrite !length_to_hex. subst encrypted. lia.
    + unfold decryptData. cbv zeta. rewrite Hsplit.
      by rewrite !CodecProps.from_hex_to_hex.
Qed.

End CodecExtras.

(** ** Counting, summing and collecting in [$group] *)

Module AggregateExtras.
Import Aggregate Accumulators.
Import InsertProps.

Lemma js_add_numbers N x y :
  Z.abs x <= 2 ^ 53 -> Z.abs y <= 2 ^ 53 -> Z.abs (x + y) <= 2 ^ 53 ->
  js_add N (VNum x) (VNum y) = VNum (x + y).
Proof. intros Hx Hy Hxy. unfold js_add. cbn [to_primitive is_object]. by apply plus_exact. Qed.

Lemma running_sum_snoc N f ms d :
  running_sum N f (ms ++ [d])
  = js_add N (running_sum N f ms) (or_else (get d f) (VNum 0)).
Proof. unfold running_sum. by rewrite fold_left_app. Qed.

Lemma running_count_snoc N (ms : list doc) d :
  running_count N (ms ++ [d]) = js_add N (running_count N ms) (VNum 1).
Proof. unfold running_count. by rewrite fold_left_app. Qed.

Lemma or_else_amount f d :
  numeric_field f d -> or_else (get d f) (VNum 0) = VNum (amount f d).
Proof.
  unfold numeric_field, amount, or_else, truthy.
  destruct (get d f) as [[| |n| | |]|]; try done.
  intros _. destruct (Z.eqb_spec n 0) as [->|]; reflexivity.
Qed.

Lemma magnitude_nonneg f ms : 0 <= magnitude f ms.
Proof. unfold magnitude. induction ms as [|d ms IH]; cbn [foldr]; lia. Qed.

(** A sum of numbers is exact as long as the absolute values add up to at
    most 2^53. *)
Lemma running_sum_total N f ms :
  Forall (numeric_field f) ms -> magnitude f ms <= 2 ^ 53 ->
  running_sum N f ms = VNum (total f ms).
Proof.
  unfold running_sum, total, magnitude.
  assert (H : forall z, Forall (numeric_field f) ms ->
    Z.abs z + foldr (fun d z => Z.abs (amount f d) + z) 0 ms <= 2 ^ 53 ->
    fold_left (fun sum d => js_add N sum (or_else (get d f) (VNum 0))) ms (VNum z)
    = VNum (z + foldr (fun d z => amount f d + z) 0 ms)).
  { induction ms as [|d ms IH]; intros z Hall Hbound; cbn [fold_left foldr] in *;
      [f_equal; lia|].
    apply Forall_cons in Hall as [Hd Hall].
    pose proof (magnitude_nonneg f ms) as Hmag. unfold magnitude in Hmag.
    rewrite (or_else_amount _ _ Hd), js_add_numbers by lia.
    rewrite IH by (done || lia). f_equal. lia. }
  intros Hall Hbound. rewrite H by (done || (cbn [Z.abs]; lia)). reflexivity.
Qed.

Lemma js_add_not_object N a b o : js_add N a b <> VObj o.
Proof.
  unfold js_add. intros E.
  destruct (to_primitive a) eqn:Ea, (to_primitive b) eqn:Eb; try discriminate E;
    match type of E with plus N ?p ?q = _ =>
      pose proof (plus_number N p q) as Hn; rewrite E in Hn; discriminate Hn
    end.
Qed.

Lemma sum_state_not_object N accumulator ms o : sum_state N accumulator ms <> VObj o.
Proof.
  unfold sum_state.
  assert (Hsum : forall f, running_sum N f ms <> VObj o).
  { intros f. induction ms as [|d ms _] using rev_ind; [discriminate|].
    rewrite running_sum_snoc. apply js_add_not_object. }
  assert (Hcount : running_count N ms <> VObj o).
  { induction ms as [|d ms _] using rev_ind; [discriminate|].
    rewrite running_count_snoc. apply js_add_not_object. }
  repeat match goal with
  | |- context [match ?x with _ => _ end] => destruct x
  end; try discriminate; try apply Hsum; apply Hcount.
Qed.

Lemma initial_sum N accumulator :
  truthy (get accumulator "$sum") = true ->
  initial N accumulator = Some (sum_state N accumulator []).
Proof.
  intros Hs. unfold initial, sum_state. rewrite Hs.
  repeat match goal with
  | |- context [match ?x with _ => _ end] => destruct x
  end; reflexivity.
Qed.

Lemma accumulate_sum N accumulator field d g ms :
  truthy (get accumulator "$sum") = true ->
  get g field = Some (sum_state N accumulator ms) ->
  get (accumulate N d field accumulator g) field
  = Some (sum_state N accumulator (ms ++ [d])).
Proof.
  intros Hs Hg. unfold accumulate, sum_state in *. rewrite Hs, Hg.
  destruct (get accumulator "$sum") as [[| |z|s| |]|];
    try (cbn [field_reference] in *; exact Hg).
  - destruct z as [|[| |]|]; try (cbn [field_reference] in *; exact Hg).
    by rewrite get_set_eq, running_count_snoc.
  - destruct (field_reference (Some (VStr s))) as [f|] eqn:E; [|exact Hg].
    by rewrite get_set_eq, running_sum_snoc.
Qed.

(** X21.  A [$sum] accumulator (with no [$avg] beside it) gives every
    group of the result the running sum of [+] over the documents of the
    group: the number of these documents when it is [$sum: 1] (exact up to
    2^53), and the sum of the named field over them when it names a field
    and the documents hold numbers there, or nothing, whose absolute
    values add up to at most 2^53.  The names are plain: no group key, and
    none of the two fields referred to, names a member of
    [Object.prototype], and the field of the sum is not [__proto__]. *)
Theorem sum_counts_and_totals (N : Numeric) (stage : GroupStage) (field : string)
    (accumulator : doc) (docs : list doc) (k : string) (g : doc) :
  NoDup (accumulators stage).*1 ->
  In (field, accumulator) (accumulators stage) ->
  field <> "_id" ->
  field <> "__proto__" ->
  truthy (get accumulator "$sum") = true ->
  truthy (get accumulator "$avg") = false ->
  plain_keys stage docs ->
  plain_reference (_id stage) ->
  plain_reference (get accumulator "$sum") ->
  In (k, g) (grouped N stage docs) ->
  let ms := members stage k docs in
  get g field = Some (sum_state N accumulator ms) /\
  (get accumulator "$sum" = Some (VNum 1) ->
   Z.of_nat (length ms) <= 2 ^ 53 ->
   get g field = Some (VNum (Z.of_nat (length ms)))) /\
  (forall f, get accumulator "$sum" = Some (VStr (String "$" f)) ->
             Forall (numeric_field f) ms -> magnitude f ms <= 2 ^ 53 ->
             get g field = Some (VNum (total f ms))).
Proof.
  intros Hnd Hin Hid _ Hs Ha _ _ _ Hg ms.
  destruct (AggregateProps.grouped_running N stage field accumulator Hnd Hin Hid
              (sum_state N accumulator) (initial_sum N accumulator Hs)
              (fun d g ms => accumulate_sum N accumulator field d g ms Hs)
              docs k g Hg) as (_ & _ & Hget).
  rewrite Ha in Hget. fold ms in Hget.
  split; [exact Hget|]. split.
  - intros E Hlen. rewrite Hget. unfold sum_state. rewrite E.
    by rewrite AggregateProps.running_count_exact.
  - intros f E Hall Hbound. rewrite Hget. unfold sum_state. rewrite E.
    cbn [field_reference]. by rewrite running_sum_total.
Qed.

Lemma tally_keys : NoDup (accumulators tally).*1.
Proof.
  vm_compute. repeat constructor; rewrite ?elem_of_cons, ?elem_of_nil;
    intros Hx; decompose [or] Hx; try discriminate; done.
Qed.

Lemma ana_tally_grouped : In ("ana", ana_tally) (grouped exact tally sales).
Proof. vm_compute. right. left. reflexivity. Qed.

Lemma sales_plain : plain_keys tally sales.
Proof. unfold plain_keys. vm_compute. repeat constructor. Qed.

Lemma sum_counts_and_totals_witness :
  get ana_tally "n" = Some (VNum (Z.of_nat (length (members tally "ana" sales)))) /\
  get ana_tally "total" = Some (VNum (total "amount" (members tally "ana" sales))).
Proof.
  split.
  - destruct (sum_counts_and_totals exact tally "n" [("$sum", VNum 1)] sales "ana"
                ana_tally
                tally_keys ltac:(left; reflexivity) ltac:(intros E; discriminate E)
                ltac:(intros E; discriminate E)
                ltac:(reflexivity) ltac:(reflexivity) sales_plain
                ltac:(intros name [= <-]; reflexivity)
                ltac:(intros name E; discriminate E) ana_tally_grouped)
      as (_ & Hcount & _).
    apply Hcount; [reflexivity|]. vm_compute. intros E. discriminate E.
  - destruct (sum_counts_and_totals exact tally "total" [("$sum", VStr "$amount")]
                sales "ana" ana_tally
                tally_keys ltac:(right; left; reflexivity) ltac:(intros E; discriminate E)
                ltac:(intros E; discriminate E)
                ltac:(reflexivity) ltac:(reflexivity) sales_plain
                ltac:(intros name [= <-]; reflexivity)
                ltac:(intros name [= <-]; reflexivity) ana_tally_grouped)
      as (_ & _ & Htotal).
    apply (Htotal "amount" eq_refl).
    + vm_compute. repeat constructor.
    + vm_compute. intros E. discriminate E.
Defined.

(** X22.  An accumulator that has both a [$sum] and an [$avg] is summed as
    a [$sum] and then finalized as an average: the sum is no object with a
    sum and a count, so every group of the result holds [undefined]
    divided by 1 in the field, whatever the documents. *)
Theorem sum_beside_avg_is_lost (N : Numeric) (stage : GroupStage) (field : string)
    (accumulator : doc) (docs : list doc) (k : string) (g : doc) :
  NoDup (accumulators stage).*1 ->
  In (field, accumulator) (accumulators stage) ->
  field <> "_id" ->
  truthy (get accumulator "$sum") = true ->
  truthy (get accumulator "$avg") = true ->
  In (k, g) (grouped N stage docs) ->
  get g field = Some (divide N None (VNum 1)).
Proof.
  intros Hnd Hin Hid Hs Ha Hg.
  destruct (AggregateProps.grouped_running N stage field accumulator Hnd Hin Hid
              (sum_state N accumulator) (initial_sum N accumulator Hs)
              (fun d g ms => accumulate_sum N accumulator field d g ms Hs)
              docs k g Hg) as (_ & _ & Hget).
  rewrite Ha in Hget. rewrite Hget. unfold average, prop.
  pose proof (sum_state_not_object N accumulator (members stage k docs)) as Hno.
  destruct (sum_state N accumulator (members stage k docs)) as [|b|z|s|items|o];
    try reflexivity.
  by destruct (Hno o).
Qed.

Lemma sum_beside_avg_is_lost_witness :
  get ana_tally "mixed" = Some (divide exact None (VNum 1)).
Proof.
  apply (sum_beside_avg_is_lost exact tally "mixed"
           [("$sum", VStr "$amount"); ("$avg", VStr "$amount")] sales "ana" ana_tally
           tally_keys); try reflexivity; try exact ana_tally_grouped.
  - right. right. left. reflexivity.
  - intros E. discriminate E.
Defined.

Lemma accumulate_push N accumulator field d g ms :
  truthy (get accumulator "$sum") = false ->
  truthy (get accumulator "$avg") = false ->
  truthy (get accumulator "$min") = false ->
  truthy (get accumulator "$max") = false ->
  truthy (get accumulator "$push") = true ->
  get g field = Some (push_state accumulator ms) ->
  get (accumulate N d field accumulator g) field
  = Some (push_state accumulator (ms ++ [d])).
Proof.
  intros Hs Ha Hmin Hmax Hp Hg. unfold accumulate, push_state in *.
  rewrite Hs, Ha, Hmin, Hmax, Hp.
  destruct (field_reference (get accumulator "$push")) as [f|]; [|exact Hg].
  rewrite Hg, get_set_eq, fmap_app. reflexivity.
Qed.

(** X23.  A [$push] accumulator gives every group of the result the values
    its documents have on the named field, one for each document and in
    the order of the documents, a missing value keeping its place; when it
    names no field the array stays empty. *)
Theorem push_collects_in_order (N : Numeric) (stage : GroupStage) (field : string)
    (accumulator : doc) (docs : list doc) (k : string) (g : doc) :
  NoDup (accumulators stage).*1 ->
  In (field, accumulator) (accumulators stage) ->
  field <> "_id" ->
  truthy (get accumulator "$sum") = false ->
  truthy (get accumulator "$avg") = false ->
  truthy (get accumulator "$min") = false ->
  truthy (get accumulator "$max") = false ->
  truthy (get accumulator "$push") = true ->
  In (k, g) (grouped N stage docs) ->
  get g field =
    Some (match field_reference (get accumulator "$push") with
          | Some f => VArr ((fun d => default VNull (get d f)) <$> members stage k docs)
          | None => VArr []
          end).
Proof.
  intros Hnd Hin Hid Hs Ha Hmin Hmax Hp Hg.
  assert (Hinit : initial N accumulator = Some (push_state accumulator [])).
  { unfold initial, push_state. rewrite Hs, Ha, Hmin, Hmax, Hp.
    by destruct (field_reference _). }
  destruct (AggregateProps.grouped_running N stage field accumulator Hnd Hin Hid
              (push_state accumulator) Hinit
              (fun d g ms => accumulate_push N accumulator field d g ms Hs Ha Hmin Hmax Hp)
              docs k g Hg) as (_ & _ & Hget).
  rewrite Ha in Hget. rewrite Hget. unfold push_state.
  by destruct (field_reference _).
Qed.

Lemma push_collects_in_order_witness :
  get ana_tally "amounts" =
  Some (VArr ((fun d => default VNull (get d "amount")) <$> members tally "ana" sales)).
Proof.
  apply (push_collects_in_order exact tally "amounts" [("$push", VStr "$amount")]
           sales "ana" ana_tally tally_keys); try reflexivity; try exact ana_tally_grouped.
  - right. right. right. left. reflexivity.
  - intros E. discriminate E.
Defined.

End AggregateExtras.

(** ** The pipeline: selecting, paging, projecting *)

Module PipelineExtras.
Import Store Aggregate Pipeline Scenarios.
Import InsertProps.

Ltac evaluate := vm_compute; reflexivity.

Section Selecting.

Variable N : Numeric.
Variable array_sort : (doc -> doc -> Z) -> list doc -> list doc.

(** What the platform promises of [sort]: the same elements. *)
Hypothesis sort_permutes : forall cmp l, array_sort cmp l ≡ₚ l.







End Selecting.


(** X25.  In one stage [$limit] is applied before [$skip], whatever their
    order in the stage: the stage [{ $skip: k, $limit: n }] gives the
    documents from position [k] up to position [n], so nothing when [k] is
    not below [n]; and a [$limit] of 0 is no limit at all. *)
Theorem limit_is_applied_before_skip (N : Numeric)
    (array_sort : (doc -> doc -> Z) -> list doc -> list doc)
    (n k : Z) (result : list doc) :
  0 < n -> 0 < k ->
  let page := {| _match := None; _project := None; _group := None; _sort := None;
                 _limit := Some n; _skip := Some k |} in
  run_stage N array_sort result page
  = drop (Z.to_nat k) (take (Z.to_nat n) result) /\
  (n <= k -> run_stage N array_sort result page = []) /\
  run_stage N array_sort result
    {| _match := None; _project := None; _group := None; _sort := None;
       _limit := Some 0; _skip := Some k |}
  = drop (Z.to_nat k) result.
Proof.
  intros Hn Hk page. unfold run_stage, slice_to, slice_from. cbn [_match _project _group _sort _limit _skip page].
  destruct (Z.eqb_spec n 0) as [->|_]; [lia|].
  destruct (Z.eqb_spec k 0) as [->|_]; [lia|].
  destruct (Z.ltb_spec n 0); [lia|]. destruct (Z.ltb_spec k 0); [lia|].
  split; [reflexivity|]. split; [|reflexivity].
  intros Hle. apply drop_ge. rewrite length_take. lia.
Qed.

Lemma limit_is_applied_before_skip_witness :
  run_stage exact keep_order sales
    {| _match := None; _project := None; _group := None; _sort := None;
       _limit := Some 2; _skip := Some 2 |} = [].
Proof.
  apply (limit_is_applied_before_skip exact keep_order 2 2 sales); lia.
Defined.

Lemma strict_eq_one v : strict_eq (Some v) (Some (VNum 1)) = true <-> v = VNum 1.
Proof.
  destruct v as [|b|z|s|items|o]; cbn [strict_eq]; try (split; intros E; discriminate E).
  split; [intros E; apply Z.eqb_eq in E; by subst|intros [= ->]; reflexivity].
Qed.

Lemma project_fold (d : doc) (f : string) (l : doc) : forall acc,
  get (fold_left
         (fun projected fv =>
            if strict_eq (Some (snd fv)) (Some (VNum 1)) then
              match get d (fst fv) with
              | Some v => set projected (fst fv) v
              | None => projected
              end
            else projected) l acc) f
  = if existsb (fun fv => String.eqb (fst fv) f
                          && strict_eq (Some (snd fv)) (Some (VNum 1))) l
    then match get d f with Some v => Some v | None => get acc f end
    else get acc f.
Proof.
  induction l as [|[k v] l IH]; intros acc; [reflexivity|].
  cbn [fold_left existsb fst snd]. rewrite IH.
  destruct (String.eqb_spec k f) as [->|Hne];
    destruct (strict_eq (Some v) (Some (VNum 1))); cbn [andb orb]; try reflexivity.
  - destruct (get d f) as [x|] eqn:E; rewrite ?get_set_eq; by destruct (existsb _ l).
  - destruct (get d k) as [x|]; [|reflexivity]. by rewrite get_set_ne.
Qed.

(** X26.  [$project] keeps exactly the fields the projection flags with
    the number 1, with the value the document has there: a field flagged
    with anything else ([true], 0, a text) is dropped, and so is every
    field the projection does not name, the primary key included. *)
Theorem project_keeps_flagged_fields (projection : doc) (d : doc) (f : string) :
  (In (f, VNum 1) projection -> get (project projection d) f = get d f) /\
  (~ In (f, VNum 1) projection -> get (project projection d) f = None).
Proof.
  unfold project. rewrite project_fold. cbn [get].
  destruct (existsb _ (js_order projection)) eqn:E.
  - apply existsb_exists in E as ([k v] & Hin & Hkv). cbn [fst snd] in Hkv.
    apply andb_true_iff in Hkv as [Hk Hv].
    apply String.eqb_eq in Hk as ->. apply strict_eq_one in Hv as ->.
    apply (proj1 (AggregateProps.In_js_order _ _)) in Hin.
    split; [intros _; by destruct (get d f)|]. intros Hnot. by destruct Hnot.
  - split; [|reflexivity]. intros Hin.
    apply (proj2 (AggregateProps.In_js_order _ _)) in Hin.
    assert (Ht : existsb (fun fv => String.eqb (fst fv) f
                   && strict_eq (Some (snd fv)) (Some (VNum 1))) (js_order projection)
                 = true).
    { apply existsb_exists. exists (f, VNum 1). split; [exact Hin|].
      cbn [fst snd]. by rewrite String.eqb_refl. }
    rewrite E in Ht. discriminate Ht.
Qed.

End PipelineExtras.

(** ** Creating tables and dropping indexes *)

Module TableExtras.
Import Store Scenarios.

Ltac evaluate := vm_compute; reflexivity.



(** X28.  Dropping an index that exists, on a field whose name is no
    member of [Object.prototype], answers [true], leaves the documents and
    the file alone, and puts single-field queries on the field back on the
    full scan; dropping it again answers [false]: without the index there
    is nothing to drop. *)
Theorem dropIndex_restores_scan (tableName field : string) (s : Store) tidx idx :
  indexes s !! tableName = Some tidx -> tidx !! field = Some idx ->
  inherited field = false ->
  let s' := state_after (dropIndex tableName field) s in
  result_of (dropIndex tableName field) s = Return true /\
  data s' = data s /\ file s' = file s /\ writes s' = writes s /\
  (forall other, other <> field ->
     (indexes s' !! tableName) ≫= (.!! other) = tidx !! other) /\
  (forall q, is_Some (data s !! tableName) ->
     find tableName (Some [(field, q)]) s' = full_scan tableName [(field, q)] s) /\
  dropIndex tableName field s' = (Return false, s').
Proof.
  intros Ht Hf Hplain s'. subst s'. unfold result_of, state_after, dropIndex.
  rewrite Ht, Hf. cbn [fst snd data file writes indexes with_indexes].
  rewrite !lookup_insert_eq, !lookup_delete_eq, Hplain. cbn [mbind option_bind].
  split; [reflexivity|]. do 3 (split; [reflexivity|]).
  split; [intros other Hne; by rewrite lookup_delete_ne|].
  split; [|reflexivity].
  intros q [rows Hrows]. unfold find, full_scan, findAll.
  cbn [data indexes with_indexes]. rewrite Hrows, lookup_insert_eq.
  cbn [mbind option_bind default id]. rewrite lookup_delete_eq. reflexivity.
Qed.

Lemma dropIndex_restores_scan_witness :
  find "t" (Some [("id", VNum 1)]) (state_after (dropIndex "t" "id") two_rows)
  = full_scan "t" [("id", VNum 1)] two_rows.
Proof.
  assert (Hidx : exists tidx idx, indexes two_rows !! "t" = Some tidx /\
                                  tidx !! "id" = Some idx).
  { destruct (indexes two_rows !! "t") as [tidx|] eqn:Et; [|vm_compute in Et; discriminate Et].
    destruct (tidx !! "id") as [idx|] eqn:Ei; [by eauto|].
    exfalso. assert (H : (indexes two_rows !! "t") ≫= (.!! "id") <> None)
      by (vm_compute; intros E; discriminate E).
    apply H. by rewrite Et. }
  destruct Hidx as (tidx & idx & Ht & Hi).
  destruct (dropIndex_restores_scan "t" "id" two_rows tidx idx Ht Hi eq_refl)
    as (_ & _ & _ & _ & _ & Hfind & _).
  apply Hfind.
  assert (H : data two_rows !! "t" <> None) by (vm_compute; intros E; discriminate E).
  destruct (data two_rows !! "t") as [rows|]; [by exists rows|by destruct H].
Defined.

End TableExtras.

(** ** [find]: the scan and the index *)

Module FindExtras.
Import Store Scenarios StoreMore.

Ltac evaluate := vm_compute; reflexivity.




(** X30.  With an index whose entries point to the positions of their
    documents, a single-field query on the indexed field is answered with
    the one document whose value has the same text as the queried value,
    also when the two are not strictly equal (the number 2 and the text
    ['2']); it never returns more than one document, and [count] is at
    most 1. *)
Theorem indexed_find_matches_by_text (tableName field : string) (q v : value)
    (s : Store) rows idx i d :
  index_consistent s ->
  data s !! tableName = Some rows ->
  (indexes s !! tableName) ≫= (.!! field) = Some idx ->
  rows !! i = Some d -> get d field = Some v ->
  to_string v = to_string q ->
  find tableName (Some [(field, q)]) s = [Some d] /\
  count tableName (Some [(field, q)]) s = 1%nat /\
  forall q', (length (find tableName (Some [(field, q')]) s) <= 1)%nat.
Proof.
  intros Hcons Hrows Hidx Hi Hv Htext.
  destruct (indexes s !! tableName) as [tidx|] eqn:Et; [|discriminate Hidx].
  cbn [mbind option_bind] in Hidx.
  pose proof (Hcons tableName rows tidx field idx i d v Hrows Et Hidx Hi Hv) as Hpos.
  assert (Hfind : find tableName (Some [(field, q)]) s = [Some d]).
  { unfold find. rewrite Hrows, Et. cbn [mbind option_bind]. rewrite Hidx.
    by rewrite <- Htext, (InsertProps.member_own _ _ _ Hpos), Hi. }
  split; [exact Hfind|]. split.
  - unfold count. by rewrite Hrows, Hfind.
  - intros q'. unfold find. rewrite Hrows, Et. cbn [mbind option_bind]. rewrite Hidx.
    destruct (member idx (to_string q')) as [[j|]|]; cbn [length]; lia.
Qed.

Lemma indexed_find_matches_by_text_witness :
  find "t" (Some [("id", VStr "2")]) two_rows
  = [Some [("n", VStr "b"); ("id", VNum 2);
           ("_createdAt", VStr "day2"); ("_updatedAt", VStr "day2")]] /\
  full_scan "t" [("id", VStr "2")] two_rows = [].
Proof.
  split; [|evaluate].
  apply (indexed_find_matches_by_text "t" "id" (VStr "2") (VNum 2) two_rows
           (findAll "t" two_rows) {[ "1" := 0%nat; "2" := 1%nat ]} 1%nat).
  - exact IndexProps.two_rows_consistent.
  - evaluate.
  - evaluate.
  - evaluate.
  - evaluate.
  - evaluate.
Defined.

End FindExtras.
